(** * Use-case OCR pipeline (usecase_ocr.py): embedding and verification

    The class [UseCaseOCR] post-processes the detections of an OCR engine:
    it normalises them, merges fragments, removes duplicates and filters
    actor names and UML relation labels.

    Conventions of the embedding.
    - Numbers (pixel coordinates, confidences, thresholds) are rationals
      [Q], as every finite Python [float] is one; comparisons are the
      decidable ones of [QArith].  The average of confidences is computed
      as binary64 arithmetic computes it, each operation rounded to the
      nearest binary64 number; geometry and ratios, which are compared
      with thresholds only, keep their exact values.
    - A Python [str] is a list of characters; a character is a code point
      in U+0000..U+00FF (type [ascii] read as Latin-1), on which
      [str.lower], [str.isspace], [str.isdigit] and [int] behave as
      CPython does on that range.
    - A Python exception is the [ValueError] outcome of the error monad
      [outcome]. *)

From Stdlib Require Import List Bool Arith ZArith Lia Ascii String.
From Stdlib Require Import QArith Qminmax Qabs Lqa Qround Qpower.
From Stdlib Require Import ListSet Permutation Sorted.
Import ListNotations.

Local Open Scope string_scope.
Local Open Scope list_scope.

(* ================================================================= *)
(** ** Error monad *)

Inductive outcome (A : Type) : Type :=
| Ok (a : A)
| ValueError.
Arguments Ok {A} a.
Arguments ValueError {A}.

Definition bind {A B : Type} (m : outcome A) (k : A -> outcome B) : outcome B :=
  match m with
  | Ok a => k a
  | ValueError => ValueError
  end.

Notation "x <- m ;; k" := (bind m (fun x => k))
  (at level 61, m at next level, right associativity).

(* ================================================================= *)
(** ** Characters and strings *)

Definition str := list ascii.

(** A string literal of the source. *)
Definition lit (s : string) : str := list_ascii_of_string s.

(** [len(l)] *)
Definition len {A : Type} (l : list A) : nat := List.length l.

Definition code (c : ascii) : nat := nat_of_ascii c.

Definition in_range (lo hi : nat) (c : ascii) : bool :=
  (lo <=? code c)%nat && (code c <=? hi)%nat.

(** [c.isspace()]: TAB..CR, FS..US, space, NEL and NBSP. *)
Definition isspace (c : ascii) : bool :=
  in_range 9 13 c || in_range 28 32 c
  || (code c =? 133)%nat || (code c =? 160)%nat.

(** [c.isdecimal()]: the digits 0-9. *)
Definition isdecimal (c : ascii) : bool := in_range 48 57 c.

(** [c.isdigit()]: the decimal digits and the superscripts U+00B2,
    U+00B3 and U+00B9. *)
Definition isdigit_char (c : ascii) : bool :=
  isdecimal c || (code c =? 178)%nat || (code c =? 179)%nat
  || (code c =? 185)%nat.

Definition isupper_char (c : ascii) : bool :=
  in_range 65 90 c || in_range 192 214 c || in_range 216 222 c.

(** [c.lower()] *)
Definition lower_char (c : ascii) : ascii :=
  if isupper_char c then ascii_of_nat (code c + 32) else c.

(** [s.lower()] *)
Definition lower (s : str) : str := map lower_char s.

Fixpoint lstrip (s : str) : str :=
  match s with
  | [] => []
  | c :: s' => if isspace c then lstrip s' else s
  end.

Definition rstrip (s : str) : str := rev (lstrip (rev s)).

(** [s.strip()] *)
Definition strip (s : str) : str := rstrip (lstrip s).

(** [s1 == s2] *)
Fixpoint str_eqb (s1 s2 : str) : bool :=
  match s1, s2 with
  | [], [] => true
  | c1 :: r1, c2 :: r2 => Ascii.eqb c1 c2 && str_eqb r1 r2
  | _, _ => false
  end.

(** [s.startswith(p)] *)
Fixpoint startswith (p s : str) : bool :=
  match p, s with
  | [], _ => true
  | c :: p', d :: s' => Ascii.eqb c d && startswith p' s'
  | _ :: _, [] => false
  end.

(** [sub in s] *)
Fixpoint contains (sub s : str) : bool :=
  startswith sub s ||
  match s with
  | [] => false
  | _ :: s' => contains sub s'
  end.

(** [s.isdigit()]: at least one character and all of them digits. *)
Definition isdigit (s : str) : bool :=
  match s with
  | [] => false
  | _ => forallb isdigit_char s
  end.

Fixpoint int_acc (acc : Z) (s : str) : outcome Z :=
  match s with
  | [] => Ok acc
  | c :: s' =>
      if isdecimal c
      then int_acc (10 * acc + Z.of_nat (code c - 48)) s'
      else ValueError
  end.

(** The default of [sys.get_int_max_str_digits()]: the greatest number of
    digits that [int] converts. *)
Definition int_max_str_digits : Z := 4300.

(** [int(s)] for a string of digit characters (the program calls it only
    under [s.isdigit()]): the value in base ten, and [ValueError] when a
    character is no decimal digit or when there are more than
    [int_max_str_digits] digits. *)
Definition int (s : str) : outcome Z :=
  match s with
  | [] => ValueError
  | _ =>
      if (int_max_str_digits <? Z.of_nat (len s))%Z then ValueError
      else int_acc 0 s
  end.

(** [s.split()]: the maximal runs of non-whitespace characters.  [cur]
    holds the current run, reversed. *)
Fixpoint split_aux (cur : str) (s : str) : list str :=
  match s with
  | [] => match cur with [] => [] | _ => [rev cur] end
  | c :: s' =>
      if isspace c
      then match cur with
           | [] => split_aux [] s'
           | _ => rev cur :: split_aux [] s'
           end
      else split_aux (c :: cur) s'
  end.

Definition split (s : str) : list str := split_aux [] s.

(** [sep.join(l)] *)
Fixpoint join (sep : str) (l : list str) : str :=
  match l with
  | [] => []
  | [s] => s
  | s :: l' => s ++ sep ++ join sep l'
  end.

(** [s.replace(c1 c2, '')] for a pattern of two characters: occurrences
    are removed from left to right, without overlap. *)
Fixpoint remove_pair (c1 c2 : ascii) (s : str) : str :=
  match s with
  | [] => []
  | a :: t =>
      match t with
      | [] => [a]
      | b :: r =>
          if Ascii.eqb a c1 && Ascii.eqb b c2
          then remove_pair c1 c2 r
          else a :: remove_pair c1 c2 t
      end
  end.

Definition str_dec : forall s1 s2 : str, {s1 = s2} + {s1 <> s2} :=
  list_eq_dec ascii_dec.

(** [set(l)] for a list of strings. *)
Definition str_set (l : list str) : set str := nodup str_dec l.

(* ----------------------------------------------------------------- *)
(** *** Regular expressions of [is_actor_text]

    The patterns are sequences of literal characters, [\s*] and an
    optional character [c?]; literals are compared under
    [re.IGNORECASE]. *)

Inductive atom : Type :=
| Chr (c : ascii)
| SpaceStar
| OptChr (c : ascii).

Definition pattern := list atom.

Definition chars (s : string) : pattern := map Chr (lit s).

Definition char_matches (x c : ascii) : bool :=
  Ascii.eqb (lower_char x) (lower_char c).

(** [re.match(p, s)]: [p] matches a prefix of [s]. *)
Fixpoint match_here (p : pattern) (s : str) {struct p} : bool :=
  match p with
  | [] => true
  | Chr c :: p' =>
      match s with
      | x :: s' => char_matches x c && match_here p' s'
      | [] => false
      end
  | OptChr c :: p' =>
      match s with
      | x :: s' => char_matches x c && match_here p' s'
      | [] => false
      end || match_here p' s
  | SpaceStar :: p' =>
      (fix star (s : str) : bool :=
         match_here p' s ||
         match s with
         | x :: s' => isspace x && star s'
         | [] => false
         end) s
  end.

(** [re.search(p, s, re.IGNORECASE)] as a truth value. *)
Fixpoint re_search (p : pattern) (s : str) : bool :=
  match_here p s ||
  match s with
  | [] => false
  | _ :: s' => re_search p s'
  end.

(* ================================================================= *)
(** ** Numbers *)

Local Open Scope Q_scope.

(** [x < y] as a truth value. *)
Definition Qlt_b (x y : Q) : bool := negb (Qle_bool y x).

(** [min(l)] and [max(l)] of a list with first element [x] and rest
    [xs]; as in Python the first extremal element wins a tie. *)
Definition min_ne (x : Q) (xs : list Q) : Q := fold_left Qmin xs x.
Definition max_ne (x : Q) (xs : list Q) : Q := fold_left Qmax xs x.

(** A length or a count as a number. *)
Definition Qnat (n : nat) : Q := inject_Z (Z.of_nat n).

(* ================================================================= *)
(** ** Binary64 arithmetic

    A Python [float] is a binary64 number of IEEE 754: the finite ones
    are the rationals [m * 2 ^ e] with [m] and [e] integers,
    [|m| < 2 ^ 53] and [-1074 <= e].  An operation on floats returns the
    exact result rounded to the nearest binary64 number, and of two
    nearest ones the one with even [m].  Results beyond the largest
    binary64 number, which Python turns into [inf], are not modelled:
    the exponent has no upper limit here. *)

(** The integer nearest to [x]; the even one when [x] lies half way
    between two integers. *)
Definition round_half_even (x : Q) : Z :=
  let f := Qfloor x in
  match Qcompare (x - inject_Z f) (1 # 2) with
  | Lt => f
  | Gt => (f + 1)%Z
  | Eq => if Z.even f then f else (f + 1)%Z
  end.

(** For [0 < x], the integer [e] with [2 ^ e <= x < 2 ^ (e + 1)]. *)
Definition Qlog2 (x : Q) : Z :=
  let k := (Z.log2 (Qnum x) - Z.log2 (Zpos (Qden x)))%Z in
  if Qle_bool (2 ^ k) x then k else (k - 1)%Z.

(** The exponent [e] of the binary64 numbers [m * 2 ^ e] around [x]:
    53 binary digits from the leading one, and never below the exponent
    of the subnormal numbers. *)
Definition ulp_exponent (x : Q) : Z := Z.max (Qlog2 (Qabs x) - 52) (-1074).

(** The binary64 number nearest to [x]. *)
Definition round64 (x : Q) : Q :=
  if Qeq_bool x 0 then 0
  else
    let e := ulp_exponent x in
    Qred (inject_Z (round_half_even (x / 2 ^ e)) * 2 ^ e).

(** [x + y] and [x / y] on floats ([y] not zero). *)
Definition float_add (x y : Q) : Q := round64 (x + y).
Definition float_div (x y : Q) : Q := round64 (x / y).

(** [sum(l)] for floats: the additions are made from left to right,
    starting from 0, each one rounded (CPython up to 3.11; later
    versions carry a correction term along).  The terms are floats: a
    rational that is no binary64 number stands for the one nearest to
    it, as a decimal literal does. *)
Definition float_sum (l : list Q) : Q :=
  fold_left float_add (map round64 l) 0.

(** Stable sort, as [list.sort] and [sorted] are: [lt a b] is the
    comparison [key(a) < key(b)] of the keys, and elements that compare
    equal keep their relative order. *)
Section Sorting.
Context {A : Type} (lt : A -> A -> bool).

Fixpoint insert_sorted (x : A) (l : list A) : list A :=
  match l with
  | [] => [x]
  | y :: l' => if lt y x then y :: insert_sorted x l' else x :: l
  end.

Definition py_sort (l : list A) : list A :=
  fold_right insert_sorted [] l.
End Sorting.

(* ================================================================= *)
(** ** Box geometry *)

Definition point := (Q * Q)%type.

(** A bounding box: the four corner points [bbox[0]] .. [bbox[3]]. *)
Record bbox_t : Type := Bbox {
  pt0 : point;
  pt1 : point;
  pt2 : point;
  pt3 : point
}.

Definition points (b : bbox_t) : list point := [pt0 b; pt1 b; pt2 b; pt3 b].

(** [min(point[0] for point in bbox)] and its three companions. *)
Definition bbox_x_min (b : bbox_t) : Q :=
  min_ne (fst (pt0 b)) [fst (pt1 b); fst (pt2 b); fst (pt3 b)].
Definition bbox_y_min (b : bbox_t) : Q :=
  min_ne (snd (pt0 b)) [snd (pt1 b); snd (pt2 b); snd (pt3 b)].
Definition bbox_x_max (b : bbox_t) : Q :=
  max_ne (fst (pt0 b)) [fst (pt1 b); fst (pt2 b); fst (pt3 b)].
Definition bbox_y_max (b : bbox_t) : Q :=
  max_ne (snd (pt0 b)) [snd (pt1 b); snd (pt2 b); snd (pt3 b)].

(** [UseCaseOCR._expand_bbox]; [width] and [height] are [self.width] and
    [self.height]. *)
Definition _expand_bbox (width height : Q) (bbox : bbox_t)
    (expand_x expand_y : Q) : bbox_t :=
  let x_min := Qmax 0 (bbox_x_min bbox - expand_x) in
  let y_min := Qmax 0 (bbox_y_min bbox - expand_y) in
  let x_max := Qmin width (bbox_x_max bbox + expand_x) in
  let y_max := Qmin height (bbox_y_max bbox + expand_y) in
  Bbox (x_min, y_min) (x_max, y_min) (x_max, y_max) (x_min, y_max).

(** [UseCaseOCR._calculate_iou] *)
Definition _calculate_iou (bbox1 bbox2 : bbox_t) : Q :=
  let '(x1_1, y1_1) := pt0 bbox1 in
  let '(x2_1, y2_1) := pt2 bbox1 in
  let '(x1_2, y1_2) := pt0 bbox2 in
  let '(x2_2, y2_2) := pt2 bbox2 in
  let x_left := Qmax x1_1 x1_2 in
  let y_top := Qmax y1_1 y1_2 in
  let x_right := Qmin x2_1 x2_2 in
  let y_bottom := Qmin y2_1 y2_2 in
  if Qlt_b x_right x_left || Qlt_b y_bottom y_top then 0
  else
    let intersection_area := (x_right - x_left) * (y_bottom - y_top) in
    let area1 := (x2_1 - x1_1) * (y2_1 - y1_1) in
    let area2 := (x2_2 - x1_2) * (y2_2 - y1_2) in
    let union_area := area1 + area2 - intersection_area in
    if Qlt_b 0 union_area then intersection_area / union_area else 0.

(* ================================================================= *)
(** ** Actor and relation filter *)

(** [UseCaseOCR.__init__]: the blacklist built from the actor names. *)
Definition init_blacklist (actor_blacklist : list str) : list str :=
  map (fun text => strip (lower text))
      (filter (fun text => negb (str_eqb (strip text) [])) actor_blacklist).

(** [UseCaseOCR.add_actor_blacklist] *)
Definition add_actor_blacklist (blacklist : list str) (actor_texts : list str)
    : list str :=
  fold_left
    (fun bl text =>
       if negb (str_eqb text []) && negb (str_eqb (strip text) [])
       then bl ++ [strip (lower text)]
       else bl)
    actor_texts blacklist.

Definition uml_relations : list str :=
  [lit "include"; lit "extend"; lit "includes"; lit "extends";
   lit "includ"; lit "extend"].

Definition uml_patterns : list pattern :=
  [ chars "<<" ++ [SpaceStar] ++ chars "include" ++ [SpaceStar] ++ chars ">>";
    chars "<<" ++ [SpaceStar] ++ chars "extend" ++ [SpaceStar] ++ chars ">>";
    chars "<<" ++ [SpaceStar] ++ chars "include" ++ [OptChr "s"%char]
      ++ [SpaceStar] ++ chars ">" ++ [OptChr ">"%char];
    chars "<<" ++ [SpaceStar] ++ chars "extend" ++ [OptChr "s"%char]
      ++ [SpaceStar] ++ chars ">" ++ [OptChr ">"%char];
    chars "include" ++ [SpaceStar] ++ chars ">>";
    chars "extend" ++ [SpaceStar] ++ chars ">>";
    chars "<<" ++ [SpaceStar] ++ chars "include";
    chars "<<" ++ [SpaceStar] ++ chars "extend";
    chars "tend" ].

Definition arrow_patterns : list str :=
  [lit "->"; lit "-->"; lit ">>"; lit "<<"].

(** The test of one blacklist entry in step 1. *)
Definition actor_match (text_lower actor_text : str) : bool :=
  let actor_text_lower := lower actor_text in
  str_eqb actor_text_lower text_lower
  || contains actor_text_lower text_lower
  || contains text_lower actor_text_lower.

(** [UseCaseOCR.is_actor_text]; [blacklist] is [self.actor_blacklist]. *)
Definition is_actor_text (blacklist : list str) (text : str) : bool :=
  let text_lower := strip (lower text) in
  if existsb (actor_match text_lower) blacklist then true
  else
    let text_clean :=
      strip (remove_pair ">" ">" (remove_pair "<" "<" text_lower)) in
    if existsb (fun relation => contains relation text_clean) uml_relations
    then true
    else if existsb (fun p => re_search p text_lower) uml_patterns then true
    else
      existsb
        (fun arrow =>
           contains arrow text
           && existsb (fun word => contains word text_lower)
                      [lit "include"; lit "extend"])
        arrow_patterns.

(* ================================================================= *)
(** ** Fragment merger *)

(** [UseCaseOCR._should_merge_texts] *)
Definition _should_merge_texts (text1 text2 : str) : outcome bool :=
  let t1 := strip (lower text1) in
  let t2 := strip (lower text2) in
  if contains t1 t2 || contains t2 t1 then Ok true
  else if isdigit t1 && negb (isdigit t2) then Ok true
  else if isdigit t2 && negb (isdigit t1) then Ok true
  else
    close <- (if isdigit t1 && isdigit t2
              then num1 <- int t1 ;;
                   num2 <- int t2 ;;
                   Ok (Z.abs (num1 - num2) <=? 2)%Z
              else Ok false) ;;
    if close then Ok true
    else
      let words1 := str_set (split t1) in
      let words2 := str_set (split t2) in
      let common_words := set_inter str_dec words1 words2 in
      Ok (existsb (fun word => (3 <? len word)%nat) common_words).

(** A detection record (the dicts of [processed_results]): the keys
    [bbox], [text], [confidence], and, when present, [original_bbox] and
    [merged_from]. *)
Record result : Type := Result {
  bbox : bbox_t;
  text : str;
  confidence : Q;
  original_bbox : option bbox_t;
  merged_from : option nat
}.

(** A record after the preparation loop of [_merge_similar_boxes], which
    stores its index and the envelope of its box under the keys [id],
    [x_min], [y_min], [x_max], [y_max], [center_x] and [center_y].  The
    loop writes these keys before anything reads them, and no later stage
    reads them. *)
Record prepared : Type := Prepared {
  res : result;
  id : nat;
  x_min : Q;
  y_min : Q;
  x_max : Q;
  y_max : Q;
  center_x : Q;
  center_y : Q
}.

(** [enumerate(l)] *)
Definition enumerate {A : Type} (l : list A) : list (nat * A) :=
  combine (seq 0 (len l)) l.

Definition prepare (ir : nat * result) : prepared :=
  let '(idx, r) := ir in
  let xmin := bbox_x_min (bbox r) in
  let ymin := bbox_y_min (bbox r) in
  let xmax := bbox_x_max (bbox r) in
  let ymax := bbox_y_max (bbox r) in
  Prepared r idx xmin ymin xmax ymax ((xmin + xmax) / 2) ((ymin + ymax) / 2).

(** The order of the keys [(x['y_min'], x['x_min'])]: tuples compare by
    their first differing component. *)
Definition position_lt (a b : prepared) : bool :=
  if negb (Qeq_bool (y_min a) (y_min b))
  then Qlt_b (y_min a) (y_min b)
  else Qlt_b (x_min a) (x_min b).

(** The body of the inner loop up to [should_merge]. *)
Definition should_merge (iou_threshold : Q) (ri rj : prepared) : outcome bool :=
  let iou := _calculate_iou (bbox (res ri)) (bbox (res rj)) in
  let vertical_distance := Qabs (center_y ri - center_y rj) in
  let horizontal_gap := Qmax 0 (x_min rj - x_max ri) in
  if Qlt_b iou_threshold iou then Ok true
  else if Qlt_b vertical_distance 15 && Qlt_b horizontal_gap 100
       then _should_merge_texts (text (res ri)) (text (res rj))
       else Ok false.

(** [for j in range(i + 1, len(results))]: [later] holds the entries
    [(j, results[j])] still to visit, [ri] is [results[i]]. *)
Fixpoint inner_loop (iou_threshold : Q) (ri : prepared)
    (later : list (nat * prepared))
    (current_group : list prepared) (used_ids : set nat)
    : outcome (list prepared * set nat) :=
  match later with
  | [] => Ok (current_group, used_ids)
  | (j, rj) :: later' =>
      if set_mem Nat.eq_dec j used_ids
      then inner_loop iou_threshold ri later' current_group used_ids
      else
        merge <- should_merge iou_threshold ri rj ;;
        if merge
        then inner_loop iou_threshold ri later'
               (current_group ++ [rj]) (set_add Nat.eq_dec j used_ids)
        else inner_loop iou_threshold ri later' current_group used_ids
  end.

(** [for i in range(len(results))]: [todo] holds the entries
    [(i, results[i])] still to visit, so that its tail is
    [range(i + 1, len(results))]. *)
Fixpoint outer_loop (iou_threshold : Q) (todo : list (nat * prepared))
    (groups : list (list prepared)) (used_ids : set nat)
    : outcome (list (list prepared)) :=
  match todo with
  | [] => Ok groups
  | (i, ri) :: later =>
      if set_mem Nat.eq_dec i used_ids
      then outer_loop iou_threshold later groups used_ids
      else
        gu <- inner_loop iou_threshold ri later [ri]
                (set_add Nat.eq_dec i used_ids) ;;
        let '(current_group, used_ids') := gu in
        match current_group with
        | [] => outer_loop iou_threshold later groups used_ids'
        | _ => outer_loop iou_threshold later
                 (groups ++ [current_group]) used_ids'
        end
  end.

(** The body of the loop [for group in groups]: the record appended to
    [merged_results].  On an empty group [min] raises. *)
Definition merge_group (group : list prepared) : outcome result :=
  match group with
  | [] => ValueError
  | [r] => Ok (res r)
  | r :: rs =>
      let sorted_group :=
        py_sort (fun a b => Qlt_b (x_min a) (x_min b)) group in
      let combined_text :=
        join (lit " ") (map (fun r => text (res r)) sorted_group) in
      let avg_confidence :=
        float_div (float_sum (map (fun r => confidence (res r)) group))
                  (Qnat (len group)) in
      let min_x := min_ne (x_min r) (map x_min rs) in
      let min_y := min_ne (y_min r) (map y_min rs) in
      let max_x := max_ne (x_max r) (map x_max rs) in
      let max_y := max_ne (y_max r) (map y_max rs) in
      let merged_bbox :=
        Bbox (min_x, min_y) (max_x, min_y) (max_x, max_y) (min_x, max_y) in
      Ok (Result merged_bbox combined_text avg_confidence None
                 (Some (len group)))
  end.

Fixpoint merge_groups (groups : list (list prepared))
    (merged_results : list result) : outcome (list result) :=
  match groups with
  | [] => Ok merged_results
  | group :: groups' =>
      m <- merge_group group ;;
      merge_groups groups' (merged_results ++ [m])
  end.

(** The sorted, prepared list and the groups built from it. *)
Definition sorted_results (results : list result) : list prepared :=
  py_sort position_lt (map prepare (enumerate results)).

Definition build_groups (results : list result) (iou_threshold : Q)
    : outcome (list (list prepared)) :=
  outer_loop iou_threshold (enumerate (sorted_results results))
    [] (empty_set nat).

(** [UseCaseOCR._merge_similar_boxes] *)
Definition _merge_similar_boxes (results : list result) (iou_threshold : Q)
    : outcome (list result) :=
  match results with
  | [] => Ok []
  | _ =>
      groups <- build_groups results iou_threshold ;;
      merge_groups groups []
  end.

(* ================================================================= *)
(** ** Duplicate eliminator *)

(** The local function [text_similarity] of [_remove_duplicate_cases]. *)
Definition text_similarity (text1 text2 : str) : Q :=
  let text1_lower := strip (lower text1) in
  let text2_lower := strip (lower text2) in
  if contains text1_lower text2_lower || contains text2_lower text1_lower
  then 1
  else
    let words1 := str_set (split text1_lower) in
    let words2 := str_set (split text2_lower) in
    match words1, words2 with
    | [], _ | _, [] => 0
    | _, _ =>
        let intersection := set_inter str_dec words1 words2 in
        let union := set_union str_dec words1 words2 in
        Qnat (len intersection) / Qnat (len union)
    end.

(** The test of one accepted record in the inner loop. *)
Definition similar (similarity_threshold : Q) (r unique : result) : bool :=
  let similarity := text_similarity (text r) (text unique) in
  let iou := _calculate_iou (bbox r) (bbox unique) in
  Qlt_b similarity_threshold similarity || Qlt_b (1 # 2) iou.

(** [for result in results], with the accumulator [unique_results]. *)
Fixpoint dedup_loop (similarity_threshold : Q) (results : list result)
    (unique_results : list result) : list result :=
  match results with
  | [] => unique_results
  | r :: results' =>
      let is_duplicate := existsb (similar similarity_threshold r) unique_results in
      if is_duplicate
      then dedup_loop similarity_threshold results' unique_results
      else dedup_loop similarity_threshold results' (unique_results ++ [r])
  end.

(** [results.sort(key=lambda x: x['confidence'], reverse=True)] *)
Definition sort_by_confidence (results : list result) : list result :=
  py_sort (fun a b => Qlt_b (confidence b) (confidence a)) results.

(** [UseCaseOCR._remove_duplicate_cases] *)
Definition _remove_duplicate_cases (results : list result)
    (similarity_threshold : Q) : list result :=
  match results with
  | [] => []
  | _ => dedup_loop similarity_threshold (sort_by_confidence results) []
  end.

(* ================================================================= *)
(** ** Pipeline *)

(** The fields of [self] that [run_ocr] reads. *)
Record ocr : Type := Ocr {
  width : Q;
  height : Q;
  actor_blacklist : list str
}.

(** One tuple [(bbox, text, confidence)] of [reader.readtext]; the
    confidence is a float, which [float(confidence)] leaves as it is. *)
Definition detection := (bbox_t * str * Q)%type.

(** The loop that fills [processed_results]. *)
Fixpoint process_results (self : ocr) (confidence_threshold : Q)
    (results : list detection) (processed_results : list result)
    : list result :=
  match results with
  | [] => processed_results
  | (b, t, c) :: results' =>
      if Qlt_b c confidence_threshold
      then process_results self confidence_threshold results' processed_results
      else if (len (strip t) <? 2)%nat
      then process_results self confidence_threshold results' processed_results
      else
        let expanded_bbox := _expand_bbox (width self) (height self) b 30 25 in
        process_results self confidence_threshold results'
          (processed_results ++ [Result expanded_bbox (strip t) c (Some b) None])
  end.

(** A record of [filtered_results]. *)
Record use_case : Type := UseCase {
  uc_bbox : bbox_t;
  uc_text : str;
  uc_confidence : Q
}.

(** The loop that fills [self.filtered_results] and [self.use_cases]. *)
Fixpoint filter_actors (self : ocr) (unique_results : list result)
    (filtered_results : list use_case) (use_cases : list str)
    : list use_case * list str :=
  match unique_results with
  | [] => (filtered_results, use_cases)
  | r :: rest =>
      if is_actor_text (actor_blacklist self) (text r)
      then filter_actors self rest filtered_results use_cases
      else filter_actors self rest
             (filtered_results ++ [UseCase (bbox r) (text r) (confidence r)])
             (use_cases ++ [text r])
  end.

(** The lists of one run: the three intermediate lists, which are local
    to [run_ocr], and the two it stores in [self]. *)
Record run : Type := Run {
  processed : list result;
  merged : list result;
  unique : list result;
  filtered_results : list use_case;
  use_cases : list str
}.

(** [UseCaseOCR.run_ocr]; [results] is what [self.reader.readtext]
    returned.  The function returns [filtered_results]. *)
Definition run_ocr (self : ocr) (results : list detection)
    (confidence_threshold : Q) : outcome run :=
  let processed_results :=
    process_results self confidence_threshold results [] in
  merged_results <- _merge_similar_boxes processed_results (1 # 5) ;;
  let unique_results := _remove_duplicate_cases merged_results (7 # 10) in
  let '(filtered, cases) := filter_actors self unique_results [] [] in
  Ok (Run processed_results merged_results unique_results filtered cases).


From Stdlib Require DecimalString.

(* ================================================================= *)
(** ** Results of a run (usecase_ocr.py) *)

(** [UseCaseOCR.get_use_cases] after a run. *)
Definition get_use_cases (r : run) : list str := use_cases r.

(** A dict of [get_formatted_results]: [id], [text], [confidence] and
    [bbox], the latter a list of pairs. *)
Record formatted_result : Type := Formatted {
  fr_id : nat;
  fr_text : str;
  fr_confidence : Q;
  fr_bbox : list (Q * Q)
}.

(** [UseCaseOCR.get_formatted_results]; the argument is
    [self.filtered_results]. *)
Definition get_formatted_results (filtered : list use_case)
    : list formatted_result :=
  map (fun ir : nat * use_case =>
         let '(idx, result) := ir in
         Formatted (idx + 1) (uc_text result) (uc_confidence result)
                   (map (fun xy : Q * Q => let '(x, y) := xy in (x, y))
                        (points (uc_bbox result))))
      (enumerate filtered).

(** The dict that [save_results] hands to [json.dump]. *)
Record saved_results : Type := Saved {
  saved_use_cases : list formatted_result;
  total_count : nat;
  saved_actor_blacklist : list str
}.

(** [UseCaseOCR.save_results], up to the writing of the file; [r] holds
    [self.filtered_results] and [self.use_cases]. *)
Definition save_results (self : ocr) (r : run) : saved_results :=
  Saved (get_formatted_results (filtered_results r))
        (len (use_cases r))
        (actor_blacklist self).

(* ================================================================= *)
(** ** Actors of the report (pdf_builder.py) *)

(** A detected actor [(actor_id, actor_name)]; the name may be [None]. *)
Definition actor := (Z * option str)%type.

(** The truth value of [name and name.strip()]. *)
Definition has_name (name : option str) : bool :=
  match name with
  | None => false
  | Some n => negb (str_eqb n []) && negb (str_eqb (strip n) [])
  end.

(** [[(actor_id, name.strip()) for actor_id, name in actors_list
      if name and name.strip()]] *)
Fixpoint named_actors (actors_list : list actor) : list (Z * str) :=
  match actors_list with
  | [] => []
  | (actor_id, name) :: rest =>
      match name with
      | Some n =>
          if has_name name
          then (actor_id, strip n) :: named_actors rest
          else named_actors rest
      | None => named_actors rest
      end
  end.

(** [for new_id, (old_id, name) in enumerate(filtered, start=1)] *)
Fixpoint renumber (new_id : Z) (filtered : list (Z * str))
    (renumbered : list (Z * str)) : list (Z * str) :=
  match filtered with
  | [] => renumbered
  | (old_id, name) :: rest =>
      renumber (new_id + 1) rest (renumbered ++ [(new_id, name)])
  end.

(** The dict [stats]. *)
Record actor_stats : Type := ActorStats {
  total_detected : Z;
  with_names : Z;
  without_names : Z;
  filtered_list : list (Z * str)
}.

(** [len(l)] as an integer. *)
Definition Zlen {A : Type} (l : list A) : Z := Z.of_nat (len l).

(** [filter_and_renumber_actors] *)
Definition filter_and_renumber_actors (actors_list : list actor)
    : list (Z * str) * actor_stats :=
  let filtered := named_actors actors_list in
  let renumbered := renumber 1 filtered [] in
  let stats :=
    ActorStats (Zlen actors_list) (Zlen filtered)
               (Zlen actors_list - Zlen filtered) renumbered in
  (renumbered, stats).

(** [str(n)] for an integer. *)
Definition str_of_Z (n : Z) : str :=
  lit (DecimalString.NilZero.string_of_int (Z.to_int n)).

(** The text shown for a use case in the table of [create_actors_pdf]:
    texts of more than 120 characters are cut to 117 and three dots. *)
Definition display_text (use_case : str) : str :=
  if (120 <? len use_case)%nat
  then firstn 117 use_case ++ lit "..."
  else use_case.

(** [for idx, use_case in enumerate(use_cases_list, 1)], appending the
    rows to [uc_table_data]. *)
Fixpoint uc_table_rows (idx : Z) (use_cases_list : list str)
    (uc_table_data : list (list str)) : list (list str) :=
  match use_cases_list with
  | [] => uc_table_data
  | use_case :: rest =>
      uc_table_rows (idx + 1) rest
        (uc_table_data ++ [[str_of_Z idx; display_text use_case]])
  end.

(** The table [uc_table_data] that [create_actors_pdf] builds when
    [use_cases_list] is not empty; the header is "ID" and
    "Descripcion del Caso de Uso", with o acute. *)
Definition uc_table_data (use_cases_list : list str) : list (list str) :=
  uc_table_rows 1 use_cases_list
    [[lit "ID"; lit "Descripci" ++ [ascii_of_nat 243] ++ lit "n del Caso de Uso"]].

(* ================================================================= *)
(** ** The endpoint [detect_actors] (main.py) *)

(** [[name for _, name in filtered_actors if name and name.strip()]] *)
Definition actor_names (filtered_actors : list (Z * str)) : list str :=
  map snd (filter (fun a => has_name (Some (snd a))) filtered_actors).

(** The blacklist of the [UseCaseOCR] that the endpoints build from the
    detected actors. *)
Definition endpoint_blacklist (actors_list : list actor) : list str :=
  init_blacklist (actor_names (fst (filter_and_renumber_actors actors_list))).

(** The dict ["statistics"] of the JSON response. *)
Record statistics : Type := Statistics {
  total_actors_detected : Z;
  actors_with_names : Z;
  actors_without_names : Z;
  use_cases_detected : Z;
  actors_in_final_report : Z
}.

(** The JSON response of [detect_actors]; the two last keys are present
    when [include_empty] is set. *)
Record response_data : Type := Response {
  status : str;
  detection_time : str;
  response_statistics : statistics;
  response_actors : list (Z * str);
  response_use_cases : list (nat * str);
  positions : list (Q * Q);
  all_detected_actors : option (list (Z * str));
  omitted_actors : option (list Z)
}.

(** [str(actor_name or "Sin nombre")] *)
Definition name_or_default (name : option str) : str :=
  match name with
  | None | Some [] => lit "Sin nombre"
  | Some n => n
  end.

(** The branch [format.lower() == "json"] of [detect_actors]:
    [response_data] from the detected actors, the use cases of the run
    and the positions of the actors. *)
Definition json_response (actors_list : list actor) (usecase_list : list str)
    (actor_positions : option (list (Q * Q))) (include_empty : bool)
    (detection_time : str) : response_data :=
  let '(filtered_actors, stats) := filter_and_renumber_actors actors_list in
  Response
    (lit "success")
    detection_time
    (Statistics (total_detected stats) (with_names stats)
                (without_names stats) (Zlen usecase_list)
                (Zlen filtered_actors))
    filtered_actors
    (map (fun iu : nat * str => let '(idx, use_case) := iu in
                                ((idx + 1)%nat, use_case))
         (enumerate usecase_list))
    (match actor_positions with
     | Some ((_ :: _) as l) => l
     | _ => []
     end)
    (if include_empty
     then Some (map (fun a : actor => (fst a, name_or_default (snd a)))
                    actors_list)
     else None)
    (if include_empty
     then Some (map fst (filter (fun a : actor => negb (has_name (snd a)))
                                actors_list))
     else None).
(* ################################################################# *)
(** * Vocabulary of the specification *)

(** A string with no leading whitespace. *)
Definition no_lead (s : str) : Prop :=
  match s with
  | [] => True
  | c :: _ => isspace c = false
  end.

(** [a] occurs in [b] as a contiguous block. *)
Definition substring (a b : str) : Prop :=
  exists pre post, b = pre ++ a ++ post.

(** The rectangle that [_calculate_iou] reads off a box: its first corner
    and its third. *)
Definition rect_left (b : bbox_t) : Q := fst (pt0 b).
Definition rect_top (b : bbox_t) : Q := snd (pt0 b).
Definition rect_right (b : bbox_t) : Q := fst (pt2 b).
Definition rect_bottom (b : bbox_t) : Q := snd (pt2 b).

Definition rect_area (b : bbox_t) : Q :=
  (rect_right b - rect_left b) * (rect_bottom b - rect_top b).

(** The point [p] lies in the rectangle of [b]. *)
Definition in_rect (p : point) (b : bbox_t) : Prop :=
  rect_left b <= fst p <= rect_right b /\ rect_top b <= snd p <= rect_bottom b.

Definition rects_intersect (a b : bbox_t) : Prop :=
  exists p, in_rect p a /\ in_rect p b.

(** Area of the common part of two rectangles that intersect, and of
    their union. *)
Definition common_area (a b : bbox_t) : Q :=
  (Qmin (rect_right a) (rect_right b) - Qmax (rect_left a) (rect_left b))
  * (Qmin (rect_bottom a) (rect_bottom b) - Qmax (rect_top a) (rect_top b)).

Definition union_area (a b : bbox_t) : Q :=
  rect_area a + rect_area b - common_area a b.

(** The first corner is the top-left one, the third the bottom-right one,
    and the area is positive. *)
Definition proper_rect (b : bbox_t) : Prop :=
  rect_left b < rect_right b /\ rect_top b < rect_bottom b.


(** The axis-aligned box with top-left corner [(x0, y0)] and bottom-right
    corner [(x1, y1)], corners in the order top-left, top-right,
    bottom-right, bottom-left. *)
Definition rect (x0 y0 x1 y1 : Q) : bbox_t :=
  Bbox (x0, y0) (x1, y0) (x1, y1) (x0, y1).

(** Every corner of [b] lies in the image [[0, w] x [0, h]]. *)
Definition in_image (w h : Q) (b : bbox_t) : Prop :=
  Forall (fun p => (0 <= fst p <= w) /\ (0 <= snd p <= h)) (points b).

(** The point [p] lies in the image [[0, w] x [0, h]]. *)
Definition in_image_point (w h : Q) (p : point) : Prop :=
  (0 <= fst p <= w) /\ (0 <= snd p <= h).

(** The corners of [b] are those of an axis-aligned rectangle, in the
    order top-left, top-right, bottom-right, bottom-left. *)
Definition corners_in_order (b : bbox_t) : Prop :=
  exists l t r bt, b = rect l t r bt /\ l <= r /\ t <= bt.

(** The envelope of [b], moved outward by [ex] to the left and to the
    right and by [ey] to the top and to the bottom, has a point in the
    image [[0, w] x [0, h]]. *)
Definition grown_meets_image (w h : Q) (b : bbox_t) (ex ey : Q) : Prop :=
  exists x y,
    (bbox_x_min b - ex <= x <= bbox_x_max b + ex)
    /\ (bbox_y_min b - ey <= y <= bbox_y_max b + ey)
    /\ in_image_point w h (x, y).

(** [l1] is obtained from [l2] by dropping elements. *)
Inductive subseq {A : Type} : list A -> list A -> Prop :=
| subseq_nil : subseq [] []
| subseq_skip (x : A) (l1 l2 : list A) : subseq l1 l2 -> subseq l1 (x :: l2)
| subseq_keep (x : A) (l1 l2 : list A) : subseq l1 l2 -> subseq (x :: l1) (x :: l2).

(** Confidence does not increase along the list. *)
Definition confidence_descending (l : list result) : Prop :=
  StronglySorted (fun a b => confidence b <= confidence a) l.

(** Records of equal confidence appear in [l1] in the order they have
    in [l2]. *)
Definition same_order_of_ties (l1 l2 : list result) : Prop :=
  forall c : Q,
    filter (fun r => Qeq_bool (confidence r) c) l1
    = filter (fun r => Qeq_bool (confidence r) c) l2.

(** No record of the list is similar to one before it. *)
Definition pairwise_distinct (similarity_threshold : Q) (l : list result) : Prop :=
  ForallOrdPairs (fun u r => similar similarity_threshold r u = false) l.

(** A text of whitespace only (the empty text included). *)
Definition blank (t : str) : Prop := forallb isspace t = true.

(** Example records. *)
Definition example_record (x0 y0 x1 y1 : Q) (t : string) (c : Q) : result :=
  Result (rect x0 y0 x1 y1) (lit t) c None None.

(** The entries of [todo] whose index is not in [used_ids]. *)
Definition unused (used_ids : set nat) (todo : list (nat * prepared))
    : list prepared :=
  map snd
    (filter (fun ip => negb (set_mem Nat.eq_dec (fst ip) used_ids)) todo).

(** [result.get('merged_from', 1)]: the number of detections a record
    stands for. *)
Definition merged_count (r : result) : nat :=
  match merged_from r with
  | Some n => n
  | None => 1
  end.

(** [sum(l)] for natural numbers. *)
Definition total (l : list nat) : nat := fold_right Nat.add 0%nat l.

(** The rectangle with sides [l], [t], [r], [b] covers the envelope
    stored in [p]. *)
Definition covers (l t r b : Q) (p : prepared) : Prop :=
  l <= x_min p /\ x_max p <= r /\ t <= y_min p /\ y_max p <= b.

(** Sum of a list of rationals, from the right. *)
Definition Qtotal (l : list Q) : Q := fold_right Qplus 0 l.

(** [x] is a finite binary64 number: [m * 2 ^ e] with a significand [m]
    of at most 53 binary digits and an exponent [e] not below that of
    the subnormal numbers. *)
Definition binary64 (x : Q) : Prop :=
  exists m e : Z,
    (Z.abs m < 2 ^ 53)%Z /\ (-1074 <= e)%Z /\ x == inject_Z m * 2 ^ e.

(** The arithmetic mean of a list of numbers. *)
Definition mean (l : list Q) : Q := Qtotal l / Qnat (len l).

(** A confidence as the OCR engine reports it: a number of [[0, 1]]. *)
Definition unit_range (x : Q) : Prop := 0 <= x /\ x <= 1.

(** The distance that rounding can put between the binary64 average of
    [n] numbers of [[0, 1]] and their mean: [n + 3] times [2 ^ -53], which
    is half the distance from 1 to the next binary64 number. *)
Definition rounding_slack (n : nat) : Q := Qnat (n + 3) * 2 ^ (-53).

(** The two fragments of the label "44 Eliminar tipo de fuente". *)
Definition fragment_44 : result :=
  example_record 10 10 30 30 "44" (9 # 10).
Definition fragment_eliminar : result :=
  example_record 60 10 200 30 "Eliminar tipo de fuente" (8 # 10).


(** The record of [filtered_results] made from a detection. *)
Definition use_case_of (r : result) : use_case :=
  UseCase (bbox r) (text r) (confidence r).

(** The detections that the actor filter lets through. *)
Definition kept (blacklist : list str) (l : list result) : list result :=
  filter (fun r => negb (is_actor_text blacklist (text r))) l.

(** A blacklist entry as [__init__] and [add_actor_blacklist] store it:
    lowercase and trimmed. *)
Definition stored (a : str) : Prop := lower a = a /\ strip a = a.

(** The scenario of the specification: two detections of an actor name
    and one use case. *)
Definition example_ocr : ocr := Ocr 640 480 (init_blacklist [lit "Actor1"]).

Definition example_detections : list detection :=
  [ (rect 10 10 50 20, lit "Actor1", 9 # 10);
    (rect 12 10 52 20, lit "Actor1", 85 # 100);
    (rect 300 300 400 320, lit "Crear pedido", 6 # 10) ].

(** The superscript digits two and three, U+00B2 and U+00B3. *)
Definition superscript_two : ascii := ascii_of_nat 178.
Definition superscript_three : ascii := ascii_of_nat 179.

(** The text-relatedness test of the specification, on two strings
    already lowercased and trimmed; "purely numeric" is [isdigit], the
    integer value is [int]. *)
Definition related (t1 t2 : str) : Prop :=
  substring t1 t2 \/ substring t2 t1
  \/ (isdigit t1 = true /\ isdigit t2 = false)
  \/ (isdigit t2 = true /\ isdigit t1 = false)
  \/ (isdigit t1 = true /\ isdigit t2 = true
      /\ exists n1 n2, int t1 = Ok n1 /\ int t2 = Ok n2
                       /\ (Z.abs (n1 - n2) <= 2)%Z)
  \/ (exists w, In w (split t1) /\ In w (split t2) /\ (3 < len w)%nat).

(** Every digit character of the text is a decimal digit, and the text
    has no more characters than [int] converts digits. *)
Definition decimal_digits (t : str) : Prop :=
  Forall (fun c => isdigit_char c = true -> isdecimal c = true) t
  /\ (Z.of_nat (len t) <= int_max_str_digits)%Z.

(** The number of detections that the record [m] made from the group [g]
    stands for: 1 when the group is a single detection, which is passed
    through unmerged, and [merged_from] otherwise. *)
Definition cluster_count (g : list prepared) (m : result) : nat :=
  match g with
  | [_] => 1%nat
  | _ => merged_count m
  end.

Fixpoint cluster_counts (groups : list (list prepared)) (out : list result)
    : list nat :=
  match groups, out with
  | g :: groups', m :: out' => cluster_count g m :: cluster_counts groups' out'
  | _, _ => []
  end.

(** The envelope stored in [p] is the envelope of its box. *)
Definition envelope_of_box (p : prepared) : Prop :=
  x_min p = bbox_x_min (bbox (res p)) /\ y_min p = bbox_y_min (bbox (res p))
  /\ x_max p = bbox_x_max (bbox (res p)) /\ y_max p = bbox_y_max (bbox (res p)).

(* ################################################################# *)
(** * Vocabulary of the further properties *)

(** The detection passes the two tests of the normaliser. *)
Definition survives (confidence_threshold : Q) (d : detection) : bool :=
  let '(_, t, c) := d in
  negb (Qlt_b c confidence_threshold) && negb (len (strip t) <? 2)%nat.

(** The record that the normaliser makes of a detection. *)
Definition normalised (self : ocr) (d : detection) : result :=
  let '(b, t, c) := d in
  Result (_expand_bbox (width self) (height self) b 30 25) (strip t) c
         (Some b) None.

(** The envelope of the box of [m] contains the envelope of the box
    of [r]. *)
Definition envelope_within (r m : result) : Prop :=
  bbox_x_min (bbox m) <= bbox_x_min (bbox r)
  /\ bbox_x_max (bbox r) <= bbox_x_max (bbox m)
  /\ bbox_y_min (bbox m) <= bbox_y_min (bbox r)
  /\ bbox_y_max (bbox r) <= bbox_y_max (bbox m).

(** A text as the comparisons see it: lowercase and trimmed. *)
Definition norm (t : str) : str := strip (lower t).

(** Neither text contains the other, case and outer whitespace apart. *)
Definition unrelated_texts (a b : str) : Prop :=
  ~ substring (norm a) (norm b) /\ ~ substring (norm b) (norm a).

(** A keyword without whitespace and without angle brackets. *)
Definition plain_keyword (kw : str) : Prop :=
  kw <> []
  /\ Forall (fun c => isspace c = false /\ c <> "<"%char /\ c <> ">"%char) kw.

(** The detection fails one of the two tests of the normaliser. *)
Definition rejected (confidence_threshold : Q) (d : detection) : Prop :=
  snd d < confidence_threshold \/ (len (strip (snd (fst d))) < 2)%nat.

(** The confidence of the record is a number of [[0, 1]] and at least
    [lo]. *)
Definition confidence_from (lo : Q) (r : result) : Prop :=
  lo <= confidence r /\ unit_range (confidence r).

(** [a] comes no later than [b] in the reading order of the merger: it
    is higher, or at the same height and not further right. *)
Definition reading_order (a b : prepared) : Prop :=
  y_min a < y_min b \/ (y_min a == y_min b /\ x_min a <= x_min b).

(** A group as the merger forms it from the sorted list [all]: a seed,
    followed by records that passed the merge test against the seed, in
    the order of [all]; the seed is the topmost member. *)
Definition seeded_group (iou_threshold : Q) (all : list prepared)
    (g : list prepared) : Prop :=
  exists seed members,
    g = seed :: members
    /\ Forall (fun m => should_merge iou_threshold seed m = Ok true) members
    /\ subseq g all
    /\ Forall (fun m => y_min seed <= y_min m) members.

(** A character that [lower] neither changes nor produces from another
    character. *)
Definition caseless (x : ascii) : Prop :=
  forall d, Ascii.eqb x (lower_char d) = Ascii.eqb x d.

(** The detected actors taken again as input: every name present. *)
Definition as_detected (actors : list (Z * str)) : list actor :=
  map (fun a => (fst a, Some (snd a))) actors.

(** The names of the actors that have one, in the order of the list and
    as often as they occur: a name that is [None] or blank is left out
    (the empty name is blank). *)
Fixpoint names_given (actors : list actor) : list str :=
  match actors with
  | [] => []
  | (_, Some n) :: rest =>
      if forallb isspace n then names_given rest else n :: names_given rest
  | (_, None) :: rest => names_given rest
  end.

(** The integers [first], [first + 1], ..., one for each element
    of [l]. *)
Definition numbers_from {A : Type} (first : Z) (l : list A) : list Z :=
  map (fun i => first + Z.of_nat i)%Z (seq 0 (len l)).

(** The box is an axis-aligned rectangle inside the image
    [[0, w] x [0, h]], with its corners in the order top-left, top-right,
    bottom-right, bottom-left. *)
Definition rect_in_image (w h : Q) (b : bbox_t) : Prop :=
  exists l t r bt,
    b = rect l t r bt
    /\ 0 <= l /\ l <= r /\ r <= w
    /\ 0 <= t /\ t <= bt /\ bt <= h.

(** A text without outer whitespace and of at least two characters. *)
Definition label_text (t : str) : Prop := strip t = t /\ (2 <= len t)%nat.

(** [not blacklist]: the blacklist is empty. *)
Definition is_empty (blacklist : list str) : bool :=
  match blacklist with
  | [] => true
  | _ => false
  end.
(* ################################################################# *)
(** * Properties *)

(* ================================================================= *)
(** ** Characters and strings *)

Ltac each_char c := destruct c as [[] [] [] [] [] [] [] []]; reflexivity.

Lemma lower_char_idem (c : ascii) : lower_char (lower_char c) = lower_char c.
Proof. each_char c. Qed.

Lemma isspace_lower_char (c : ascii) : isspace (lower_char c) = isspace c.
Proof. each_char c. Qed.

Lemma lower_idem (s : str) : lower (lower s) = lower s.
Proof.
  unfold lower. rewrite map_map. apply map_ext. intros c. apply lower_char_idem.
Qed.

Lemma lstrip_lower (s : str) : lstrip (lower s) = lower (lstrip s).
Proof.
  induction s as [|c s IH]; simpl; [reflexivity|].
  rewrite isspace_lower_char. destruct (isspace c); [exact IH | reflexivity].
Qed.

Lemma lower_rev (s : str) : lower (rev s) = rev (lower s).
Proof. apply map_rev. Qed.

Lemma rstrip_lower (s : str) : rstrip (lower s) = lower (rstrip s).
Proof.
  unfold rstrip. rewrite <- lower_rev, lstrip_lower, lower_rev. reflexivity.
Qed.

Lemma strip_lower (s : str) : strip (lower s) = lower (strip s).
Proof. unfold strip. rewrite lstrip_lower, rstrip_lower. reflexivity. Qed.

Lemma lstrip_no_lead (s : str) : no_lead (lstrip s).
Proof.
  induction s as [|c s IH]; simpl; [exact I|].
  destruct (isspace c) eqn:E; [exact IH | simpl; exact E].
Qed.

Lemma lstrip_fix (s : str) : no_lead s -> lstrip s = s.
Proof.
  destruct s as [|c s]; simpl; [reflexivity|]. intros ->. reflexivity.
Qed.

Lemma lstrip_idem (s : str) : lstrip (lstrip s) = lstrip s.
Proof. apply lstrip_fix, lstrip_no_lead. Qed.

Lemma lstrip_snoc (s : str) (c : ascii) :
  isspace c = false -> lstrip (s ++ [c]) = lstrip s ++ [c].
Proof.
  intros Hc. induction s as [|d s IH]; simpl.
  - rewrite Hc. reflexivity.
  - destruct (isspace d); [exact IH | reflexivity].
Qed.

Lemma rstrip_cons (c : ascii) (s : str) :
  isspace c = false -> rstrip (c :: s) = c :: rstrip s.
Proof.
  intros Hc. unfold rstrip. simpl rev at 2.
  rewrite lstrip_snoc by exact Hc. rewrite rev_app_distr. reflexivity.
Qed.

Lemma rstrip_no_lead (s : str) : no_lead s -> no_lead (rstrip s).
Proof.
  destruct s as [|c s]; simpl; intros H.
  - exact I.
  - rewrite rstrip_cons by exact H. exact H.
Qed.

Lemma rstrip_idem (s : str) : rstrip (rstrip s) = rstrip s.
Proof.
  unfold rstrip. rewrite rev_involutive, lstrip_idem. reflexivity.
Qed.

Lemma strip_no_lead (s : str) : no_lead (strip s).
Proof. apply rstrip_no_lead, lstrip_no_lead. Qed.

Lemma strip_idem (s : str) : strip (strip s) = strip s.
Proof.
  unfold strip at 1.
  rewrite (lstrip_fix (strip s)) by apply strip_no_lead.
  unfold strip. apply rstrip_idem.
Qed.

Lemma str_eqb_eq (s1 s2 : str) : str_eqb s1 s2 = true <-> s1 = s2.
Proof.
  revert s2. induction s1 as [|c s1 IH]; intros [|d s2]; simpl;
    try (split; [discriminate | congruence]); try tauto.
  rewrite andb_true_iff, Ascii.eqb_eq, IH. split.
  - intros [-> ->]. reflexivity.
  - intros H. injection H as -> ->. auto.
Qed.

Lemma str_eqb_refl (s : str) : str_eqb s s = true.
Proof. apply str_eqb_eq. reflexivity. Qed.

Lemma startswith_spec (p s : str) :
  startswith p s = true <-> exists post, s = p ++ post.
Proof.
  revert s. induction p as [|c p IH]; intros s; simpl.
  - split; [intros _; exists s; reflexivity | reflexivity].
  - destruct s as [|d s].
    + split; [discriminate | intros [post H]; discriminate].
    + rewrite andb_true_iff, Ascii.eqb_eq, IH. split.
      * intros [-> [post ->]]. exists post. reflexivity.
      * intros [post H]. injection H as -> ->. split; [reflexivity|].
        exists post. reflexivity.
Qed.

Lemma contains_spec (a b : str) : contains a b = true <-> substring a b.
Proof.
  unfold substring. induction b as [|d b IH]; simpl.
  - rewrite orb_false_r, startswith_spec. split.
    + intros [post H]. exists [], post. exact H.
    + intros [pre [post H]]. destruct pre as [|x pre]; [|discriminate].
      exists post. exact H.
  - rewrite orb_true_iff, startswith_spec, IH. split.
    + intros [[post H] | [pre [post H]]].
      * exists [], post. exact H.
      * exists (d :: pre), post. simpl. rewrite H. reflexivity.
    + intros [pre [post H]]. destruct pre as [|x pre].
      * left. exists post. exact H.
      * right. injection H as _ H. exists pre, post. exact H.
Qed.

Lemma contains_refl (s : str) : contains s s = true.
Proof. apply contains_spec. exists [], []. simpl. rewrite app_nil_r. reflexivity. Qed.

Lemma contains_nil (s : str) : contains [] s = true.
Proof. destruct s; reflexivity. Qed.

Lemma lstrip_nil_iff (s : str) : lstrip s = [] <-> forallb isspace s = true.
Proof.
  induction s as [|c s IH]; simpl; [tauto|].
  destruct (isspace c); simpl; [exact IH|]. split; discriminate.
Qed.

Lemma strip_nil_iff (s : str) : strip s = [] <-> forallb isspace s = true.
Proof.
  rewrite <- lstrip_nil_iff. unfold strip, rstrip. split.
  - intros H. apply (f_equal (@rev ascii)) in H.
    rewrite rev_involutive in H. simpl in H.
    pose proof (lstrip_no_lead s) as Hn.
    destruct (lstrip s) as [|c t]; [reflexivity|]. exfalso.
    simpl in Hn, H. rewrite lstrip_snoc in H by exact Hn.
    destruct (lstrip (rev t)); discriminate.
  - intros ->. reflexivity.
Qed.

Lemma split_aux_nil (cur s : str) :
  split_aux cur s = [] -> cur = [] /\ forallb isspace s = true.
Proof.
  revert cur. induction s as [|c s IH]; intros cur; simpl.
  - destruct cur; [auto | discriminate].
  - destruct (isspace c); simpl.
    + destruct cur; [|discriminate]. intros H. apply IH in H. tauto.
    + intros H. apply IH in H. destruct H as [H _]. discriminate.
Qed.

Lemma split_strip_nil (s : str) : split (strip s) = [] -> strip s = [].
Proof.
  intros H. apply split_aux_nil in H. destruct H as [_ H].
  pose proof (strip_no_lead s) as Hn.
  destruct (strip s) as [|c t]; [reflexivity|].
  simpl in Hn, H. rewrite Hn in H. discriminate.
Qed.

Lemma str_set_nil (l : list str) : str_set l = [] -> l = [].
Proof.
  unfold str_set. destruct l as [|x l]; [reflexivity|]. intros H. exfalso.
  assert (Hin : In x (nodup str_dec (x :: l))) by (apply nodup_In; left; reflexivity).
  rewrite H in Hin. exact Hin.
Qed.

(* ================================================================= *)
(** ** Numbers *)

Lemma Qlt_b_true (x y : Q) : Qlt_b x y = true <-> x < y.
Proof.
  unfold Qlt_b. rewrite negb_true_iff. split.
  - intros H. apply Qnot_le_lt. intros Hle.
    apply Qle_bool_iff in Hle. congruence.
  - intros H. destruct (Qle_bool y x) eqn:E; [|reflexivity].
    apply Qle_bool_iff in E. exfalso. exact (Qlt_not_le _ _ H E).
Qed.

Lemma Qlt_b_false (x y : Q) : Qlt_b x y = false <-> y <= x.
Proof.
  unfold Qlt_b. rewrite negb_false_iff. apply Qle_bool_iff.
Qed.

#[export] Instance Qlt_b_compat : Proper (Qeq ==> Qeq ==> eq) Qlt_b.
Proof.
  intros x x' Hx y y' Hy.
  destruct (Qlt_b x y) eqn:E, (Qlt_b x' y') eqn:E'; try reflexivity.
  - apply Qlt_b_true in E. apply Qlt_b_false in E'. lra.
  - apply Qlt_b_false in E. apply Qlt_b_true in E'. lra.
Qed.

Lemma min_ne_le_acc (x : Q) (xs : list Q) : min_ne x xs <= x.
Proof.
  unfold min_ne. revert x. induction xs as [|y xs IH]; intros x; simpl.
  - apply Qle_refl.
  - eapply Qle_trans; [apply IH | apply Q.le_min_l].
Qed.

Lemma min_ne_lower (x : Q) (xs : list Q) (v : Q) :
  In v (x :: xs) -> min_ne x xs <= v.
Proof.
  unfold min_ne. revert x. induction xs as [|y xs IH]; intros x; simpl.
  - intros [<- | []]. apply Qle_refl.
  - intros [<- | [<- | H]].
    + eapply Qle_trans; [apply (min_ne_le_acc (Qmin x y) xs) | apply Q.le_min_l].
    + eapply Qle_trans; [apply (min_ne_le_acc (Qmin x y) xs) | apply Q.le_min_r].
    + apply IH. right. exact H.
Qed.

Lemma min_ne_greatest (x : Q) (xs : list Q) (b : Q) :
  (forall v, In v (x :: xs) -> b <= v) -> b <= min_ne x xs.
Proof.
  unfold min_ne. revert x. induction xs as [|y xs IH]; intros x H; simpl.
  - apply H. left. reflexivity.
  - apply IH. intros v [<- | Hv].
    + apply Q.min_glb; apply H; simpl; auto.
    + apply H. simpl. auto.
Qed.

Lemma max_ne_ge_acc (x : Q) (xs : list Q) : x <= max_ne x xs.
Proof.
  unfold max_ne. revert x. induction xs as [|y xs IH]; intros x; simpl.
  - apply Qle_refl.
  - eapply Qle_trans; [apply Q.le_max_l | apply IH].
Qed.

Lemma max_ne_upper (x : Q) (xs : list Q) (v : Q) :
  In v (x :: xs) -> v <= max_ne x xs.
Proof.
  unfold max_ne. revert x. induction xs as [|y xs IH]; intros x; simpl.
  - intros [<- | []]. apply Qle_refl.
  - intros [<- | [<- | H]].
    + eapply Qle_trans; [apply Q.le_max_l | apply (max_ne_ge_acc (Qmax x y) xs)].
    + eapply Qle_trans; [apply Q.le_max_r | apply (max_ne_ge_acc (Qmax x y) xs)].
    + apply IH. right. exact H.
Qed.

Lemma max_ne_least (x : Q) (xs : list Q) (b : Q) :
  (forall v, In v (x :: xs) -> v <= b) -> max_ne x xs <= b.
Proof.
  unfold max_ne. revert x. induction xs as [|y xs IH]; intros x H; simpl.
  - apply H. left. reflexivity.
  - apply IH. intros v [<- | Hv].
    + apply Q.max_lub; apply H; simpl; auto.
    + apply H. simpl. auto.
Qed.

(* ================================================================= *)
(** ** Box geometry *)

Lemma iou_unfold (a b : bbox_t) :
  _calculate_iou a b =
  if Qlt_b (Qmin (rect_right a) (rect_right b)) (Qmax (rect_left a) (rect_left b))
     || Qlt_b (Qmin (rect_bottom a) (rect_bottom b)) (Qmax (rect_top a) (rect_top b))
  then 0
  else if Qlt_b 0 (union_area a b) then common_area a b / union_area a b else 0.
Proof.
  unfold _calculate_iou, union_area, common_area, rect_area,
    rect_left, rect_right, rect_top, rect_bottom.
  destruct a as [[x1 y1] q1 [x2 y2] q3], b as [[u1 v1] r1 [u2 v2] r3]; simpl.
  reflexivity.
Qed.

Lemma iou_disjoint (a b : bbox_t) :
  ~ rects_intersect a b -> _calculate_iou a b = 0.
Proof.
  intros H. rewrite iou_unfold.
  destruct (Qlt_b (Qmin (rect_right a) (rect_right b))
                  (Qmax (rect_left a) (rect_left b))) eqn:E1; [reflexivity|].
  destruct (Qlt_b (Qmin (rect_bottom a) (rect_bottom b))
                  (Qmax (rect_top a) (rect_top b))) eqn:E2; [reflexivity|].
  exfalso. apply H.
  apply Qlt_b_false in E1. apply Qlt_b_false in E2.
  exists (Qmax (rect_left a) (rect_left b), Qmax (rect_top a) (rect_top b)).
  unfold in_rect; simpl.
  pose proof (Q.le_max_l (rect_left a) (rect_left b)).
  pose proof (Q.le_max_r (rect_left a) (rect_left b)).
  pose proof (Q.le_max_l (rect_top a) (rect_top b)).
  pose proof (Q.le_max_r (rect_top a) (rect_top b)).
  pose proof (Q.le_min_l (rect_right a) (rect_right b)).
  pose proof (Q.le_min_r (rect_right a) (rect_right b)).
  pose proof (Q.le_min_l (rect_bottom a) (rect_bottom b)).
  pose proof (Q.le_min_r (rect_bottom a) (rect_bottom b)).
  repeat split; lra.
Qed.

(** When the guard of [_calculate_iou] lets a pair through, the common
    part has non-negative sides that are no longer than the sides of
    either rectangle. *)
Lemma common_area_bounds (a b : bbox_t) :
  Qmax (rect_left a) (rect_left b) <= Qmin (rect_right a) (rect_right b) ->
  Qmax (rect_top a) (rect_top b) <= Qmin (rect_bottom a) (rect_bottom b) ->
  0 <= common_area a b /\ common_area a b <= rect_area a
  /\ common_area a b <= rect_area b.
Proof.
  intros Hx Hy. unfold common_area, rect_area.
  pose proof (Q.le_max_l (rect_left a) (rect_left b)).
  pose proof (Q.le_max_r (rect_left a) (rect_left b)).
  pose proof (Q.le_max_l (rect_top a) (rect_top b)).
  pose proof (Q.le_max_r (rect_top a) (rect_top b)).
  pose proof (Q.le_min_l (rect_right a) (rect_right b)).
  pose proof (Q.le_min_r (rect_right a) (rect_right b)).
  pose proof (Q.le_min_l (rect_bottom a) (rect_bottom b)).
  pose proof (Q.le_min_r (rect_bottom a) (rect_bottom b)).
  set (w := Qmin (rect_right a) (rect_right b) - Qmax (rect_left a) (rect_left b)) in *.
  set (h := Qmin (rect_bottom a) (rect_bottom b) - Qmax (rect_top a) (rect_top b)) in *.
  assert (Hw : 0 <= w) by (unfold w; lra).
  assert (Hh : 0 <= h) by (unfold h; lra).
  assert (Hwa : w <= rect_right a - rect_left a) by (unfold w; lra).
  assert (Hwb : w <= rect_right b - rect_left b) by (unfold w; lra).
  assert (Hha : h <= rect_bottom a - rect_top a) by (unfold h; lra).
  assert (Hhb : h <= rect_bottom b - rect_top b) by (unfold h; lra).
  repeat split.
  - apply Qmult_le_0_compat; assumption.
  - apply Qmult_le_compat_nonneg; split; assumption.
  - apply Qmult_le_compat_nonneg; split; assumption.
Qed.

Lemma common_area_comm (a b : bbox_t) : common_area a b == common_area b a.
Proof.
  unfold common_area.
  rewrite (Q.min_comm (rect_right a)), (Q.max_comm (rect_left a)),
    (Q.min_comm (rect_bottom a)), (Q.max_comm (rect_top a)).
  reflexivity.
Qed.

Lemma union_area_comm (a b : bbox_t) : union_area a b == union_area b a.
Proof. unfold union_area. rewrite (common_area_comm a b). ring. Qed.

Lemma iou_comm (a b : bbox_t) : _calculate_iou a b == _calculate_iou b a.
Proof.
  rewrite !iou_unfold.
  rewrite (Qlt_b_compat _ _ (Q.min_comm (rect_right a) (rect_right b))
             _ _ (Q.max_comm (rect_left a) (rect_left b))).
  rewrite (Qlt_b_compat _ _ (Q.min_comm (rect_bottom a) (rect_bottom b))
             _ _ (Q.max_comm (rect_top a) (rect_top b))).
  destruct (_ || _); [reflexivity|].
  rewrite (Qlt_b_compat _ _ (Qeq_refl 0) _ _ (union_area_comm a b)).
  destruct (Qlt_b 0 (union_area b a)); [|reflexivity].
  rewrite (common_area_comm a b), (union_area_comm a b). reflexivity.
Qed.

Lemma iou_self (x : bbox_t) : proper_rect x -> _calculate_iou x x == 1.
Proof.
  intros [Hx Hy]. rewrite iou_unfold.
  assert (Hc : common_area x x == rect_area x).
  { unfold common_area, rect_area.
    rewrite !Q.min_id, !Q.max_id. reflexivity. }
  assert (Hu : union_area x x == rect_area x).
  { unfold union_area. rewrite Hc. ring. }
  assert (Hpos : 0 < rect_area x).
  { unfold rect_area.
    setoid_replace 0 with (0 * (rect_bottom x - rect_top x)) by ring.
    apply Qmult_lt_compat_r; lra. }
  rewrite (Qlt_b_compat _ _ (Q.min_id (rect_right x)) _ _ (Q.max_id (rect_left x))).
  rewrite (Qlt_b_compat _ _ (Q.min_id (rect_bottom x)) _ _ (Q.max_id (rect_top x))).
  replace (Qlt_b (rect_right x) (rect_left x)) with false
    by (symmetry; apply Qlt_b_false; lra).
  replace (Qlt_b (rect_bottom x) (rect_top x)) with false
    by (symmetry; apply Qlt_b_false; lra).
  simpl.
  replace (Qlt_b 0 (union_area x x)) with true
    by (symmetry; apply Qlt_b_true; rewrite Hu; exact Hpos).
  rewrite Hc, Hu. field. lra.
Qed.

Lemma iou_range (a b : bbox_t) : 0 <= _calculate_iou a b <= 1.
Proof.
  rewrite iou_unfold.
  destruct (Qlt_b (Qmin (rect_right a) (rect_right b)) _) eqn:E1;
    [simpl; lra|].
  destruct (Qlt_b (Qmin (rect_bottom a) (rect_bottom b)) _) eqn:E2;
    [simpl; lra|].
  simpl. apply Qlt_b_false in E1. apply Qlt_b_false in E2.
  destruct (common_area_bounds a b E1 E2) as (H0 & Ha & Hb).
  destruct (Qlt_b 0 (union_area a b)) eqn:E3; [|lra].
  apply Qlt_b_true in E3. split.
  - apply Qle_shift_div_l; [exact E3 | lra].
  - apply Qle_shift_div_r; [exact E3|]. unfold union_area in *. lra.
Qed.

Lemma iou_zero_union (a b : bbox_t) :
  union_area a b == 0 -> _calculate_iou a b == 0.
Proof.
  intros H. rewrite iou_unfold. destruct (_ || _); [reflexivity|].
  replace (Qlt_b 0 (union_area a b)) with false; [reflexivity|].
  symmetry. apply Qlt_b_false. lra.
Qed.

Lemma iou_degenerate (a b : bbox_t) :
  rect_area a == 0 -> _calculate_iou a b == 0.
Proof.
  intros H. rewrite iou_unfold.
  destruct (Qlt_b (Qmin (rect_right a) (rect_right b)) _) eqn:E1;
    [reflexivity|].
  destruct (Qlt_b (Qmin (rect_bottom a) (rect_bottom b)) _) eqn:E2;
    [reflexivity|].
  simpl. apply Qlt_b_false in E1. apply Qlt_b_false in E2.
  destruct (common_area_bounds a b E1 E2) as (H0 & Ha & Hb).
  destruct (Qlt_b 0 (union_area a b)); [|reflexivity].
  assert (Hc : common_area a b == 0) by lra.
  unfold Qdiv. rewrite Hc. ring.
Qed.

(** C6. [_calculate_iou] is symmetric; it is 1 on a box taken with itself
    when the first corner is the top-left one, the third the bottom-right
    one and the area is positive; its value always lies in [0,1]; and it
    is 0 when the two rectangles have no common point, when the area of
    their union is 0, and when one of them has area 0. *)
Theorem calculate_iou_properties :
  (forall a b, _calculate_iou a b == _calculate_iou b a)
  /\ (forall x, proper_rect x -> _calculate_iou x x == 1)
  /\ (forall a b, 0 <= _calculate_iou a b <= 1)
  /\ (forall a b, ~ rects_intersect a b -> _calculate_iou a b == 0)
  /\ (forall a b, union_area a b == 0 -> _calculate_iou a b == 0)
  /\ (forall a b, rect_area a == 0 -> _calculate_iou a b == 0).
Proof.
  split; [exact iou_comm|].
  split; [exact iou_self|].
  split; [exact iou_range|].
  split; [intros a b H; rewrite (iou_disjoint a b H); reflexivity|].
  split; [exact iou_zero_union | exact iou_degenerate].
Qed.

Lemma calculate_iou_properties_witness :
  _calculate_iou (rect 0 0 10 10) (rect 0 0 10 10) == 1
  /\ _calculate_iou (rect 0 0 10 10) (rect 20 20 30 30) == 0
  /\ _calculate_iou (rect 5 5 5 5) (rect 5 5 5 5) == 0
  /\ _calculate_iou (rect 5 0 5 10) (rect 0 0 10 10) == 0.
Proof.
  destruct calculate_iou_properties as (_ & Hself & _ & Hdisj & Hunion & Hdeg).
  split; [apply Hself; split; reflexivity|].
  split.
  - apply Hdisj. intros [p [[[_ H1] _] [[H2 _] _]]].
    unfold rect_left, rect_right in *; simpl in *.
    apply (Qle_not_lt _ _ (Qle_trans _ _ _ H2 H1)). reflexivity.
  - split; [apply Hunion; reflexivity | apply Hdeg; reflexivity].
Defined.

Lemma bbox_envelope (b : bbox_t) (p : point) :
  In p (points b) ->
  bbox_x_min b <= fst p <= bbox_x_max b /\ bbox_y_min b <= snd p <= bbox_y_max b.
Proof.
  intros Hp. unfold bbox_x_min, bbox_x_max, bbox_y_min, bbox_y_max.
  assert (Hx : In (fst p) (map fst (points b))) by (apply in_map; exact Hp).
  assert (Hy : In (snd p) (map snd (points b))) by (apply in_map; exact Hp).
  repeat split.
  - apply min_ne_lower. exact Hx.
  - apply max_ne_upper. exact Hx.
  - apply min_ne_lower. exact Hy.
  - apply max_ne_upper. exact Hy.
Qed.

Lemma bbox_envelope_in_image (w h : Q) (b : bbox_t) :
  in_image w h b ->
  (0 <= bbox_x_min b /\ bbox_x_max b <= w)
  /\ (0 <= bbox_y_min b /\ bbox_y_max b <= h).
Proof.
  intros H. unfold in_image in H. rewrite Forall_forall in H.
  unfold bbox_x_min, bbox_x_max, bbox_y_min, bbox_y_max.
  repeat split.
  - apply min_ne_greatest. intros v Hv.
    change (In v (map fst (points b))) in Hv. apply in_map_iff in Hv.
    destruct Hv as [p [<- Hp]]. apply (H p Hp).
  - apply max_ne_least. intros v Hv.
    change (In v (map fst (points b))) in Hv. apply in_map_iff in Hv.
    destruct Hv as [p [<- Hp]]. apply (H p Hp).
  - apply min_ne_greatest. intros v Hv.
    change (In v (map snd (points b))) in Hv. apply in_map_iff in Hv.
    destruct Hv as [p [<- Hp]]. apply (H p Hp).
  - apply max_ne_least. intros v Hv.
    change (In v (map snd (points b))) in Hv. apply in_map_iff in Hv.
    destruct Hv as [p [<- Hp]]. apply (H p Hp).
Qed.

(** C7, as stated, fails: a box to the right of a 100 x 100 image is
    expanded to a box whose left side, at x = 970, is outside the image
    and to the right of its right side, at x = 100: the corner called
    top-left is the top-right one. *)
Lemma expand_bbox_leaves_image :
  ~ in_image 100 100 (_expand_bbox 100 100 (rect 1000 10 1100 30) 30 25)
  /\ ~ corners_in_order (_expand_bbox 100 100 (rect 1000 10 1100 30) 30 25)
  /\ _expand_bbox 100 100 (rect 1000 10 1100 30) 30 25 = rect 970 0 100 55.
Proof.
  split; [|split].
  - intros H. unfold in_image in H. apply Forall_inv in H.
    destruct H as [[_ H] _]. vm_compute in H. apply H. reflexivity.
  - intros (l & t & r & bt & Heq & Hlr & _).
    pose proof (f_equal rect_left Heq) as E1.
    pose proof (f_equal rect_right Heq) as E3.
    change (970 = l) in E1. change (100 = r) in E3. subst l r.
    apply (Qlt_not_le _ _ (eq_refl : 100 < 970)). exact Hlr.
  - reflexivity.
Qed.

(** The sides of the expanded box: the clamp of the left side is the
    least number that is at least 0 and at least the moved side, the
    clamp of the right side the greatest that is at most the width and
    at most the moved side. *)
Lemma clamp_sides (size lo hi : Q) :
  let l := Qmax 0 lo in
  let r := Qmin size hi in
  (0 <= l /\ lo <= l /\ forall x, 0 <= x -> lo <= x -> l <= x)
  /\ (r <= size /\ r <= hi /\ forall x, x <= size -> x <= hi -> x <= r).
Proof.
  intros l r. repeat split.
  - apply Q.le_max_l.
  - apply Q.le_max_r.
  - intros x H0 H1. apply Q.max_lub; assumption.
  - apply Q.le_min_l.
  - apply Q.le_min_r.
  - intros x H0 H1. apply Q.min_glb; assumption.
Qed.

(** C7, amended.  [_expand_bbox] returns the axis-aligned box with the
    corners [(l, t)], [(r, t)], [(r, b)], [(l, b)], whose left and top
    sides [l], [t] are those of the envelope moved outward by the
    margins and clamped below at 0 only, and whose right and bottom
    sides [r], [b] are those of the envelope moved outward and clamped
    above at the image width and height only.  These corners are in the
    order top-left, top-right, bottom-right, bottom-left exactly when
    the envelope, moved outward by the margins, has a point in the
    image, and then every coordinate of the result lies in the image.
    For margins that are not negative, every coordinate of the result
    lies in the image exactly under the same condition, which holds as
    soon as one corner of the input box lies in the image; and the
    result covers exactly those corners of the input box that lie in
    the image. *)
Theorem expand_bbox_spec (w h : Q) (b : bbox_t) (ex ey : Q) :
  let l := Qmax 0 (bbox_x_min b - ex) in
  let t := Qmax 0 (bbox_y_min b - ey) in
  let r := Qmin w (bbox_x_max b + ex) in
  let bt := Qmin h (bbox_y_max b + ey) in
  let expanded := _expand_bbox w h b ex ey in
  expanded = rect l t r bt
  /\ (0 <= l /\ 0 <= t /\ r <= w /\ bt <= h)
  /\ (corners_in_order expanded <-> grown_meets_image w h b ex ey)
  /\ (corners_in_order expanded -> in_image w h expanded)
  /\ (0 <= ex -> 0 <= ey ->
      (in_image w h expanded <-> grown_meets_image w h b ex ey)
      /\ ((exists p, In p (points b) /\ in_image_point w h p) ->
          grown_meets_image w h b ex ey)
      /\ (forall p, In p (points b) ->
                    (in_rect p expanded <-> in_image_point w h p))).
Proof.
  intros l t r bt expanded.
  destruct (clamp_sides w (bbox_x_min b - ex) (bbox_x_max b + ex))
    as [(Hl0 & Hl1 & Hl2) (Hr0 & Hr1 & Hr2)].
  destruct (clamp_sides h (bbox_y_min b - ey) (bbox_y_max b + ey))
    as [(Ht0 & Ht1 & Ht2) (Hb0 & Hb1 & Hb2)].
  fold l r in Hl0, Hl1, Hl2, Hr0, Hr1, Hr2.
  fold t bt in Ht0, Ht1, Ht2, Hb0, Hb1, Hb2.
  assert (Heq : expanded = rect l t r bt) by reflexivity.
  assert (Hord : corners_in_order expanded <-> l <= r /\ t <= bt).
  { split.
    - intros (l' & t' & r' & bt' & E & Hlr & Htb).
      pose proof (f_equal rect_left E) as E1.
      pose proof (f_equal rect_top E) as E2.
      pose proof (f_equal rect_right E) as E3.
      pose proof (f_equal rect_bottom E) as E4.
      change (l = l') in E1. change (t = t') in E2.
      change (r = r') in E3. change (bt = bt') in E4.
      subst l' t' r' bt'. split; assumption.
    - intros [Hlr Htb]. exists l, t, r, bt. repeat split; assumption. }
  assert (Hmeet : grown_meets_image w h b ex ey <-> l <= r /\ t <= bt).
  { split.
    - intros (x & y & [Hx0 Hx1] & [Hy0 Hy1] & [Hx2 Hx3] & [Hy2 Hy3]).
      simpl in Hx2, Hx3, Hy2, Hy3. split.
      + apply Qle_trans with x; [apply Hl2 | apply Hr2]; assumption.
      + apply Qle_trans with y; [apply Ht2 | apply Hb2]; assumption.
    - intros [Hlr Htb]. exists l, t. unfold in_image_point. simpl.
      repeat split; try assumption; lra. }
  assert (Himg : in_image w h expanded
                 <-> (l <= w /\ 0 <= r) /\ (t <= h /\ 0 <= bt)).
  { rewrite Heq. unfold in_image, rect, points. cbn [pt0 pt1 pt2 pt3]. split.
    - intros H. inversion H as [|? ? [[_ H1] [_ H2]] H']; subst.
      inversion H' as [|? ? _ H'']; subst.
      inversion H'' as [|? ? [[H3 _] [H4 _]] _]; subst.
      simpl in *. repeat split; assumption.
    - intros [[H1 H2] [H3 H4]].
      repeat constructor; simpl; assumption. }
  split; [exact Heq|].
  split; [repeat split; assumption|].
  split; [rewrite Hord, Hmeet; reflexivity|].
  split.
  { rewrite Hord, Himg. intros [Hlr Htb]. repeat split; lra. }
  intros Hex Hey.
  pose proof (bbox_envelope b (pt0 b) (or_introl eq_refl)) as [[Hxa Hxb] [Hya Hyb]].
  split; [|split].
  - rewrite Himg, Hmeet. split.
    + intros [[H1 H2] [H3 H4]]. split.
      * apply Hr2; [lra | apply Hl2; lra].
      * apply Hb2; [lra | apply Ht2; lra].
    + intros [Hlr Htb]. repeat split; lra.
  - intros [p [Hp [[Hp0 Hp1] [Hp2 Hp3]]]].
    destruct (bbox_envelope b p Hp) as [[H1 H2] [H3 H4]].
    exists (fst p), (snd p). unfold in_image_point. simpl.
    repeat split; try assumption; lra.
  - intros p Hp. destruct (bbox_envelope b p Hp) as [[H1 H2] [H3 H4]].
    rewrite Heq.
    unfold in_rect, rect_left, rect_right, rect_top, rect_bottom,
      in_image_point, rect.
    cbn [pt0 pt2 fst snd]. split.
    + intros [[Ha Hb'] [Hc Hd]]. repeat split; lra.
    + intros [[Ha Hb'] [Hc Hd]]. repeat split.
      * apply Hl2; lra.
      * apply Hr2; lra.
      * apply Ht2; lra.
      * apply Hb2; lra.
Qed.

Lemma expand_bbox_spec_witness :
  in_image 100 100 (_expand_bbox 100 100 (rect 80 10 105 30) 30 25)
  /\ corners_in_order (_expand_bbox 100 100 (rect 80 10 105 30) 30 25).
Proof.
  pose proof (expand_bbox_spec 100 100 (rect 80 10 105 30) 30 25)
    as (_ & _ & Hord & _ & Hpos).
  destruct Hpos as (Himg & Hcorner & _); [discriminate | discriminate |].
  assert (Hmeet : grown_meets_image 100 100 (rect 80 10 105 30) 30 25).
  { apply Hcorner. exists (80, 10). split; [left; reflexivity|].
    repeat split; discriminate. }
  split; [apply Himg | apply Hord]; exact Hmeet.
Defined.

(* ================================================================= *)
(** ** Stable sorting *)

Section SortFacts.
Context {A : Type} (lt : A -> A -> bool).

Lemma insert_sorted_perm (x : A) (l : list A) :
  Permutation (insert_sorted lt x l) (x :: l).
Proof.
  induction l as [|y l IH]; simpl; [reflexivity|].
  destruct (lt y x); [|reflexivity].
  rewrite IH. apply perm_swap.
Qed.

Lemma py_sort_perm (l : list A) : Permutation (py_sort lt l) l.
Proof.
  induction l as [|x l IH]; simpl; [reflexivity|].
  rewrite insert_sorted_perm. constructor. exact IH.
Qed.

Lemma py_sort_len (l : list A) : len (py_sort lt l) = len l.
Proof. apply Permutation_length, py_sort_perm. Qed.

(** Elements of one class of keys, none of which is below another, keep
    their order. *)
Lemma insert_sorted_stable (P : A -> bool) (x : A) (l : list A) :
  (forall a b, P a = true -> P b = true -> lt a b = false) ->
  filter P (insert_sorted lt x l) = filter P (x :: l).
Proof.
  intros HP. induction l as [|y l IH]; [reflexivity|].
  simpl insert_sorted. destruct (lt y x) eqn:E; [|reflexivity].
  simpl. simpl in IH. rewrite IH.
  destruct (P y) eqn:Py, (P x) eqn:Px; try reflexivity.
  rewrite (HP y x Py Px) in E. discriminate.
Qed.

Lemma py_sort_stable (P : A -> bool) (l : list A) :
  (forall a b, P a = true -> P b = true -> lt a b = false) ->
  filter P (py_sort lt l) = filter P l.
Proof.
  intros HP. induction l as [|x l IH]; [reflexivity|].
  simpl py_sort. rewrite insert_sorted_stable by exact HP.
  simpl. rewrite IH. reflexivity.
Qed.

Hypothesis lt_asym : forall a b, lt a b = true -> lt b a = false.
Hypothesis ge_trans :
  forall a b c, lt b a = false -> lt c b = false -> lt c a = false.

Lemma insert_sorted_sorted (x : A) (l : list A) :
  StronglySorted (fun a b => lt b a = false) l ->
  StronglySorted (fun a b => lt b a = false) (insert_sorted lt x l).
Proof.
  induction 1 as [|y l Hs IH Hall]; simpl.
  - repeat constructor.
  - destruct (lt y x) eqn:E.
    + constructor; [exact IH|].
      apply (Permutation_Forall (Permutation_sym (insert_sorted_perm x l))).
      constructor; [apply lt_asym; exact E | exact Hall].
    + constructor; [constructor; assumption|].
      constructor; [exact E|].
      rewrite Forall_forall in *. intros z Hz.
      apply (ge_trans x y z E (Hall z Hz)).
Qed.

Lemma py_sort_sorted (l : list A) :
  StronglySorted (fun a b => lt b a = false) (py_sort lt l).
Proof.
  induction l as [|x l IH]; simpl; [constructor|].
  apply insert_sorted_sorted. exact IH.
Qed.
End SortFacts.

Lemma subseq_refl {A : Type} (l : list A) : subseq l l.
Proof. induction l; constructor; assumption. Qed.

Lemma subseq_nil_l {A : Type} (l : list A) : subseq [] l.
Proof. induction l; constructor; assumption. Qed.

Lemma subseq_len {A : Type} (l1 l2 : list A) :
  subseq l1 l2 -> (len l1 <= len l2)%nat.
Proof. unfold len. induction 1; simpl; lia. Qed.

Lemma subseq_In {A : Type} (l1 l2 : list A) (x : A) :
  subseq l1 l2 -> In x l1 -> In x l2.
Proof.
  induction 1; simpl; intros Hx; auto. destruct Hx; auto.
Qed.

Lemma subseq_sorted {A : Type} (R : A -> A -> Prop) (l1 l2 : list A) :
  subseq l1 l2 -> StronglySorted R l2 -> StronglySorted R l1.
Proof.
  induction 1 as [|x l1 l2 Hs IH|x l1 l2 Hs IH]; intros Hsort.
  - constructor.
  - inversion Hsort; subst. auto.
  - inversion Hsort as [|? ? Hs2 Hall]; subst. constructor; [auto|].
    rewrite Forall_forall in *. intros y Hy. apply Hall.
    eapply subseq_In; eassumption.
Qed.

Lemma sorted_weaken {A : Type} (R R' : A -> A -> Prop) (l : list A) :
  (forall a b, R a b -> R' a b) -> StronglySorted R l -> StronglySorted R' l.
Proof.
  intros HR. induction 1 as [|x l Hs IH Hall]; constructor; [exact IH|].
  eapply Forall_impl; [|exact Hall]. intros b. apply HR.
Qed.

Lemma ForallOrdPairs_snoc {A : Type} (R : A -> A -> Prop) (l : list A) (x : A) :
  ForallOrdPairs R l -> Forall (fun u => R u x) l ->
  ForallOrdPairs R (l ++ [x]).
Proof.
  induction 1 as [|y l Hy Hl IH]; simpl; intros Hall.
  - repeat constructor.
  - inversion Hall; subst. constructor; [|auto].
    apply Forall_app. split; [exact Hy | repeat constructor; assumption].
Qed.

(* ================================================================= *)
(** ** Duplicate eliminator *)

Lemma sort_by_confidence_perm (results : list result) :
  Permutation (sort_by_confidence results) results.
Proof. apply py_sort_perm. Qed.

Lemma sort_by_confidence_descending (results : list result) :
  confidence_descending (sort_by_confidence results).
Proof.
  unfold confidence_descending, sort_by_confidence.
  eapply sorted_weaken;
    [| apply (py_sort_sorted (fun a b => Qlt_b (confidence b) (confidence a)))].
  - intros a b H. simpl in H. apply Qlt_b_false in H. exact H.
  - intros a b H. apply Qlt_b_true in H. apply Qlt_b_false. lra.
  - intros a b c H1 H2. apply Qlt_b_false in H1, H2. apply Qlt_b_false. lra.
Qed.

Lemma sort_by_confidence_stable (results : list result) :
  same_order_of_ties (sort_by_confidence results) results.
Proof.
  intros c. apply py_sort_stable. intros a b Ha Hb.
  apply Qeq_bool_iff in Ha, Hb. apply Qlt_b_false. lra.
Qed.

Lemma similar_iff (thr : Q) (r u : result) :
  similar thr r u = true <->
  thr < text_similarity (text r) (text u)
  \/ 1 # 2 < _calculate_iou (bbox r) (bbox u).
Proof. unfold similar. rewrite orb_true_iff, !Qlt_b_true. reflexivity. Qed.

Lemma dedup_loop_app (thr : Q) (l1 l2 acc : list result) :
  dedup_loop thr (l1 ++ l2) acc = dedup_loop thr l2 (dedup_loop thr l1 acc).
Proof.
  revert acc. induction l1 as [|r l1 IH]; intros acc; simpl; [reflexivity|].
  destruct (existsb (similar thr r) acc); apply IH.
Qed.

Lemma dedup_loop_snoc (thr : Q) (pre : list result) (r : result) :
  let accepted := dedup_loop thr pre [] in
  (Forall (fun u => similar thr r u = false) accepted
   /\ dedup_loop thr (pre ++ [r]) [] = accepted ++ [r])
  \/ (Exists (fun u => similar thr r u = true) accepted
      /\ dedup_loop thr (pre ++ [r]) [] = accepted).
Proof.
  intros accepted. rewrite dedup_loop_app. fold accepted. simpl.
  destruct (existsb (similar thr r) accepted) eqn:E.
  - right. split; [|reflexivity].
    apply existsb_exists in E. apply Exists_exists. exact E.
  - left. split; [|reflexivity].
    apply Forall_forall. intros u Hu.
    destruct (similar thr r u) eqn:Es; [|reflexivity].
    assert (existsb (similar thr r) accepted = true)
      by (apply existsb_exists; eauto).
    congruence.
Qed.

(** The loop extends its accumulator by a subsequence of the records it
    scans. *)
Lemma dedup_loop_extends (thr : Q) (l acc : list result) :
  exists ext, dedup_loop thr l acc = acc ++ ext /\ subseq ext l.
Proof.
  revert acc. induction l as [|r l IH]; intros acc; simpl.
  - exists []. rewrite app_nil_r. split; [reflexivity | constructor].
  - destruct (existsb (similar thr r) acc).
    + destruct (IH acc) as [ext [-> Hs]]. exists ext.
      split; [reflexivity | constructor; exact Hs].
    + destruct (IH (acc ++ [r])) as [ext [-> Hs]]. exists (r :: ext).
      rewrite <- app_assoc. split; [reflexivity | constructor; exact Hs].
Qed.

Lemma dedup_loop_subseq (thr : Q) (l : list result) :
  subseq (dedup_loop thr l []) l.
Proof.
  destruct (dedup_loop_extends thr l []) as [ext [-> Hs]]. exact Hs.
Qed.

Lemma dedup_loop_distinct (thr : Q) (l acc : list result) :
  pairwise_distinct thr acc -> pairwise_distinct thr (dedup_loop thr l acc).
Proof.
  unfold pairwise_distinct.
  revert acc. induction l as [|r l IH]; intros acc Hacc; simpl; [exact Hacc|].
  destruct (existsb (similar thr r) acc) eqn:E; [apply IH; exact Hacc|].
  apply IH. apply ForallOrdPairs_snoc; [exact Hacc|].
  apply Forall_forall. intros u Hu.
  destruct (similar thr r u) eqn:Es; [|reflexivity].
  assert (existsb (similar thr r) acc = true) by (apply existsb_exists; eauto).
  congruence.
Qed.

(** A record of a descending list is accepted, or it is similar to an
    accepted record that comes before it. *)
Lemma dedup_loop_represented (thr : Q) (sorted : list result) :
  confidence_descending sorted ->
  forall r, In r sorted ->
    In r (dedup_loop thr sorted [])
    \/ exists u, In u (dedup_loop thr sorted [])
                 /\ confidence r <= confidence u
                 /\ similar thr r u = true.
Proof.
  intros Hsort r Hr.
  destruct (in_split r sorted Hr) as [pre [post Heq]].
  assert (Hfinal : forall u, In u (dedup_loop thr (pre ++ [r]) []) ->
                             In u (dedup_loop thr sorted [])).
  { intros u Hu. rewrite Heq.
    change (pre ++ r :: post) with (pre ++ [r] ++ post).
    rewrite app_assoc, dedup_loop_app.
    destruct (dedup_loop_extends thr post (dedup_loop thr (pre ++ [r]) []))
      as [ext [-> _]].
    apply in_or_app. left. exact Hu. }
  destruct (dedup_loop_snoc thr pre r) as [[_ Hacc] | [Hex Hacc]].
  - left. apply Hfinal. rewrite Hacc. apply in_or_app. right. left. reflexivity.
  - right. apply Exists_exists in Hex. destruct Hex as [u [Hu Hsim]].
    exists u. split; [|split; [|exact Hsim]].
    + apply Hfinal. rewrite Hacc. exact Hu.
    + assert (Hpre : In u pre)
        by (eapply subseq_In; [apply dedup_loop_subseq | exact Hu]).
      unfold confidence_descending in Hsort. rewrite Heq in Hsort.
      clear - Hsort Hpre. induction pre as [|x pre IH]; [destruct Hpre|].
      simpl in Hsort. inversion Hsort as [|? ? Hs Hall]; subst.
      destruct Hpre as [-> | Hpre]; [|auto].
      rewrite Forall_forall in Hall. apply Hall.
      apply in_or_app. right. left. reflexivity.
Qed.

(** C5. [_remove_duplicate_cases] sorts the records by confidence,
    descending, records of equal confidence keeping their order; it scans
    the sorted list and accepts a record exactly when no record accepted
    before it has a text similarity above the threshold or an IoU above
    0.5; its result is the list of accepted records in the order of
    acceptance, hence descending in confidence.  No two records of the
    result are similar, and every input record is in the result or is
    similar to a record of the result whose confidence is at least its
    own; the first record of the sorted list is always kept. *)
Theorem remove_duplicate_cases_spec (results : list result) (thr : Q) :
  let sorted := sort_by_confidence results in
  let out := _remove_duplicate_cases results thr in
  (Permutation sorted results
   /\ confidence_descending sorted
   /\ same_order_of_ties sorted results)
  /\ (forall r u, similar thr r u = true <->
        thr < text_similarity (text r) (text u)
        \/ 1 # 2 < _calculate_iou (bbox r) (bbox u))
  /\ (out = dedup_loop thr sorted []
      /\ dedup_loop thr [] [] = []
      /\ forall pre r post, sorted = pre ++ r :: post ->
           let accepted := dedup_loop thr pre [] in
           (Forall (fun u => similar thr r u = false) accepted
            /\ dedup_loop thr (pre ++ [r]) [] = accepted ++ [r])
           \/ (Exists (fun u => similar thr r u = true) accepted
               /\ dedup_loop thr (pre ++ [r]) [] = accepted))
  /\ (subseq out sorted /\ confidence_descending out)
  /\ pairwise_distinct thr out
  /\ (forall r, In r results ->
        In r out
        \/ exists u, In u out /\ confidence r <= confidence u
                     /\ similar thr r u = true)
  /\ (forall r, hd_error sorted = Some r -> hd_error out = Some r).
Proof.
  intros sorted out.
  assert (Hout : out = dedup_loop thr sorted []).
  { unfold out, sorted, _remove_duplicate_cases.
    destruct results; reflexivity. }
  split.
  { split; [apply sort_by_confidence_perm|].
    split; [apply sort_by_confidence_descending
           | apply sort_by_confidence_stable]. }
  split; [apply similar_iff|].
  split.
  { split; [exact Hout|]. split; [reflexivity|].
    intros pre r post _. apply dedup_loop_snoc. }
  split.
  { rewrite Hout. split; [apply dedup_loop_subseq|].
    eapply subseq_sorted;
      [apply dedup_loop_subseq | apply sort_by_confidence_descending]. }
  split.
  { rewrite Hout. apply dedup_loop_distinct. constructor. }
  split.
  { intros r Hr. rewrite Hout.
    apply dedup_loop_represented; [apply sort_by_confidence_descending|].
    apply (Permutation_in r (Permutation_sym (sort_by_confidence_perm results))).
    exact Hr. }
  intros r Hr. rewrite Hout.
  destruct sorted as [|x rest]; [discriminate|].
  simpl in Hr. injection Hr as ->. simpl.
  destruct (dedup_loop_extends thr rest [r]) as [ext [-> _]]. reflexivity.
Qed.

Lemma remove_duplicate_cases_spec_witness :
  let results :=
    [ example_record 300 300 400 320 "Crear pedido" (6 # 10);
      example_record 10 10 50 20 "Actor1" (9 # 10);
      example_record 12 10 52 20 "Actor1" (85 # 100) ] in
  hd_error (_remove_duplicate_cases results (7 # 10))
  = Some (example_record 10 10 50 20 "Actor1" (9 # 10))
  /\ (In (example_record 12 10 52 20 "Actor1" (85 # 100))
         (_remove_duplicate_cases results (7 # 10))
      \/ exists u,
           In u (_remove_duplicate_cases results (7 # 10))
           /\ 85 # 100 <= confidence u
           /\ similar (7 # 10)
                (example_record 12 10 52 20 "Actor1" (85 # 100)) u = true).
Proof.
  intros results.
  destruct (remove_duplicate_cases_spec results (7 # 10))
    as (_ & _ & _ & _ & _ & Hrep & Hhd).
  split.
  - apply Hhd. reflexivity.
  - apply Hrep. right. right. left. reflexivity.
Defined.

Lemma blank_iff (t : str) : blank t <-> strip (lower t) = [].
Proof.
  unfold blank. rewrite strip_lower, <- strip_nil_iff. unfold lower. split.
  - intros ->. reflexivity.
  - intros H. destruct (strip t); [reflexivity | discriminate].
Qed.

Lemma text_similarity_blank (t1 t2 : str) :
  strip (lower t1) = [] \/ strip (lower t2) = [] -> text_similarity t1 t2 = 1.
Proof.
  intros H. unfold text_similarity.
  replace (contains (strip (lower t1)) (strip (lower t2))
           || contains (strip (lower t2)) (strip (lower t1))) with true;
    [reflexivity|].
  symmetry. apply orb_true_iff.
  destruct H as [-> | ->]; [left | right]; apply contains_nil.
Qed.

Lemma word_sets_not_empty (t1 t2 : str) :
  contains (strip (lower t1)) (strip (lower t2))
  || contains (strip (lower t2)) (strip (lower t1)) = false ->
  str_set (split (strip (lower t1))) <> []
  /\ str_set (split (strip (lower t2))) <> [].
Proof.
  intros H. apply orb_false_iff in H. destruct H as [H1 H2].
  split; intros Hn; apply str_set_nil, split_strip_nil in Hn;
    rewrite Hn in *; rewrite contains_nil in *; discriminate.
Qed.

Lemma similar_blank (thr : Q) (r u : result) :
  thr < 1 -> blank (text r) -> similar thr r u = true.
Proof.
  intros Hthr Hb. unfold similar.
  rewrite text_similarity_blank by (left; apply blank_iff; exact Hb).
  apply orb_true_iff. left. apply Qlt_b_true. exact Hthr.
Qed.

(** C10. When one of its arguments trims to the empty string,
    [text_similarity] returns 1 (the empty string is contained in every
    string); so where the containment test fails neither set of words is
    empty, and the branch returning 0 cannot be taken.  For a threshold
    below 1, such as the 0.7 of [run_ocr] and the default 0.8, a record
    whose text is blank is similar to every record, and the scan drops it
    as soon as one record has been accepted. *)
Theorem text_similarity_blank_text :
  (forall t1 t2,
     strip (lower t1) = [] \/ strip (lower t2) = [] ->
     text_similarity t1 t2 = 1)
  /\ (forall t1 t2,
        contains (strip (lower t1)) (strip (lower t2))
        || contains (strip (lower t2)) (strip (lower t1)) = false ->
        str_set (split (strip (lower t1))) <> []
        /\ str_set (split (strip (lower t2))) <> [])
  /\ (forall t, blank t <-> strip (lower t) = [])
  /\ (forall thr r u, thr < 1 -> blank (text r) -> similar thr r u = true)
  /\ (forall r u, blank (text r) ->
        similar (7 # 10) r u = true /\ similar (8 # 10) r u = true)
  /\ (forall thr r rest u accepted,
        thr < 1 -> blank (text r) ->
        dedup_loop thr (r :: rest) (u :: accepted)
        = dedup_loop thr rest (u :: accepted)).
Proof.
  split; [exact text_similarity_blank|].
  split; [exact word_sets_not_empty|].
  split; [exact blank_iff|].
  split; [exact similar_blank|].
  split.
  { intros r u Hb. split; apply similar_blank; try exact Hb; reflexivity. }
  intros thr r rest u accepted Hthr Hb. simpl.
  rewrite (similar_blank thr r u Hthr Hb). reflexivity.
Qed.

Lemma text_similarity_blank_text_witness :
  text_similarity (lit "  ") (lit "Crear pedido") = 1
  /\ similar (7 # 10) (example_record 0 0 10 10 "  " (9 # 10))
       (example_record 300 300 400 320 "Crear pedido" (6 # 10)) = true
  /\ dedup_loop (7 # 10)
       [example_record 0 0 10 10 "  " (5 # 10)]
       [example_record 300 300 400 320 "Crear pedido" (6 # 10)]
     = [example_record 300 300 400 320 "Crear pedido" (6 # 10)].
Proof.
  destruct text_similarity_blank_text as (H1 & _ & _ & H4 & _ & H6).
  split; [apply H1; left; reflexivity|].
  split; [apply H4; reflexivity|].
  apply (H6 (7 # 10) _ [] _ []); reflexivity.
Defined.

(* ================================================================= *)
(** ** Fragment merger: the groups *)

Lemma enumerate_fst {A : Type} (l : list A) :
  map fst (enumerate l) = seq 0 (len l).
Proof.
  unfold enumerate, len. generalize 0%nat.
  induction l as [|x l IH]; intros n; simpl; [reflexivity|].
  rewrite IH. reflexivity.
Qed.

Lemma enumerate_snd {A : Type} (l : list A) : map snd (enumerate l) = l.
Proof.
  unfold enumerate, len. generalize 0%nat.
  induction l as [|x l IH]; intros n; simpl; [reflexivity|].
  rewrite IH. reflexivity.
Qed.

Lemma unused_empty (todo : list (nat * prepared)) :
  unused (empty_set nat) todo = map snd todo.
Proof.
  induction todo as [|[i r] todo IH]; [reflexivity|].
  unfold unused in *. cbn [filter fst].
  change (set_mem Nat.eq_dec i (empty_set nat)) with false.
  cbn [negb map snd]. rewrite IH. reflexivity.
Qed.

Lemma mem_true (i : nat) (used : set nat) :
  set_mem Nat.eq_dec i used = true <-> set_In i used.
Proof.
  split; [apply set_mem_correct1 | apply set_mem_correct2].
Qed.

Lemma mem_false (i : nat) (used : set nat) :
  set_mem Nat.eq_dec i used = false <-> ~ set_In i used.
Proof.
  split; [apply set_mem_complete1 | apply set_mem_complete2].
Qed.

Lemma add_iff (k i : nat) (used : set nat) :
  set_In k (set_add Nat.eq_dec i used) <-> k = i \/ set_In k used.
Proof.
  split; [apply set_add_elim|].
  intros [-> | H]; [apply set_add_intro2; reflexivity | apply set_add_intro1; exact H].
Qed.

Lemma unused_add (i : nat) (used : set nat) (todo : list (nat * prepared)) :
  ~ In i (map fst todo) ->
  unused (set_add Nat.eq_dec i used) todo = unused used todo.
Proof.
  unfold unused. intros Hi. f_equal. apply filter_ext_in.
  intros [j r] Hj. simpl. f_equal.
  destruct (set_mem Nat.eq_dec j used) eqn:E.
  - apply mem_true, add_iff. right. apply mem_true. exact E.
  - apply mem_false. intros Hin. apply add_iff in Hin.
    destruct Hin as [-> | Hin].
    + apply Hi. apply in_map_iff. exists (i, r). auto.
    + apply mem_false in E. contradiction.
Qed.

Lemma unused_cons_in (i : nat) (r : prepared) (used : set nat)
    (todo : list (nat * prepared)) :
  set_In i used -> unused used ((i, r) :: todo) = unused used todo.
Proof.
  intros H. unfold unused. simpl.
  rewrite (proj2 (mem_true i used) H). reflexivity.
Qed.

Lemma unused_cons_out (i : nat) (r : prepared) (used : set nat)
    (todo : list (nat * prepared)) :
  ~ set_In i used -> unused used ((i, r) :: todo) = r :: unused used todo.
Proof.
  intros H. unfold unused. simpl.
  rewrite (proj2 (mem_false i used) H). reflexivity.
Qed.

(** The inner loop appends to the group the records it takes, marks them,
    and marks nothing else. *)
Lemma inner_loop_takes (thr : Q) (ri : prepared) (later : list (nat * prepared)) :
  forall group used group' used',
    NoDup (map fst later) ->
    inner_loop thr ri later group used = Ok (group', used') ->
    (exists taken, group' = group ++ taken
       /\ Permutation (taken ++ unused used' later) (unused used later))
    /\ (forall k, set_In k used -> set_In k used')
    /\ (forall k, set_In k used' -> set_In k used \/ In k (map fst later)).
Proof.
  induction later as [|[j rj] later IH]; intros group used group' used' Hnd H.
  - simpl in H. injection H as <- <-. split; [|split; auto].
    exists []. rewrite app_nil_r. split; reflexivity.
  - simpl in Hnd. inversion Hnd as [|? ? Hj Hnd']; subst.
    simpl in H. destruct (set_mem Nat.eq_dec j used) eqn:Emem.
    + apply mem_true in Emem.
      destruct (IH _ _ _ _ Hnd' H) as ((taken & Hg & Hp) & Hmono & Hsub).
      split; [|split].
      * exists taken. split; [exact Hg|].
        rewrite !unused_cons_in by auto. exact Hp.
      * exact Hmono.
      * intros k Hk. destruct (Hsub k Hk); simpl; auto.
    + apply mem_false in Emem.
      destruct (should_merge thr ri rj) as [[|]|] eqn:Em; simpl in H;
        [| |discriminate].
      * destruct (IH _ _ _ _ Hnd' H) as ((taken & Hg & Hp) & Hmono & Hsub).
        assert (Hjused : set_In j used')
          by (apply Hmono, add_iff; left; reflexivity).
        split; [|split].
        -- exists (rj :: taken). split.
           ++ rewrite Hg, <- app_assoc. reflexivity.
           ++ rewrite unused_cons_in by exact Hjused.
              rewrite unused_cons_out by exact Emem.
              rewrite unused_add in Hp by exact Hj.
              simpl. constructor. exact Hp.
        -- intros k Hk. apply Hmono, add_iff. right. exact Hk.
        -- intros k Hk. destruct (Hsub k Hk) as [Hk' | Hk']; simpl; auto.
           apply add_iff in Hk'. destruct Hk'; auto.
      * destruct (IH _ _ _ _ Hnd' H) as ((taken & Hg & Hp) & Hmono & Hsub).
        assert (Hjused : ~ set_In j used').
        { intros Hk. destruct (Hsub j Hk); contradiction. }
        split; [|split].
        -- exists taken. split; [exact Hg|].
           rewrite !unused_cons_out by assumption.
           rewrite <- Permutation_middle. constructor. exact Hp.
        -- exact Hmono.
        -- intros k Hk. destruct (Hsub k Hk); simpl; auto.
Qed.

(** The outer loop distributes the unmarked records over the groups. *)
Lemma outer_loop_partitions (thr : Q) (todo : list (nat * prepared)) :
  forall groups used out,
    NoDup (map fst todo) ->
    Forall (fun g => g <> []) groups ->
    outer_loop thr todo groups used = Ok out ->
    Permutation (List.concat out) (List.concat groups ++ unused used todo)
    /\ Forall (fun g => g <> []) out.
Proof.
  induction todo as [|[i ri] later IH]; intros groups used out Hnd Hne H.
  - simpl in H. injection H as <-. unfold unused. simpl.
    rewrite app_nil_r. split; [reflexivity | exact Hne].
  - simpl in Hnd. inversion Hnd as [|? ? Hi Hnd']; subst.
    simpl in H. destruct (set_mem Nat.eq_dec i used) eqn:Emem.
    + apply mem_true in Emem.
      rewrite unused_cons_in by exact Emem. apply IH; assumption.
    + apply mem_false in Emem.
      destruct (inner_loop thr ri later [ri] (set_add Nat.eq_dec i used))
        as [[group used']|] eqn:Einner; simpl in H; [|discriminate].
      destruct (inner_loop_takes _ _ _ _ _ _ _ Hnd' Einner)
        as ((taken & Hg & Hp) & _ & _).
      subst group. simpl in H.
      apply IH in H; [|exact Hnd'|].
      * destruct H as [H Hout]. split; [|exact Hout].
        rewrite H, List.concat_app. simpl. rewrite app_nil_r, <- app_assoc.
        apply Permutation_app_head.
        rewrite unused_cons_out by exact Emem.
        rewrite unused_add in Hp by exact Hi.
        simpl. constructor. exact Hp.
      * apply Forall_app. split; [exact Hne|]. repeat constructor. discriminate.
Qed.

Lemma sorted_results_perm (results : list result) :
  Permutation (sorted_results results) (map prepare (enumerate results)).
Proof. apply py_sort_perm. Qed.

Lemma prepare_id (l : list (nat * result)) : map id (map prepare l) = map fst l.
Proof.
  rewrite map_map. apply map_ext. intros [i r]. reflexivity.
Qed.

Lemma prepare_res (l : list (nat * result)) : map res (map prepare l) = map snd l.
Proof.
  rewrite map_map. apply map_ext. intros [i r]. reflexivity.
Qed.

Lemma build_groups_partition (results : list result) (thr : Q)
    (groups : list (list prepared)) :
  build_groups results thr = Ok groups ->
  Permutation (List.concat groups) (sorted_results results)
  /\ Forall (fun g => g <> []) groups.
Proof.
  unfold build_groups. intros H.
  apply outer_loop_partitions in H.
  - rewrite unused_empty, enumerate_snd in H. exact H.
  - rewrite enumerate_fst. apply seq_NoDup.
  - constructor.
Qed.

(* ================================================================= *)
(** ** Fragment merger: the merged records *)

Lemma merge_group_ok (g : list prepared) :
  g <> [] -> exists m, merge_group g = Ok m.
Proof.
  destruct g as [|r [|r' rs]]; [congruence | |]; intros _; eexists; reflexivity.
Qed.

Lemma merge_group_count (g : list prepared) (m : result) :
  merge_group g = Ok m ->
  Forall (fun r => merged_from (res r) = None) g ->
  merged_count m = len g.
Proof.
  destruct g as [|r [|r' rs]]; simpl; intros H Hnone; [discriminate | |].
  - injection H as <-. inversion Hnone as [|? ? Hr _]; subst.
    unfold merged_count. rewrite Hr. reflexivity.
  - injection H as <-. reflexivity.
Qed.

Lemma merge_groups_each (groups : list (list prepared)) :
  forall acc out,
    merge_groups groups acc = Ok out ->
    exists ext, out = acc ++ ext
                /\ Forall2 (fun g m => merge_group g = Ok m) groups ext.
Proof.
  induction groups as [|g groups IH]; intros acc out H; simpl in H.
  - injection H as <-. exists []. rewrite app_nil_r. split; constructor.
  - destruct (merge_group g) as [m|] eqn:Eg; simpl in H; [|discriminate].
    destruct (IH _ _ H) as [ext [-> Hall]].
    exists (m :: ext). rewrite <- app_assoc. split; [reflexivity|].
    constructor; assumption.
Qed.

Lemma merge_groups_ok (groups : list (list prepared)) :
  Forall (fun g => g <> []) groups ->
  forall acc, exists out, merge_groups groups acc = Ok out.
Proof.
  induction 1 as [|g groups Hg Hall IH]; intros acc; simpl.
  - eexists; reflexivity.
  - destruct (merge_group_ok g Hg) as [m ->]. simpl. apply IH.
Qed.

Lemma merge_similar_boxes_groups (results : list result) (thr : Q)
    (out : list result) :
  _merge_similar_boxes results thr = Ok out ->
  exists groups, build_groups results thr = Ok groups
                 /\ Forall2 (fun g m => merge_group g = Ok m) groups out.
Proof.
  unfold _merge_similar_boxes. destruct results as [|r results].
  - intros H. injection H as <-. exists []. split; [reflexivity | constructor].
  - destruct (build_groups (r :: results) thr) as [groups|]; simpl;
      [|discriminate].
    intros H. apply merge_groups_each in H. destruct H as [ext [-> Hall]].
    exists groups. split; [reflexivity | exact Hall].
Qed.

Lemma groups_total_count (groups : list (list prepared)) (out : list result) :
  Forall2 (fun g m => merge_group g = Ok m) groups out ->
  Forall (fun r => merged_from (res r) = None) (List.concat groups) ->
  total (map merged_count out) = len (List.concat groups).
Proof.
  induction 1 as [|g m groups out Hm Hall IH]; simpl; intros Hnone.
  - reflexivity.
  - apply Forall_app in Hnone. destruct Hnone as [Hg Hrest].
    rewrite (merge_group_count g m Hm Hg), (IH Hrest).
    unfold len. rewrite length_app. reflexivity.
Qed.

Lemma groups_len (groups : list (list prepared)) :
  Forall (fun g => g <> []) groups ->
  (len groups <= len (List.concat groups))%nat.
Proof.
  unfold len. induction 1 as [|g groups Hg Hall IH]; simpl; [lia|].
  rewrite length_app. destruct g; [congruence | simpl; lia].
Qed.

Lemma sorted_results_res (results : list result) :
  Permutation (map res (sorted_results results)) results.
Proof.
  rewrite (Permutation_map res (sorted_results_perm results)).
  rewrite prepare_res, enumerate_snd. reflexivity.
Qed.

Lemma sorted_results_id (results : list result) :
  Permutation (map id (sorted_results results)) (seq 0 (len results)).
Proof.
  rewrite (Permutation_map id (sorted_results_perm results)).
  rewrite prepare_id, enumerate_fst. reflexivity.
Qed.

Lemma sorted_results_len (results : list result) :
  len (sorted_results results) = len results.
Proof.
  unfold len. rewrite <- (Permutation_length (sorted_results_res results)).
  rewrite length_map. reflexivity.
Qed.

Lemma merge_group_cluster_count (g : list prepared) (m : result) :
  merge_group g = Ok m -> cluster_count g m = len g.
Proof.
  destruct g as [|r [|r' rs]]; simpl; intros H; [discriminate | reflexivity|].
  injection H as <-. reflexivity.
Qed.

Lemma cluster_counts_total (groups : list (list prepared)) (out : list result) :
  Forall2 (fun g m => merge_group g = Ok m) groups out ->
  total (cluster_counts groups out) = len (List.concat groups).
Proof.
  induction 1 as [|g m groups out Hm Hall IH]; simpl; [reflexivity|].
  rewrite (merge_group_cluster_count g m Hm), IH.
  unfold len. rewrite length_app. reflexivity.
Qed.

(** C9. The groups built by [_merge_similar_boxes] partition its input:
    the indices of the records in the groups are the indices 0 .. n-1 of
    the input, each once, the records in the groups are those of the
    input, no group is empty, and each group gives one record of the
    result.  So the [merged_from] of the result, with 1 for the records
    that were not merged, add up to the length of the input; on an input
    whose records carry no [merged_from], as [run_ocr] makes them, this
    is the sum of [merged_from] taken as 1 where absent. *)
Theorem merge_similar_boxes_partition (results : list result) (thr : Q) :
  (forall groups,
     build_groups results thr = Ok groups ->
     Permutation (map id (List.concat groups)) (seq 0 (len results))
     /\ NoDup (map id (List.concat groups))
     /\ Permutation (map res (List.concat groups)) results
     /\ Forall (fun g => g <> []) groups
     /\ exists out, _merge_similar_boxes results thr = Ok out
                    /\ Forall2 (fun g m => merge_group g = Ok m) groups out)
  /\ (forall out,
        _merge_similar_boxes results thr = Ok out ->
        exists groups,
          build_groups results thr = Ok groups
          /\ Forall2 (fun g m => merge_group g = Ok m) groups out
          /\ total (cluster_counts groups out) = len results)
  /\ (forall out,
        _merge_similar_boxes results thr = Ok out ->
        Forall (fun r => merged_from r = None) results ->
        total (map merged_count out) = len results).
Proof.
  split; [|split].
  - intros groups Hg.
    destruct (build_groups_partition results thr groups Hg) as [Hp Hne].
    assert (Hid : Permutation (map id (List.concat groups)) (seq 0 (len results))).
    { rewrite (Permutation_map id Hp). apply sorted_results_id. }
    split; [exact Hid|].
    split.
    { apply (Permutation_NoDup (Permutation_sym Hid)), seq_NoDup. }
    split.
    { rewrite (Permutation_map res Hp). apply sorted_results_res. }
    split; [exact Hne|].
    unfold _merge_similar_boxes. destruct results as [|r results].
    + unfold build_groups in Hg. simpl in Hg. injection Hg as <-.
      exists []. split; [reflexivity | constructor].
    + rewrite Hg. simpl.
      destruct (merge_groups_ok groups Hne []) as [out Hout].
      exists out. split; [exact Hout|].
      apply merge_groups_each in Hout. destruct Hout as [ext [-> Hall]].
      exact Hall.
  - intros out Hout.
    destruct (merge_similar_boxes_groups results thr out Hout)
      as [groups [Hg Hall]].
    destruct (build_groups_partition results thr groups Hg) as [Hp Hne].
    exists groups. split; [exact Hg|]. split; [exact Hall|].
    rewrite (cluster_counts_total groups out Hall).
    unfold len. rewrite (Permutation_length Hp).
    apply sorted_results_len.
  - intros out Hout Hnone.
    destruct (merge_similar_boxes_groups results thr out Hout)
      as [groups [Hg Hall]].
    destruct (build_groups_partition results thr groups Hg) as [Hp Hne].
    rewrite (groups_total_count groups out Hall).
    + unfold len. rewrite (Permutation_length Hp).
      apply sorted_results_len.
    + apply Forall_forall. intros p Hin.
      rewrite Forall_forall in Hnone. apply Hnone.
      apply (Permutation_in _ (sorted_results_res results)).
      apply in_map. apply (Permutation_in _ Hp). exact Hin.
Qed.

Lemma Qnat_pos (n : nat) : (0 < n)%nat -> 0 < Qnat n.
Proof.
  intros H. unfold Qnat, Qlt. simpl. lia.
Qed.

(* ================================================================= *)
(** ** Binary64 arithmetic *)

Lemma round_half_even_range (x : Q) :
  (Qfloor x <= round_half_even x <= Qfloor x + 1)%Z.
Proof.
  unfold round_half_even.
  destruct (Qcompare (x - inject_Z (Qfloor x)) (1 # 2)); try lia.
  destruct (Z.even (Qfloor x)); lia.
Qed.

Lemma round_half_even_near (x : Q) :
  x - (1 # 2) <= inject_Z (round_half_even x)
  /\ inject_Z (round_half_even x) <= x + (1 # 2).
Proof.
  pose proof (Qfloor_le x) as Hlo. pose proof (Qlt_floor x) as Hhi.
  rewrite inject_Z_plus in Hhi. change (inject_Z 1) with 1 in Hhi.
  unfold round_half_even.
  destruct (Qcompare_spec (x - inject_Z (Qfloor x)) (1 # 2)) as [He|Hl|Hg].
  - destruct (Z.even (Qfloor x));
      [|rewrite inject_Z_plus; change (inject_Z 1) with 1]; split; lra.
  - split; lra.
  - rewrite inject_Z_plus. change (inject_Z 1) with 1. split; lra.
Qed.

Lemma round_half_even_Z (z : Z) : round_half_even (inject_Z z) = z.
Proof.
  unfold round_half_even. rewrite Qfloor_Z.
  destruct (Qcompare_spec (inject_Z z - inject_Z z) (1 # 2)) as [He|Hl|Hg].
  - exfalso. lra.
  - reflexivity.
  - exfalso. lra.
Qed.

Lemma round_half_even_mono (x y : Q) :
  x <= y -> (round_half_even x <= round_half_even y)%Z.
Proof.
  intros Hxy. pose proof (Qfloor_resp_le x y Hxy) as Hf.
  pose proof (round_half_even_range x) as Hx.
  pose proof (round_half_even_range y) as Hy.
  destruct (Z.eq_dec (Qfloor x) (Qfloor y)) as [E|N]; [|lia].
  unfold round_half_even in *. rewrite <- E in *.
  destruct (Qcompare_spec (x - inject_Z (Qfloor x)) (1 # 2)) as [He|Hl|Hg];
    destruct (Qcompare_spec (y - inject_Z (Qfloor x)) (1 # 2)) as [He'|Hl'|Hg'];
    try lia; exfalso; lra.
Qed.

Lemma pow2_pos (e : Z) : 0 < 2 ^ e.
Proof. apply Qpower_0_lt. reflexivity. Qed.

Lemma pow2_inject (e : Z) : (0 <= e)%Z -> 2 ^ e == inject_Z (2 ^ e).
Proof. intros H. rewrite Zpower_Qpower by exact H. reflexivity. Qed.

Lemma pow2_minus (a b : Z) : 2 ^ (a - b) == 2 ^ a / 2 ^ b.
Proof. apply Qpower_minus. discriminate. Qed.

Lemma pow2_le (a b : Z) : (a <= b)%Z -> 2 ^ a <= 2 ^ b.
Proof. intros H. apply Qpower_le_compat_l; [exact H | discriminate]. Qed.

Lemma pow2_lt_inv (a b : Z) : 2 ^ a < 2 ^ b -> (a < b)%Z.
Proof. intros H. apply (Qpower_lt_compat_l_inv 2); [exact H | reflexivity]. Qed.

Lemma Qlog2_spec (x : Q) :
  0 < x -> 2 ^ Qlog2 x <= x /\ x < 2 ^ (Qlog2 x + 1).
Proof.
  destruct x as [n d]. intros Hpos.
  assert (Hn : (0 < n)%Z) by (unfold Qlt in Hpos; simpl in Hpos; lia).
  unfold Qlog2. cbn [Qnum Qden].
  set (a := Z.log2 n). set (b := Z.log2 (Zpos d)).
  destruct (Z.log2_spec n Hn) as [Ha1 Ha2]. fold a in Ha1, Ha2.
  destruct (Z.log2_spec (Zpos d) eq_refl) as [Hb1 Hb2]. fold b in Hb1, Hb2.
  assert (Ha0 : (0 <= a)%Z) by apply Z.log2_nonneg.
  assert (Hb0 : (0 <= b)%Z) by apply Z.log2_nonneg.
  assert (HA : (0 < 2 ^ a)%Z) by (apply Z.pow_pos_nonneg; lia).
  assert (HB : (0 < 2 ^ b)%Z) by (apply Z.pow_pos_nonneg; lia).
  rewrite <- Z.add_1_r in Ha2, Hb2.
  destruct (Qle_bool (2 ^ (a - b)) (n # d)) eqn:E.
  - apply Qle_bool_iff in E. split; [exact E|].
    replace (a - b + 1)%Z with ((a + 1) - b)%Z by ring.
    rewrite pow2_minus, (pow2_inject (a + 1)), (pow2_inject b) by lia.
    apply Qlt_shift_div_l; [unfold Qlt; simpl; lia|].
    unfold Qlt, Qmult. simpl. nia.
  - assert (Hlt : n # d < 2 ^ (a - b)).
    { apply Qnot_le_lt. intros H. apply Qle_bool_iff in H. congruence. }
    replace (a - b - 1 + 1)%Z with (a - b)%Z by ring. split; [|exact Hlt].
    replace (a - b - 1)%Z with (a - (b + 1))%Z by ring.
    rewrite pow2_minus, (pow2_inject a), (pow2_inject (b + 1)) by lia.
    apply Qle_shift_div_r.
    + unfold Qlt. simpl. lia.
    + unfold Qle, Qmult. simpl. nia.
Qed.

Lemma round64_zero (x : Q) : x == 0 -> round64 x = 0.
Proof.
  intros H. unfold round64. apply Qeq_bool_iff in H. rewrite H. reflexivity.
Qed.

Lemma round64_unfold (x : Q) :
  ~ x == 0 ->
  round64 x
  == inject_Z (round_half_even (x / 2 ^ ulp_exponent x)) * 2 ^ ulp_exponent x.
Proof.
  intros H. unfold round64. destruct (Qeq_bool x 0) eqn:E.
  - apply Qeq_bool_iff in E. contradiction.
  - apply Qred_correct.
Qed.

Lemma round64_nonneg (x : Q) : 0 <= x -> 0 <= round64 x.
Proof.
  intros Hx. destruct (Qeq_dec x 0) as [E|N].
  - rewrite (round64_zero x E). apply Qle_refl.
  - rewrite (round64_unfold x N).
    pose proof (pow2_pos (ulp_exponent x)) as Hp.
    apply Qmult_le_0_compat; [|apply Qlt_le_weak; exact Hp].
    change 0 with (inject_Z 0). rewrite <- Zle_Qle.
    rewrite <- (round_half_even_Z 0) at 1. apply round_half_even_mono.
    apply Qle_shift_div_l; [exact Hp|]. change (inject_Z 0) with 0. lra.
Qed.

Lemma Qabs_nonneg_eq (x : Q) : 0 <= x -> Qabs x = x.
Proof.
  destruct x as [n d]. unfold Qle, Qabs. simpl. intros H.
  rewrite Z.abs_eq by lia. reflexivity.
Qed.

(** Below [2 ^ 53] every integer is a binary64 number, so that rounding
    does not cross it. *)
Lemma round64_le_int (x : Q) (k : Z) :
  0 <= x -> x <= inject_Z k -> (k < 2 ^ 53)%Z -> round64 x <= inject_Z k.
Proof.
  intros Hx Hk Hlim. destruct (Qeq_dec x 0) as [E|N].
  - rewrite (round64_zero x E). lra.
  - rewrite (round64_unfold x N).
    assert (Hpos : 0 < x).
    { destruct (Qlt_le_dec 0 x) as [H|H]; [exact H|].
      exfalso. apply N. lra. }
    set (e := ulp_exponent x).
    pose proof (pow2_pos e) as Hp.
    assert (He : (e <= 0)%Z).
    { unfold e, ulp_exponent. rewrite (Qabs_nonneg_eq x Hx).
      destruct (Qlog2_spec x Hpos) as [Hlo _].
      assert (Hlt : 2 ^ Qlog2 x < 2 ^ 53).
      { eapply Qle_lt_trans; [exact Hlo|].
        eapply Qle_lt_trans; [exact Hk|].
        rewrite (pow2_inject 53) by lia. rewrite <- Zlt_Qlt. exact Hlim. }
      apply pow2_lt_inv in Hlt. lia. }
    assert (Hinv : 2 ^ e * inject_Z (2 ^ (- e)) == 1).
    { rewrite <- (pow2_inject (- e)) by lia.
      rewrite <- Qpower_plus by discriminate.
      replace (e + - e)%Z with 0%Z by ring. reflexivity. }
    assert (Hle : (round_half_even (x / 2 ^ e) <= k * 2 ^ (- e))%Z).
    { rewrite <- (round_half_even_Z (k * 2 ^ (- e))).
      apply round_half_even_mono.
      apply Qle_shift_div_r; [exact Hp|].
      rewrite inject_Z_mult, <- Qmult_assoc, (Qmult_comm (inject_Z (2 ^ (- e)))).
      rewrite Hinv, Qmult_1_r. exact Hk. }
    rewrite Zle_Qle in Hle.
    apply (Qmult_le_compat_r _ _ (2 ^ e)) in Hle; [|apply Qlt_le_weak; exact Hp].
    eapply Qle_trans; [exact Hle|].
    rewrite inject_Z_mult, <- Qmult_assoc, (Qmult_comm (inject_Z (2 ^ (- e)))).
    rewrite Hinv, Qmult_1_r. apply Qle_refl.
Qed.

(** The unit in the last place at [x]. *)
Lemma ulp_exponent_bound (x : Q) :
  ~ x == 0 ->
  2 ^ ulp_exponent x <= Qabs x * 2 ^ (-52) + 2 ^ (-1074).
Proof.
  intros N. unfold ulp_exponent.
  assert (Hpos : 0 < Qabs x).
  { destruct (Qlt_le_dec 0 (Qabs x)) as [H|H]; [exact H|].
    exfalso. apply N. revert H. apply Qabs_case; intros; lra. }
  destruct (Qlog2_spec (Qabs x) Hpos) as [Hlo _].
  pose proof (pow2_pos (-52)) as H52. pose proof (pow2_pos (-1074)) as H1074.
  set (u := 2 ^ (-52)) in *. set (v := 2 ^ (-1074)) in *.
  destruct (Z.max_spec (Qlog2 (Qabs x) - 52) (-1074)) as [[_ ->]|[_ ->]].
  - fold v. assert (0 <= Qabs x * u) by (apply Qmult_le_0_compat; lra). lra.
  - replace (Qlog2 (Qabs x) - 52)%Z with (Qlog2 (Qabs x) + -52)%Z by ring.
    rewrite Qpower_plus by discriminate. fold u.
    apply (Qmult_le_compat_r _ _ u) in Hlo; [|lra]. lra.
Qed.

(** Rounding moves a number by at most half a unit in the last place. *)
Lemma round64_error (x : Q) :
  Qabs (round64 x - x) <= Qabs x * 2 ^ (-53) + 2 ^ (-1075).
Proof.
  pose proof (pow2_pos (-53)) as H53. pose proof (pow2_pos (-1075)) as H1075.
  pose proof (Qabs_nonneg x) as Hx.
  destruct (Qeq_dec x 0) as [E|N].
  - rewrite (round64_zero x E).
    assert (Qabs (0 - x) == 0) as ->.
    { rewrite E. reflexivity. }
    assert (0 <= Qabs x * 2 ^ (-53)) by (apply Qmult_le_0_compat; lra). lra.
  - pose proof (ulp_exponent_bound x N) as Hu.
    rewrite (round64_unfold x N).
    set (e := ulp_exponent x) in *. pose proof (pow2_pos e) as Hp.
    set (y := x / 2 ^ e).
    assert (Hy : x == y * 2 ^ e).
    { unfold y. field. intros H. rewrite H in Hp. apply (Qlt_irrefl 0 Hp). }
    assert (Hd : inject_Z (round_half_even y) * 2 ^ e - x
                 == (inject_Z (round_half_even y) - y) * 2 ^ e).
    { rewrite Hy at 1. ring. }
    rewrite Hd, Qabs_Qmult, (Qabs_pos (2 ^ e)) by lra.
    destruct (round_half_even_near y) as [H1 H2].
    assert (Hh : Qabs (inject_Z (round_half_even y) - y) <= 1 # 2).
    { apply Qabs_case; intros; lra. }
    apply (Qmult_le_compat_r _ _ (2 ^ e)) in Hh; [|lra].
    eapply Qle_trans; [exact Hh|].
    assert (E52 : 2 ^ (-52) == 2 * 2 ^ (-53)) by reflexivity.
    assert (E1074 : 2 ^ (-1074) == 2 * 2 ^ (-1075)) by reflexivity.
    rewrite E52, E1074 in Hu.
    set (u := 2 ^ (-53)) in *. set (v := 2 ^ (-1075)) in *.
    set (p := 2 ^ e) in *. set (a := Qabs x) in *.
    assert (Hu' : p <= 2 * (a * u) + 2 * v) by (rewrite Qmult_assoc, (Qmult_comm 2 a), <- Qmult_assoc; lra).
    lra.
Qed.

Lemma Qnat_S (n : nat) : Qnat (S n) == Qnat n + 1.
Proof.
  unfold Qnat. rewrite Nat2Z.inj_succ, <- Z.add_1_r, inject_Z_plus. reflexivity.
Qed.

Lemma Qnat_nonneg (n : nat) : 0 <= Qnat n.
Proof. unfold Qnat, Qle. simpl. lia. Qed.

(** Half way between two integers the even one is chosen. *)
Lemma round_half_even_tie (y : Q) :
  y - inject_Z (Qfloor y) == 1 # 2 -> Z.even (round_half_even y) = true.
Proof.
  intros H. unfold round_half_even.
  destruct (Qcompare_spec (y - inject_Z (Qfloor y)) (1 # 2)) as [He|Hl|Hg];
    [|exfalso; lra|exfalso; lra].
  destruct (Z.even (Qfloor y)) eqn:E; [exact E|].
  rewrite Z.even_add, E. reflexivity.
Qed.

(** *** Binary64 numbers *)

Lemma round_half_even_wd (x y : Q) :
  x == y -> round_half_even x = round_half_even y.
Proof.
  intros H. unfold round_half_even. rewrite (Qfloor_comp x y H).
  assert (E : Qcompare (x - inject_Z (Qfloor y)) (1 # 2)
              = Qcompare (y - inject_Z (Qfloor y)) (1 # 2)).
  { apply Qcompare_comp; [rewrite H|]; reflexivity. }
  rewrite E. reflexivity.
Qed.

Lemma pow2_split (a b : Z) : 2 ^ a == 2 ^ (a - b) * 2 ^ b.
Proof.
  rewrite <- Qpower_plus by discriminate.
  replace (a - b + b)%Z with a by ring. reflexivity.
Qed.

Lemma pow2_nonzero (e : Z) : ~ 2 ^ e == 0.
Proof.
  intros H. pose proof (pow2_pos e) as Hp. rewrite H in Hp.
  apply (Qlt_irrefl 0 Hp).
Qed.

Lemma Qabs_pos_iff (x : Q) : ~ x == 0 -> 0 < Qabs x.
Proof.
  intros N. destruct (Qlt_le_dec 0 (Qabs x)) as [H|H]; [exact H|].
  exfalso. apply N. revert H. apply Qabs_case; intros; lra.
Qed.

(** The scaled number lies strictly between [- 2 ^ 53] and [2 ^ 53]. *)
Lemma scaled_range (x : Q) :
  ~ x == 0 -> Qabs (x / 2 ^ ulp_exponent x) < 2 ^ 53.
Proof.
  intros N. pose proof (Qabs_pos_iff x N) as Hpos.
  destruct (Qlog2_spec (Qabs x) Hpos) as [_ Hhi].
  set (e := ulp_exponent x). pose proof (pow2_pos e) as Hp.
  unfold Qdiv. rewrite Qabs_Qmult.
  rewrite (Qabs_pos (/ 2 ^ e)) by (apply Qlt_le_weak, Qinv_lt_0_compat; exact Hp).
  apply Qlt_shift_div_r; [exact Hp|].
  eapply Qlt_le_trans; [exact Hhi|].
  rewrite <- Qpower_plus by discriminate.
  apply pow2_le. unfold e, ulp_exponent. lia.
Qed.

Lemma round64_is_binary64 (x : Q) : binary64 (round64 x).
Proof.
  destruct (Qeq_dec x 0) as [E|N].
  - rewrite (round64_zero x E). exists 0%Z, 0%Z.
    split; [reflexivity|]. split; [lia | reflexivity].
  - pose proof (scaled_range x N) as Hr.
    pose proof (round64_unfold x N) as Hu.
    set (e := ulp_exponent x) in *. set (y := x / 2 ^ e) in *.
    assert (He : (-1074 <= e)%Z) by (unfold e, ulp_exponent; lia).
    assert (Hy : - 2 ^ 53 <= y /\ y <= 2 ^ 53).
    { revert Hr. apply Qabs_case; intros; split; lra. }
    rewrite (pow2_inject 53) in Hy by lia.
    rewrite <- inject_Z_opp in Hy. destruct Hy as [Hy1 Hy2].
    apply round_half_even_mono in Hy1, Hy2.
    rewrite round_half_even_Z in Hy1, Hy2.
    set (M := round_half_even y) in *.
    destruct (Z.eq_dec (Z.abs M) (2 ^ 53)) as [Htop|Hin].
    + exists (M / 2)%Z, (e + 1)%Z. split; [|split; [lia|]].
      * assert (M = 2 ^ 53 \/ M = - 2 ^ 53)%Z as [-> | ->] by lia; reflexivity.
      * rewrite Hu, Qpower_plus by discriminate.
        assert (EM : inject_Z M == inject_Z (M / 2) * 2).
        { assert (M = 2 ^ 53 \/ M = - 2 ^ 53)%Z as [-> | ->] by lia; reflexivity. }
        rewrite EM. change (2 ^ 1) with 2. ring.
    + exists M, e. split; [lia|]. split; [exact He | exact Hu].
Qed.

Lemma round64_binary64 (x : Q) : binary64 x -> round64 x == x.
Proof.
  intros (m & e & Hm & He & Hx).
  destruct (Qeq_dec x 0) as [E|N].
  - rewrite (round64_zero x E). symmetry. exact E.
  - pose proof (Qabs_pos_iff x N) as Hpos.
    destruct (Qlog2_spec (Qabs x) Hpos) as [Hlo _].
    rewrite (round64_unfold x N).
    assert (He' : (ulp_exponent x <= e)%Z).
    { unfold ulp_exponent.
      assert (Hlt : 2 ^ Qlog2 (Qabs x) < 2 ^ (53 + e)).
      { eapply Qle_lt_trans; [exact Hlo|].
        rewrite Hx, Qabs_Qmult, (Qabs_pos (2 ^ e))
          by (apply Qlt_le_weak, pow2_pos).
        rewrite Qpower_plus by discriminate.
        apply Qmult_lt_compat_r; [apply pow2_pos|].
        rewrite (pow2_inject 53) by lia.
        change (Qabs (inject_Z m)) with (inject_Z (Z.abs m)).
        rewrite <- Zlt_Qlt. exact Hm. }
      apply pow2_lt_inv in Hlt. lia. }
    set (e' := ulp_exponent x) in *.
    assert (Hy : x / 2 ^ e' == inject_Z (m * 2 ^ (e - e'))).
    { rewrite Hx, inject_Z_mult, <- (pow2_inject (e - e')) by lia.
      rewrite (pow2_split e e'). field. apply pow2_nonzero. }
    rewrite (round_half_even_wd _ _ Hy), round_half_even_Z.
    rewrite Hx, inject_Z_mult, <- (pow2_inject (e - e')) by lia.
    rewrite (pow2_split e e'). ring.
Qed.

Lemma round_half_even_nearest (y : Q) (k : Z) :
  Qabs (inject_Z (round_half_even y) - y) <= Qabs (inject_Z k - y).
Proof.
  destruct (round_half_even_near y) as [H1 H2].
  set (M := round_half_even y) in *.
  destruct (Z.eq_dec k M) as [->|Hne]; [apply Qle_refl|].
  assert (Hk : inject_Z k <= inject_Z M - 1 \/ inject_Z M + 1 <= inject_Z k).
  { assert (Hz : (k <= M + - 1 \/ M + 1 <= k)%Z) by lia.
    rewrite !Zle_Qle, !inject_Z_plus in Hz.
    change (inject_Z (- 1)) with (- (1)) in Hz.
    change (inject_Z 1) with 1 in Hz. destruct Hz; [left | right]; lra. }
  apply Qabs_case; intros; apply Qabs_case; intros; destruct Hk; lra.
Qed.

(** No multiple of the unit in the last place is nearer to [x] than
    [round64 x]. *)
Lemma round64_nearest_multiple (x : Q) (k : Z) :
  ~ x == 0 ->
  Qabs (round64 x - x) <= Qabs (inject_Z k * 2 ^ ulp_exponent x - x).
Proof.
  intros N. rewrite (round64_unfold x N).
  set (e := ulp_exponent x). pose proof (pow2_pos e) as Hp.
  set (y := x / 2 ^ e).
  assert (Hy : x == y * 2 ^ e) by (unfold y; field; apply pow2_nonzero).
  assert (E : forall z : Z,
             Qabs (inject_Z z * 2 ^ e - x) == Qabs (inject_Z z - y) * 2 ^ e).
  { intros z. rewrite <- (Qabs_pos (2 ^ e)) at 2 by lra.
    rewrite <- Qabs_Qmult. apply Qabs_wd. rewrite Hy at 1. ring. }
  rewrite !E. apply Qmult_le_compat_r; [|lra].
  apply round_half_even_nearest.
Qed.

(** [round64 x] is a binary64 number nearest to [x]. *)
Lemma round64_nearest (x f : Q) :
  binary64 f -> Qabs (round64 x - x) <= Qabs (f - x).
Proof.
  intros (m & e & Hm & He & Hf).
  destruct (Qeq_dec x 0) as [E|N].
  - rewrite (round64_zero x E).
    assert (Qabs (0 - x) == 0) as -> by (rewrite E; reflexivity).
    apply Qabs_nonneg.
  - set (e' := ulp_exponent x).
    destruct (Z_le_gt_dec e' e) as [Hle|Hgt].
    + pose proof (round64_nearest_multiple x (m * 2 ^ (e - e')) N) as H.
      fold e' in H. eapply Qle_trans; [exact H|].
      apply Qle_lteq. right. apply Qabs_wd.
      rewrite Hf, inject_Z_mult, <- (pow2_inject (e - e')) by lia.
      rewrite (pow2_split e e'). ring.
    + pose proof (Qabs_pos_iff x N) as Hpos.
      destruct (Qlog2_spec (Qabs x) Hpos) as [Hlo _].
      assert (EL : Qlog2 (Qabs x) = (52 + e')%Z)
        by (unfold e', ulp_exponent in *; lia).
      rewrite EL in Hlo.
      assert (Hfx : Qabs f < 2 ^ (52 + e')).
      { rewrite Hf, Qabs_Qmult, (Qabs_pos (2 ^ e))
          by (apply Qlt_le_weak, pow2_pos).
        change (Qabs (inject_Z m)) with (inject_Z (Z.abs m)).
        apply Qlt_le_trans with (2 ^ 53 * 2 ^ e).
        - apply Qmult_lt_compat_r; [apply pow2_pos|].
          rewrite (pow2_inject 53) by lia. rewrite <- Zlt_Qlt. exact Hm.
        - rewrite <- Qpower_plus by discriminate. apply pow2_le. lia. }
      assert (Etop : inject_Z (2 ^ 52) * 2 ^ e' == 2 ^ (52 + e')).
      { rewrite <- (pow2_inject 52) by lia.
        rewrite <- Qpower_plus by discriminate. reflexivity. }
      set (P := 2 ^ (52 + e')) in *.
      destruct (Qlt_le_dec 0 x) as [Hx|Hx].
      * pose proof (round64_nearest_multiple x (2 ^ 52) N) as H.
        fold e' in H. rewrite Etop in H.
        eapply Qle_trans; [exact H|].
        rewrite (Qabs_pos x) in Hlo by lra.
        revert Hfx. apply Qabs_case; intros; apply Qabs_case; intros;
          apply Qabs_case; intros; lra.
      * pose proof (round64_nearest_multiple x (- 2 ^ 52) N) as H.
        fold e' in H. rewrite inject_Z_opp in H.
        assert (Eneg : - inject_Z (2 ^ 52) * 2 ^ e' == - P)
          by (rewrite <- Etop; ring).
        rewrite Eneg in H.
        eapply Qle_trans; [exact H|].
        rewrite (Qabs_neg x) in Hlo by lra.
        revert Hfx. apply Qabs_case; intros; apply Qabs_case; intros;
          apply Qabs_case; intros; lra.
Qed.

(** For instance [0.1 + 0.2] is [0.30000000000000004], the binary64
    number next above the one nearest to [0.3]. *)
Lemma float_add_example :
  float_add (round64 (1 # 10)) (round64 (2 # 10))
  == round64 (3 # 10) + 2 ^ (-54).
Proof. vm_compute. reflexivity. Qed.

(** The sum of [l] in binary64, continued from [a], for numbers between
    0 and 1: it stays below the number of terms and differs from the
    exact sum by at most one rounding error per term. *)
Lemma float_sum_acc (N : nat) (l : list Q) :
  Forall (fun x => 0 <= x <= 1) l ->
  forall (a : Q) (k : nat),
    0 <= a -> a <= Qnat k -> (k + len l <= N)%nat ->
    (Z.of_nat N < 2 ^ 53)%Z ->
    0 <= fold_left float_add l a
    /\ fold_left float_add l a <= Qnat (k + len l)
    /\ Qabs (fold_left float_add l a - (a + Qtotal l))
       <= Qnat (len l) * (Qnat N * 2 ^ (-53) + 2 ^ (-1075)).
Proof.
  unfold len.
  pose proof (pow2_pos (-53)) as H53. pose proof (pow2_pos (-1075)) as H1075.
  set (u := 2 ^ (-53)) in *. set (v := 2 ^ (-1075)) in *.
  induction 1 as [|x l [Hx0 Hx1] Hall IH]; intros a k Ha0 Hak Hlen HN.
  - cbn [fold_left List.length]. rewrite Nat.add_0_r.
    split; [exact Ha0|]. split; [exact Hak|].
    assert (E : a - (a + Qtotal []) == 0) by (unfold Qtotal; simpl; ring).
    rewrite E. change (Qnat 0) with 0. rewrite Qmult_0_l. apply Qle_refl.
  - cbn [fold_left List.length]. cbn [List.length] in Hlen.
    set (a' := float_add a x).
    assert (Hs0 : 0 <= a + x) by lra.
    assert (Hs1 : a + x <= Qnat (S k)) by (rewrite Qnat_S; lra).
    assert (Ha'0 : 0 <= a') by (apply round64_nonneg; exact Hs0).
    assert (Ha'1 : a' <= Qnat (S k)).
    { apply round64_le_int; [exact Hs0 | exact Hs1 | lia]. }
    destruct (IH a' (S k) Ha'0 Ha'1) as (I0 & I1 & I2); [lia | exact HN |].
    replace (k + S (List.length l))%nat with (S k + List.length l)%nat by lia.
    split; [exact I0|]. split; [exact I1|].
    pose proof (round64_error (a + x)) as He. fold (float_add a x) in He.
    fold a' u v in He. rewrite (Qabs_pos (a + x)) in He by exact Hs0.
    assert (HkN : Qnat (S k) <= Qnat N).
    { unfold Qnat. rewrite <- Zle_Qle. lia. }
    assert (Hau : (a + x) * u <= Qnat N * u).
    { apply Qmult_le_compat_r; lra. }
    rewrite Qnat_S.
    assert (Et : Qtotal (x :: l) == x + Qtotal l) by reflexivity.
    rewrite Et.
    set (d := Qnat N * u + v) in *.
    assert (Hd1 : Qabs (a' - (a + x)) <= d) by (unfold d; lra).
    assert (Htri : Qabs (fold_left float_add l a' - (a + (x + Qtotal l)))
                   <= Qabs (fold_left float_add l a' - (a' + Qtotal l))
                      + Qabs (a' - (a + x))).
    { eapply Qle_trans; [|apply Qabs_triangle].
      apply Qle_lteq. right. apply Qabs_wd. ring. }
    lra.
Qed.

(** Reading numbers between 0 and 1 as floats keeps them there and
    moves their sum by at most one rounding error per term. *)
Lemma round64_terms (l : list Q) :
  Forall (fun x => 0 <= x <= 1) l ->
  Forall (fun x => 0 <= x <= 1) (map round64 l)
  /\ Qabs (Qtotal (map round64 l) - Qtotal l)
     <= Qnat (len l) * (2 ^ (-53) + 2 ^ (-1075)).
Proof.
  unfold len.
  pose proof (pow2_pos (-53)) as H53. pose proof (pow2_pos (-1075)) as H1075.
  set (u := 2 ^ (-53)) in *. set (v := 2 ^ (-1075)) in *.
  induction 1 as [|x l [Hx0 Hx1] Hall [IH1 IH2]].
  - split; [constructor|]. unfold Qtotal. simpl.
    change (Qnat 0) with 0. rewrite Qmult_0_l. apply Qle_refl.
  - cbn [map List.length]. split.
    + constructor; [|exact IH1]. split.
      * apply round64_nonneg. exact Hx0.
      * apply (round64_le_int x 1); [exact Hx0 | exact Hx1 | reflexivity].
    + rewrite Qnat_S.
      pose proof (round64_error x) as He. fold u v in He.
      rewrite (Qabs_pos x) in He by exact Hx0.
      assert (Hxu : x * u <= u).
      { rewrite <- (Qmult_1_l u) at 2. apply Qmult_le_compat_r; lra. }
      assert (Htri : Qabs (Qtotal (round64 x :: map round64 l) - Qtotal (x :: l))
                     <= Qabs (round64 x - x)
                        + Qabs (Qtotal (map round64 l) - Qtotal l)).
      { eapply Qle_trans; [|apply Qabs_triangle].
        apply Qle_lteq. right. apply Qabs_wd. unfold Qtotal. simpl. ring. }
      lra.
Qed.

(** The mean of numbers between 0 and 1 as binary64 arithmetic computes
    it: between 0 and 1, and off the exact mean by at most [n + 3] times
    [2 ^ -53], half the distance from 1 to the next binary64 number. *)
Lemma float_mean_spec (l : list Q) :
  (0 < len l)%nat ->
  Forall (fun x => 0 <= x <= 1) l ->
  (Z.of_nat (len l) < 2 ^ 53)%Z ->
  let m := float_div (float_sum l) (Qnat (len l)) in
  0 <= m /\ m <= 1
  /\ Qabs (m - Qtotal l / Qnat (len l))
     <= Qnat (len l + 3) * 2 ^ (-53).
Proof.
  intros Hn Hall Hlim m.
  destruct (round64_terms l Hall) as [Hall' Hterms].
  unfold len in Hn, Hlim, m, Hterms |- *.
  pose proof (pow2_pos (-53)) as H53. pose proof (pow2_pos (-1075)) as H1075.
  assert (Huv : 3 * 2 ^ (-1075) <= 2 ^ (-53))
    by (apply Qle_bool_iff; vm_compute; reflexivity).
  set (u := 2 ^ (-53)) in *. set (v := 2 ^ (-1075)) in *.
  set (n := List.length l) in *.
  pose proof (Qnat_pos n Hn) as Hq.
  assert (En' : List.length (map round64 l) = n) by apply length_map.
  destruct (float_sum_acc n (map round64 l) Hall' 0 0%nat) as (S0 & S1 & S2);
    [apply Qle_refl | apply Qle_refl | unfold len; rewrite En'; simpl; lia
    | exact Hlim |].
  unfold len in S1, S2. rewrite En' in S1, S2.
  fold (float_sum l) in S0, S1, S2. fold u v in S2. simpl in S1.
  set (s := float_sum l) in *.
  set (T' := Qtotal (map round64 l)) in *. set (T := Qtotal l) in *.
  assert (Hq0 : 0 <= s / Qnat n) by (apply Qle_shift_div_l; lra).
  assert (Hq1 : s / Qnat n <= 1) by (apply Qle_shift_div_r; lra).
  assert (Hm0 : 0 <= m) by (apply round64_nonneg; exact Hq0).
  assert (Hm1 : m <= 1).
  { apply (round64_le_int _ 1); [exact Hq0 | exact Hq1 | reflexivity]. }
  split; [exact Hm0|]. split; [exact Hm1|].
  pose proof (round64_error (s / Qnat n)) as He.
  fold (float_div s (Qnat n)) in He. fold m u v in He.
  rewrite (Qabs_pos (s / Qnat n)) in He by exact Hq0.
  assert (Hqu : s / Qnat n * u <= u).
  { rewrite <- (Qmult_1_l u) at 2. apply Qmult_le_compat_r; lra. }
  assert (Hshift : forall a b d : Q,
             Qabs (a - b) <= Qnat n * d -> Qabs (a / Qnat n - b / Qnat n) <= d).
  { intros a b d H.
    assert (E : a / Qnat n - b / Qnat n == (a - b) / Qnat n) by (field; lra).
    rewrite E. unfold Qdiv. rewrite Qabs_Qmult.
    rewrite (Qabs_pos (/ Qnat n))
      by (apply Qlt_le_weak, Qinv_lt_0_compat; exact Hq).
    apply Qle_shift_div_r; [exact Hq|]. rewrite (Qmult_comm d). exact H. }
  assert (Hd1 : Qabs (s / Qnat n - T' / Qnat n) <= Qnat n * u + v).
  { apply Hshift. eapply Qle_trans; [|exact S2].
    apply Qle_lteq. right. apply Qabs_wd. ring. }
  assert (Hd2 : Qabs (T' / Qnat n - T / Qnat n) <= u + v)
    by (apply Hshift; exact Hterms).
  assert (Htri : Qabs (m - T / Qnat n)
                 <= Qabs (m - s / Qnat n)
                    + (Qabs (s / Qnat n - T' / Qnat n)
                       + Qabs (T' / Qnat n - T / Qnat n))).
  { eapply Qle_trans; [|apply Qplus_le_r, Qabs_triangle].
    eapply Qle_trans; [|apply Qabs_triangle].
    apply Qle_lteq. right. apply Qabs_wd. ring. }
  assert (En : Qnat (n + 3) == Qnat n + 3).
  { unfold Qnat. rewrite Nat2Z.inj_add, inject_Z_plus. reflexivity. }
  rewrite En.
  assert (Ed : (Qnat n + 3) * u == Qnat n * u + 3 * u) by ring.
  rewrite Ed. lra.
Qed.

(* ================================================================= *)
(** ** The record made of a group *)


Lemma merged_envelope (r : prepared) (rs : list prepared) :
  let l := min_ne (x_min r) (map x_min rs) in
  let t := min_ne (y_min r) (map y_min rs) in
  let rt := max_ne (x_max r) (map x_max rs) in
  let b := max_ne (y_max r) (map y_max rs) in
  Forall (covers l t rt b) (r :: rs)
  /\ forall l' t' rt' b',
       Forall (covers l' t' rt' b') (r :: rs) ->
       l' <= l /\ rt <= rt' /\ t' <= t /\ b <= b'.
Proof.
  intros l t rt b. split.
  - apply Forall_forall. intros p Hp. unfold covers, l, t, rt, b.
    repeat split.
    + apply min_ne_lower. apply (in_map x_min (r :: rs) p Hp).
    + apply max_ne_upper. apply (in_map x_max (r :: rs) p Hp).
    + apply min_ne_lower. apply (in_map y_min (r :: rs) p Hp).
    + apply max_ne_upper. apply (in_map y_max (r :: rs) p Hp).
  - intros l' t' rt' b' Hc. rewrite Forall_forall in Hc. unfold l, t, rt, b.
    repeat split.
    + apply min_ne_greatest. intros v Hv.
      change (In v (map x_min (r :: rs))) in Hv. apply in_map_iff in Hv.
      destruct Hv as [p [<- Hp]]. apply (Hc p Hp).
    + apply max_ne_least. intros v Hv.
      change (In v (map x_max (r :: rs))) in Hv. apply in_map_iff in Hv.
      destruct Hv as [p [<- Hp]]. apply (Hc p Hp).
    + apply min_ne_greatest. intros v Hv.
      change (In v (map y_min (r :: rs))) in Hv. apply in_map_iff in Hv.
      destruct Hv as [p [<- Hp]]. apply (Hc p Hp).
    + apply max_ne_least. intros v Hv.
      change (In v (map y_max (r :: rs))) in Hv. apply in_map_iff in Hv.
      destruct Hv as [p [<- Hp]]. apply (Hc p Hp).
Qed.

Lemma sorted_results_envelope (results : list result) (p : prepared) :
  In p (sorted_results results) -> envelope_of_box p.
Proof.
  intros Hp. apply (Permutation_in _ (sorted_results_perm results)) in Hp.
  apply in_map_iff in Hp. destruct Hp as [[i r] [<- _]].
  repeat split.
Qed.

(** The binary64 average of the confidences of a group. *)
Lemma merged_confidence_near_mean (group : list prepared) :
  (1 < len group)%nat ->
  Forall (fun p => unit_range (confidence (res p))) group ->
  (Z.of_nat (len group) < 2 ^ 53)%Z ->
  let confidences := map (fun p => confidence (res p)) group in
  let c := float_div (float_sum confidences) (Qnat (len group)) in
  unit_range c /\ Qabs (c - mean confidences) <= rounding_slack (len group).
Proof.
  intros Hlen Hall Hlim confidences c.
  assert (El : len confidences = len group)
    by (unfold confidences, len; apply length_map).
  destruct (float_mean_spec confidences) as (H0 & H1 & H2).
  - rewrite El. lia.
  - unfold confidences. apply Forall_map. exact Hall.
  - rewrite El. exact Hlim.
  - rewrite El in H0, H1, H2. fold c in H0, H1, H2.
    unfold unit_range, mean, rounding_slack. rewrite El.
    split; [split; assumption | exact H2].
Qed.

Lemma merge_group_unfold (r r' : prepared) (rs : list prepared) :
  let group := r :: r' :: rs in
  merge_group group =
  Ok (Result
        (rect (min_ne (x_min r) (map x_min (r' :: rs)))
              (min_ne (y_min r) (map y_min (r' :: rs)))
              (max_ne (x_max r) (map x_max (r' :: rs)))
              (max_ne (y_max r) (map y_max (r' :: rs))))
        (join (lit " ")
              (map (fun p => text (res p))
                   (py_sort (fun a b => Qlt_b (x_min a) (x_min b)) group)))
        (float_div (float_sum (map (fun p => confidence (res p)) group))
                   (Qnat (len group)))
        None (Some (len group))).
Proof. reflexivity. Qed.




Lemma merge_similar_boxes_partition_witness :
  exists out,
    _merge_similar_boxes [fragment_eliminar; fragment_44] (1 # 5) = Ok out
    /\ total (map merged_count out) = 2%nat.
Proof.
  eexists. split; [vm_compute; reflexivity|].
  apply (proj2 (proj2 (merge_similar_boxes_partition
                         [fragment_eliminar; fragment_44] (1 # 5)))).
  - vm_compute. reflexivity.
  - repeat constructor.
Defined.

(* ================================================================= *)
(** ** Pipeline *)

Lemma process_results_len (self : ocr) (thr : Q) (results : list detection) :
  forall acc,
    (len (process_results self thr results acc) <= len acc + len results)%nat.
Proof.
  unfold len. induction results as [|[[b t] c] results IH]; intros acc; simpl.
  - lia.
  - destruct (Qlt_b c thr); [specialize (IH acc); lia|].
    destruct (_ <? 2)%nat; [specialize (IH acc); lia|].
    specialize (IH (acc ++ [Result (_expand_bbox (width self) (height self) b 30 25)
                              (strip t) c (Some b) None])).
    rewrite length_app in IH. simpl in IH. lia.
Qed.

Lemma Forall2_len {A B : Type} (R : A -> B -> Prop) (l1 : list A) (l2 : list B) :
  Forall2 R l1 l2 -> len l1 = len l2.
Proof. unfold len. induction 1; simpl; congruence. Qed.

Lemma merge_similar_boxes_len (results : list result) (thr : Q)
    (out : list result) :
  _merge_similar_boxes results thr = Ok out -> (len out <= len results)%nat.
Proof.
  intros H. destruct (merge_similar_boxes_groups results thr out H)
    as [groups [Hg Hall]].
  destruct (build_groups_partition results thr groups Hg) as [Hp Hne].
  rewrite <- (Forall2_len _ _ _ Hall).
  eapply Nat.le_trans; [apply groups_len; exact Hne|].
  unfold len. rewrite (Permutation_length Hp).
  apply Nat.eq_le_incl, sorted_results_len.
Qed.

Lemma remove_duplicate_cases_len (results : list result) (thr : Q) :
  (len (_remove_duplicate_cases results thr) <= len results)%nat.
Proof.
  unfold _remove_duplicate_cases. destruct results as [|r results]; [lia|].
  eapply Nat.le_trans; [apply subseq_len, dedup_loop_subseq|].
  unfold sort_by_confidence. rewrite py_sort_len. lia.
Qed.

Lemma filter_actors_spec (self : ocr) (unique_results : list result) :
  forall filtered cases,
    filter_actors self unique_results filtered cases
    = (filtered ++ map use_case_of (kept (actor_blacklist self) unique_results),
       cases ++ map text (kept (actor_blacklist self) unique_results)).
Proof.
  induction unique_results as [|r rest IH]; intros filtered cases; simpl.
  - rewrite !app_nil_r. reflexivity.
  - destruct (is_actor_text (actor_blacklist self) (text r)); simpl.
    + apply IH.
    + rewrite IH, <- !app_assoc. reflexivity.
Qed.

Lemma kept_len (blacklist : list str) (l : list result) :
  (len (kept blacklist l) <= len l)%nat.
Proof. apply filter_length_le. Qed.

Lemma run_ocr_unfold (self : ocr) (results : list detection) (thr : Q) (r : run) :
  run_ocr self results thr = Ok r ->
  processed r = process_results self thr results []
  /\ _merge_similar_boxes (processed r) (1 # 5) = Ok (merged r)
  /\ unique r = _remove_duplicate_cases (merged r) (7 # 10)
  /\ filtered_results r
     = map use_case_of (kept (actor_blacklist self) (unique r))
  /\ use_cases r = map text (kept (actor_blacklist self) (unique r)).
Proof.
  unfold run_ocr.
  destruct (_merge_similar_boxes _ _) as [m|] eqn:Em; simpl; [|discriminate].
  rewrite filter_actors_spec. simpl. intros H. injection H as <-. simpl.
  auto.
Qed.

(** C8. No stage returns a longer list than it receives, and so along a
    run the lists shrink: raw input, normalised, merged, deduplicated,
    filtered. *)
Theorem stages_never_grow :
  (forall self thr results,
     (len (process_results self thr results []) <= len results)%nat)
  /\ (forall results thr out,
        _merge_similar_boxes results thr = Ok out ->
        (len out <= len results)%nat)
  /\ (forall results thr,
        (len (_remove_duplicate_cases results thr) <= len results)%nat)
  /\ (forall self unique_results,
        (len (fst (filter_actors self unique_results [] []))
         <= len unique_results)%nat)
  /\ (forall self results thr r,
        run_ocr self results thr = Ok r ->
        (len (filtered_results r) <= len (unique r))%nat
        /\ (len (unique r) <= len (merged r))%nat
        /\ (len (merged r) <= len (processed r))%nat
        /\ (len (processed r) <= len results)%nat).
Proof.
  split; [intros self thr results; apply (process_results_len self thr results [])|].
  split; [exact merge_similar_boxes_len|].
  split; [exact remove_duplicate_cases_len|].
  split.
  { intros self u. rewrite filter_actors_spec. simpl.
    unfold len. rewrite length_map. apply kept_len. }
  intros self results thr r H.
  destruct (run_ocr_unfold self results thr r H) as (Hp & Hm & Hu & Hf & _).
  split; [rewrite Hf; unfold len; rewrite length_map; apply kept_len|].
  split; [rewrite Hu; apply remove_duplicate_cases_len|].
  split; [exact (merge_similar_boxes_len _ _ _ Hm)|].
  rewrite Hp. apply (process_results_len self thr results []).
Qed.

Lemma stages_never_grow_witness :
  exists r,
    run_ocr example_ocr example_detections (3 # 10) = Ok r
    /\ (len (filtered_results r) <= len (unique r))%nat
    /\ (len (unique r) <= len (merged r))%nat
    /\ (len (merged r) <= len (processed r))%nat
    /\ (len (processed r) <= len example_detections)%nat.
Proof.
  eexists. split; [vm_compute; reflexivity|].
  apply (proj2 (proj2 (proj2 (proj2 stages_never_grow))) example_ocr _ (3 # 10)).
  vm_compute. reflexivity.
Defined.

(* ================================================================= *)
(** ** Actor and relation filter *)

Lemma lstrip_suffix (s : str) : exists pre, s = pre ++ lstrip s.
Proof.
  induction s as [|c s [pre IH]]; simpl.
  - exists []. reflexivity.
  - destruct (isspace c).
    + exists (c :: pre). simpl. rewrite <- IH. reflexivity.
    + exists []. reflexivity.
Qed.

Lemma rstrip_prefix (s : str) : exists post, s = rstrip s ++ post.
Proof.
  unfold rstrip. destruct (lstrip_suffix (rev s)) as [pre H].
  exists (rev pre). rewrite <- rev_app_distr, <- H, rev_involutive. reflexivity.
Qed.

Lemma strip_substring (s : str) : substring (strip s) s.
Proof.
  unfold strip. destruct (lstrip_suffix s) as [pre Hpre].
  destruct (rstrip_prefix (lstrip s)) as [post Hpost].
  exists pre, post. rewrite <- Hpost. exact Hpre.
Qed.

Lemma stored_strip_lower (t : str) : stored (strip (lower t)).
Proof.
  split.
  - rewrite <- strip_lower, lower_idem. reflexivity.
  - apply strip_idem.
Qed.

Lemma init_blacklist_stored (names : list str) :
  Forall stored (init_blacklist names).
Proof.
  unfold init_blacklist. apply Forall_forall. intros a Ha.
  apply in_map_iff in Ha. destruct Ha as [t [<- _]]. apply stored_strip_lower.
Qed.

Lemma add_actor_blacklist_stored (names : list str) :
  forall blacklist,
    Forall stored blacklist -> Forall stored (add_actor_blacklist blacklist names).
Proof.
  unfold add_actor_blacklist.
  induction names as [|t names IH]; intros bl Hbl; simpl; [exact Hbl|].
  apply IH. destruct (_ && _); [|exact Hbl].
  apply Forall_app. split; [exact Hbl|].
  repeat constructor; apply stored_strip_lower.
Qed.

Lemma actor_match_iff (text_lower a : str) :
  actor_match text_lower a = true <->
  lower a = text_lower \/ substring (lower a) text_lower
  \/ substring text_lower (lower a).
Proof.
  unfold actor_match.
  rewrite !orb_true_iff, str_eqb_eq, !contains_spec. tauto.
Qed.

Lemma is_actor_text_match (blacklist : list str) (t a : str) :
  In a blacklist -> actor_match (strip (lower t)) a = true ->
  is_actor_text blacklist t = true.
Proof.
  intros Hin Hm. unfold is_actor_text.
  replace (existsb (actor_match (strip (lower t))) blacklist) with true;
    [reflexivity|].
  symmetry. apply existsb_exists. exists a. auto.
Qed.

Lemma is_actor_text_entry (blacklist : list str) (a : str) :
  In a blacklist -> is_actor_text blacklist a = true.
Proof.
  intros Hin. apply (is_actor_text_match blacklist a a Hin).
  apply actor_match_iff. right. right. apply strip_substring.
Qed.

Lemma kept_not_actor (blacklist : list str) (l : list result) (r : result) :
  In r (kept blacklist l) -> In r l /\ is_actor_text blacklist (text r) = false.
Proof.
  unfold kept. intros H. apply filter_In in H. destruct H as [Hin H].
  apply negb_true_iff in H. auto.
Qed.

Lemma run_ocr_not_actor (self : ocr) (results : list detection) (thr : Q)
    (r : run) (t : str) :
  run_ocr self results thr = Ok r ->
  is_actor_text (actor_blacklist self) t = true ->
  Forall (fun u => uc_text u <> t) (filtered_results r)
  /\ ~ In t (use_cases r).
Proof.
  intros H Ht.
  destruct (run_ocr_unfold self results thr r H) as (_ & _ & _ & Hf & Hc).
  split.
  - rewrite Hf. apply Forall_forall. intros u Hu.
    apply in_map_iff in Hu. destruct Hu as [d [<- Hd]].
    apply kept_not_actor in Hd. destruct Hd as [_ Hd].
    simpl. intros Heq. rewrite Heq in Hd. congruence.
  - rewrite Hc. intros Hin.
    apply in_map_iff in Hin. destruct Hin as [d [Heq Hd]].
    apply kept_not_actor in Hd. destruct Hd as [_ Hd].
    rewrite Heq in Hd. congruence.
Qed.

(** C1. The entries of the blacklist are stored lowercase and trimmed.
    [is_actor_text] is true whenever the lowercased, trimmed candidate
    equals an entry (taken in lowercase) or one of the two contains the
    other; [run_ocr] outputs exactly the detections, in order, for which
    [is_actor_text] is false.  So no record of the output of a run has a
    text equal to an entry of the blacklist. *)
Theorem blacklist_exclusion :
  (forall names, Forall stored (init_blacklist names))
  /\ (forall blacklist names,
        Forall stored blacklist ->
        Forall stored (add_actor_blacklist blacklist names))
  /\ (forall blacklist t a,
        In a blacklist ->
        lower a = strip (lower t)
        \/ substring (lower a) (strip (lower t))
        \/ substring (strip (lower t)) (lower a) ->
        is_actor_text blacklist t = true)
  /\ (forall self results thr r,
        run_ocr self results thr = Ok r ->
        filtered_results r
        = map use_case_of
            (filter (fun d => negb (is_actor_text (actor_blacklist self) (text d)))
                    (unique r))
        /\ use_cases r = map uc_text (filtered_results r))
  /\ (forall self results thr r a,
        In a (actor_blacklist self) ->
        run_ocr self results thr = Ok r ->
        Forall (fun u => uc_text u <> a) (filtered_results r)
        /\ ~ In a (use_cases r)).
Proof.
  split; [exact init_blacklist_stored|].
  split; [intros bl names; apply add_actor_blacklist_stored|].
  split.
  { intros bl t a Hin H. apply (is_actor_text_match bl t a Hin).
    apply actor_match_iff. exact H. }
  split.
  { intros self results thr r H.
    destruct (run_ocr_unfold self results thr r H) as (_ & _ & _ & Hf & Hc).
    split; [exact Hf|]. rewrite Hf, Hc, map_map. reflexivity. }
  intros self results thr r a Hin H.
  apply (run_ocr_not_actor self results thr r a H).
  apply is_actor_text_entry. exact Hin.
Qed.

Lemma blacklist_exclusion_witness :
  exists r,
    run_ocr example_ocr example_detections (3 # 10) = Ok r
    /\ Forall (fun u => uc_text u <> lit "actor1") (filtered_results r)
    /\ ~ In (lit "actor1") (use_cases r).
Proof.
  eexists. split; [vm_compute; reflexivity|].
  apply (proj2 (proj2 (proj2 (proj2 blacklist_exclusion)))
           example_ocr example_detections (3 # 10)).
  - left. reflexivity.
  - vm_compute. reflexivity.
Defined.

(** C2. Whatever the blacklist, [is_actor_text] is true of "<<include>>":
    without the markers "<<" and ">>" the lowercased text is "include",
    which contains the keyword "include".  So no record of the output of
    a run has the text "<<include>>". *)
Theorem include_stereotype_excluded :
  (let text_lower := strip (lower (lit "<<include>>")) in
   let text_clean :=
     strip (remove_pair ">" ">" (remove_pair "<" "<" text_lower)) in
   text_clean = lit "include"
   /\ contains (lit "include") text_clean = true)
  /\ (forall blacklist, is_actor_text blacklist (lit "<<include>>") = true)
  /\ (forall self results thr r,
        run_ocr self results thr = Ok r ->
        Forall (fun u => uc_text u <> lit "<<include>>") (filtered_results r)
        /\ ~ In (lit "<<include>>") (use_cases r)).
Proof.
  assert (H : forall blacklist, is_actor_text blacklist (lit "<<include>>") = true).
  { intros bl. unfold is_actor_text.
    destruct (existsb _ bl); reflexivity. }
  split; [split; reflexivity|].
  split; [exact H|].
  intros self results thr r Hr.
  apply (run_ocr_not_actor self results thr r _ Hr). apply H.
Qed.

Lemma include_stereotype_excluded_witness :
  exists r,
    run_ocr example_ocr
      ((rect 200 100 300 120, lit "<<include>>", 9 # 10) :: example_detections)
      (3 # 10) = Ok r
    /\ ~ In (lit "<<include>>") (use_cases r).
Proof.
  eexists. split; [vm_compute; reflexivity|].
  apply (proj2 (proj2 include_stereotype_excluded) example_ocr
           ((rect 200 100 300 120, lit "<<include>>", 9 # 10) :: example_detections)
           (3 # 10)).
  vm_compute. reflexivity.
Defined.

(* ================================================================= *)
(** ** Text relatedness *)

Lemma common_word_iff (t1 t2 : str) :
  existsb (fun word => (3 <? len word)%nat)
    (set_inter str_dec (str_set (split t1)) (str_set (split t2))) = true
  <-> exists w, In w (split t1) /\ In w (split t2) /\ (3 < len w)%nat.
Proof.
  rewrite existsb_exists. unfold str_set. split.
  - intros [w [Hin Hlen]]. apply set_inter_elim in Hin.
    destruct Hin as [H1 H2]. apply nodup_In in H1, H2.
    apply Nat.ltb_lt in Hlen. eauto.
  - intros [w (H1 & H2 & Hlen)]. exists w. split.
    + apply set_inter_intro; apply nodup_In; assumption.
    + apply Nat.ltb_lt. exact Hlen.
Qed.

(** Whenever [_should_merge_texts] returns, it returns the truth value of
    the test of the specification. *)
Lemma should_merge_texts_returns (text1 text2 : str) (b : bool) :
  _should_merge_texts text1 text2 = Ok b ->
  (b = true <-> related (strip (lower text1)) (strip (lower text2))).
Proof.
  unfold _should_merge_texts, related.
  set (t1 := strip (lower text1)). set (t2 := strip (lower text2)).
  destruct (contains t1 t2) eqn:C12.
  { simpl. intros H. injection H as <-. apply contains_spec in C12. tauto. }
  destruct (contains t2 t1) eqn:C21.
  { simpl. intros H. injection H as <-. apply contains_spec in C21. tauto. }
  simpl.
  assert (N12 : ~ substring t1 t2)
    by (intros H; apply contains_spec in H; congruence).
  assert (N21 : ~ substring t2 t1)
    by (intros H; apply contains_spec in H; congruence).
  pose proof (common_word_iff t1 t2) as Hw.
  destruct (isdigit t1) eqn:D1, (isdigit t2) eqn:D2; simpl.
  - destruct (int t1) as [n1|] eqn:I1; simpl; [|discriminate].
    destruct (int t2) as [n2|] eqn:I2; simpl; [|discriminate].
    destruct (Z.abs (n1 - n2) <=? 2)%Z eqn:E; intros H; injection H as <-.
    + apply Z.leb_le in E. split; [intros _|reflexivity].
      do 4 right. left. repeat split. exists n1, n2. auto.
    + apply Z.leb_gt in E. rewrite Hw. split.
      * intros H. do 5 right. exact H.
      * intros [H|[H|[[_ H]|[[_ H]|[(_ & _ & m1 & m2 & H1 & H2 & H)|H]]]]];
          try contradiction; try discriminate; [|exact H].
        injection H1 as <-. injection H2 as <-. lia.
  - intros H. injection H as <-. tauto.
  - intros H. injection H as <-. tauto.
  - intros H. injection H as <-. rewrite Hw. split.
    + intros H. do 5 right. exact H.
    + intros [H|[H|[[H _]|[[H _]|[(H & _)|H]]]]];
        try contradiction; try discriminate. exact H.
Qed.

Lemma int_acc_ok (s : str) :
  forallb isdecimal s = true -> forall acc, exists n, int_acc acc s = Ok n.
Proof.
  induction s as [|c s IH]; simpl; intros H acc.
  - eexists; reflexivity.
  - apply andb_true_iff in H. destruct H as [Hc Hs]. rewrite Hc. apply IH, Hs.
Qed.

Lemma int_ok (s : str) :
  decimal_digits s -> isdigit s = true -> exists n, int s = Ok n.
Proof.
  intros [Hs Hlen] Hd. unfold int, isdigit in *.
  destruct s as [|c s]; [discriminate|].
  replace (int_max_str_digits <? Z.of_nat (len (c :: s)))%Z with false
    by (symmetry; apply Z.ltb_ge; exact Hlen).
  apply int_acc_ok. apply forallb_forall. intros x Hx.
  rewrite Forall_forall in Hs. apply (Hs x Hx).
  rewrite forallb_forall in Hd. apply (Hd x Hx).
Qed.

Lemma digit_classes_lower_char (c : ascii) :
  isdigit_char (lower_char c) = isdigit_char c
  /\ isdecimal (lower_char c) = isdecimal c.
Proof. destruct c as [[] [] [] [] [] [] [] []]; split; reflexivity. Qed.

Lemma decimal_digits_lower (t : str) : decimal_digits t -> decimal_digits (lower t).
Proof.
  unfold decimal_digits, lower. intros [H Hlen]. split.
  - apply Forall_map.
    eapply Forall_impl; [|exact H]. intros c Hc.
    destruct (digit_classes_lower_char c) as [-> ->]. exact Hc.
  - unfold len in *. rewrite length_map. exact Hlen.
Qed.

Lemma decimal_digits_strip (t : str) : decimal_digits t -> decimal_digits (strip t).
Proof.
  unfold decimal_digits. intros [H Hlen].
  destruct (strip_substring t) as [pre [post Heq]]. rewrite Heq in H, Hlen.
  split.
  - apply Forall_app in H. destruct H as [_ H].
    apply Forall_app in H. destruct H as [H _]. exact H.
  - unfold len in *. rewrite !length_app in Hlen. lia.
Qed.

(** On texts whose digit characters are all decimal and that [int] is
    not too long for, [_should_merge_texts] returns. *)
Lemma should_merge_texts_ok (text1 text2 : str) :
  decimal_digits text1 -> decimal_digits text2 ->
  exists b, _should_merge_texts text1 text2 = Ok b.
Proof.
  intros H1 H2. unfold _should_merge_texts.
  apply decimal_digits_lower, decimal_digits_strip in H1, H2.
  set (t1 := strip (lower text1)) in *. set (t2 := strip (lower text2)) in *.
  destruct (contains t1 t2 || contains t2 t1); [eexists; reflexivity|].
  destruct (isdigit t1) eqn:D1, (isdigit t2) eqn:D2; simpl;
    try (eexists; reflexivity).
  destruct (int_ok t1 H1 D1) as [n1 ->], (int_ok t2 H2 D2) as [n2 ->]. simpl.
  destruct (Z.abs (n1 - n2) <=? 2)%Z; eexists; reflexivity.
Qed.

(** C4. On two superscript twos and two superscript threes
    [_should_merge_texts] raises [ValueError] instead of returning a
    truth value: both strings pass [isdigit], neither contains the other,
    and [int] rejects them. *)
Theorem should_merge_texts_raises :
  let t1 := [superscript_two; superscript_two] in
  let t2 := [superscript_three; superscript_three] in
  strip (lower t1) = t1 /\ strip (lower t2) = t2
  /\ contains t1 t2 = false /\ contains t2 t1 = false
  /\ isdigit t1 = true /\ isdigit t2 = true
  /\ int t1 = ValueError
  /\ _should_merge_texts t1 t2 = ValueError.
Proof. repeat split. Qed.

(* ================================================================= *)
(** ** The pipeline returns on decimal text *)

Lemma should_merge_ok (thr : Q) (ri rj : prepared) :
  decimal_digits (text (res ri)) -> decimal_digits (text (res rj)) ->
  exists b, should_merge thr ri rj = Ok b.
Proof.
  intros Hi Hj. unfold should_merge.
  destruct (Qlt_b thr _); [eexists; reflexivity|].
  destruct (_ && _); [|eexists; reflexivity].
  apply should_merge_texts_ok; assumption.
Qed.

Lemma inner_loop_ok (thr : Q) (ri : prepared) (later : list (nat * prepared)) :
  decimal_digits (text (res ri)) ->
  Forall (fun p => decimal_digits (text (res p))) (map snd later) ->
  forall group used, exists gu, inner_loop thr ri later group used = Ok gu.
Proof.
  intros Hi. induction later as [|[j rj] later IH]; simpl; intros Hall group used.
  - eexists; reflexivity.
  - inversion Hall as [|? ? Hj Hrest]; subst.
    destruct (set_mem Nat.eq_dec j used); [apply IH; exact Hrest|].
    destruct (should_merge_ok thr ri rj Hi Hj) as [b ->]. simpl.
    destruct b; apply IH; exact Hrest.
Qed.

Lemma outer_loop_ok (thr : Q) (todo : list (nat * prepared)) :
  Forall (fun p => decimal_digits (text (res p))) (map snd todo) ->
  forall groups used, exists out, outer_loop thr todo groups used = Ok out.
Proof.
  induction todo as [|[i ri] later IH]; simpl; intros Hall groups used.
  - eexists; reflexivity.
  - inversion Hall as [|? ? Hi Hrest]; subst.
    destruct (set_mem Nat.eq_dec i used); [apply IH; exact Hrest|].
    destruct (inner_loop_ok thr ri later Hi Hrest [ri]
                (set_add Nat.eq_dec i used)) as [[g u] ->].
    simpl. destruct g; apply IH; exact Hrest.
Qed.

Lemma merge_similar_boxes_ok (results : list result) (thr : Q) :
  Forall (fun r => decimal_digits (text r)) results ->
  exists out, _merge_similar_boxes results thr = Ok out.
Proof.
  intros Hall. unfold _merge_similar_boxes.
  destruct results as [|r0 results0] eqn:Eres; [eexists; reflexivity|].
  rewrite <- Eres in *. clear Eres r0 results0.
  assert (Hs : Forall (fun p => decimal_digits (text (res p)))
                 (sorted_results results)).
  { apply Forall_forall. intros p Hp.
    rewrite Forall_forall in Hall. apply Hall.
    apply (Permutation_in _ (sorted_results_res results)).
    apply in_map. exact Hp. }
  destruct (outer_loop_ok thr (enumerate (sorted_results results)))
    with (groups := @nil (list prepared)) (used := empty_set nat)
    as [groups Hg].
  { rewrite enumerate_snd. exact Hs. }
  fold (build_groups results thr) in Hg. rewrite Hg. simpl.
  destruct (build_groups_partition results thr groups Hg) as [_ Hne].
  apply merge_groups_ok. exact Hne.
Qed.

Lemma process_results_decimal (self : ocr) (thr : Q) (results : list detection) :
  Forall (fun d => decimal_digits (snd (fst d))) results ->
  forall acc,
    Forall (fun r => decimal_digits (text r)) acc ->
    Forall (fun r => decimal_digits (text r)) (process_results self thr results acc).
Proof.
  induction 1 as [|[[b t] c] results Hd Hall IH]; simpl; intros acc Hacc.
  - exact Hacc.
  - destruct (Qlt_b c thr); [apply IH; exact Hacc|].
    destruct (_ <? 2)%nat; [apply IH; exact Hacc|].
    apply IH. apply Forall_app. split; [exact Hacc|].
    constructor; [|constructor]. simpl. apply decimal_digits_strip. exact Hd.
Qed.

(** A run returns when every digit character of the recognised texts is
    a decimal digit and no text is longer than [int] converts. *)
Theorem run_ocr_returns (self : ocr) (results : list detection) (thr : Q) :
  Forall (fun d => decimal_digits (snd (fst d))) results ->
  exists r, run_ocr self results thr = Ok r.
Proof.
  intros Hall. unfold run_ocr.
  destruct (merge_similar_boxes_ok (process_results self thr results []) (1 # 5))
    as [m ->].
  { apply process_results_decimal; [exact Hall | constructor]. }
  simpl. destruct (filter_actors _ _ _ _). eexists; reflexivity.
Qed.

(* ################################################################# *)
(** * Further properties *)

(* ================================================================= *)
(** ** Normaliser *)

Lemma process_results_filter_map (self : ocr) (thr : Q) (results : list detection) :
  forall acc,
    process_results self thr results acc
    = acc ++ map (normalised self) (filter (survives thr) results).
Proof.
  induction results as [|[[b t] c] results IH]; intros acc; simpl.
  - rewrite app_nil_r. reflexivity.
  - destruct (Qlt_b c thr); simpl; [apply IH|].
    destruct (len (strip t) <? 2)%nat; simpl; [apply IH|].
    rewrite IH, <- app_assoc. reflexivity.
Qed.

(** X1. The normaliser keeps, in their order, exactly the detections
    whose confidence is at least the threshold and whose trimmed text has
    at least two characters; each record it makes has the trimmed text,
    the confidence of the detection, the expanded box, the original box
    under [original_bbox], and no [merged_from]. *)
Theorem normaliser_spec (self : ocr) (thr : Q) (results : list detection) :
  let processed := process_results self thr results [] in
  processed = map (normalised self) (filter (survives thr) results)
  /\ (forall b t c,
        In (b, t, c) results -> thr <= c -> (2 <= len (strip t))%nat ->
        In (normalised self (b, t, c)) processed)
  /\ Forall (fun r =>
               thr <= confidence r
               /\ (2 <= len (text r))%nat
               /\ strip (text r) = text r
               /\ merged_from r = None
               /\ exists b t,
                    In (b, t, confidence r) results
                    /\ text r = strip t
                    /\ original_bbox r = Some b
                    /\ bbox r = _expand_bbox (width self) (height self) b 30 25)
            processed.
Proof.
  intros processed.
  assert (Heq : processed = map (normalised self) (filter (survives thr) results)).
  { unfold processed. rewrite process_results_filter_map. reflexivity. }
  split; [exact Heq|]. split.
  - intros b t c Hin Hc Hlen. rewrite Heq. apply in_map. apply filter_In.
    split; [exact Hin|]. simpl. apply andb_true_iff. split.
    + apply negb_true_iff, Qlt_b_false. exact Hc.
    + apply negb_true_iff, Nat.ltb_ge. exact Hlen.
  - rewrite Heq. apply Forall_forall. intros r Hr.
    apply in_map_iff in Hr. destruct Hr as [[[b t] c] [<- Hd]].
    apply filter_In in Hd. destruct Hd as [Hin Hs]. simpl in Hs.
    apply andb_true_iff in Hs. destruct Hs as [Hc Hlen].
    apply negb_true_iff in Hc, Hlen.
    apply Qlt_b_false in Hc. apply Nat.ltb_ge in Hlen.
    simpl. repeat split; try assumption.
    + apply strip_idem.
    + exists b, t. auto.
Qed.

Lemma normaliser_spec_witness :
  In (normalised example_ocr (rect 300 300 400 320, lit "Crear pedido", 6 # 10))
     (process_results example_ocr (3 # 10) example_detections []).
Proof.
  apply (proj1 (proj2 (normaliser_spec example_ocr (3 # 10) example_detections))).
  - right. right. left. reflexivity.
  - discriminate.
  - simpl. lia.
Defined.

(** X2. When no detection passes the normaliser (its confidence is below
    the threshold or its trimmed text is shorter than two characters),
    and so on an empty input, the run returns and every list of it is
    empty. *)
Theorem run_ocr_nothing_survives (self : ocr) (results : list detection) (thr : Q) :
  Forall (fun d => rejected thr d) results ->
  run_ocr self results thr = Ok (Run [] [] [] [] []).
Proof.
  intros H. unfold run_ocr.
  rewrite process_results_filter_map.
  replace (filter (survives thr) results) with (@nil detection); [reflexivity|].
  symmetry. induction H as [|[[b t] c] results Hd Hall IH]; [reflexivity|].
  simpl. unfold rejected in Hd. simpl in Hd.
  destruct Hd as [Hd | Hd].
  - apply Qlt_b_true in Hd. rewrite Hd. simpl. exact IH.
  - apply Nat.ltb_lt in Hd. rewrite Hd, andb_false_r. exact IH.
Qed.

Lemma run_ocr_nothing_survives_witness :
  run_ocr example_ocr
    [ (rect 10 10 50 20, lit "x", 9 # 10);
      (rect 10 40 50 60, lit "Crear pedido", 1 # 10) ] (3 # 10)
  = Ok (Run [] [] [] [] []).
Proof.
  apply run_ocr_nothing_survives.
  constructor; [right; simpl; lia|].
  constructor; [left; reflexivity | constructor].
Defined.

(* ================================================================= *)
(** ** Confidence along a run *)

Lemma mean_bounds (lo hi : Q) (l : list Q) :
  (0 < len l)%nat ->
  Forall (fun x => lo <= x /\ x <= hi) l ->
  lo <= mean l /\ mean l <= hi.
Proof.
  intros Hn Hall. pose proof (Qnat_pos _ Hn) as Hpos. unfold mean.
  assert (H : lo * Qnat (len l) <= Qtotal l /\ Qtotal l <= hi * Qnat (len l)).
  { clear Hn Hpos. induction Hall as [|x l [Hlo Hhi] Hall [IHlo IHhi]].
    - unfold Qtotal, Qnat. simpl. split; ring_simplify; apply Qle_refl.
    - change (len (x :: l)) with (S (len l)). rewrite Qnat_S.
      unfold Qtotal in *. simpl. split.
      + ring_simplify. ring_simplify in IHlo. lra.
      + ring_simplify. ring_simplify in IHhi. lra. }
  destruct H as [Hlo Hhi]. split.
  - apply Qle_shift_div_l; assumption.
  - apply Qle_shift_div_r; assumption.
Qed.

Lemma rounding_slack_mono (n k : nat) :
  (n <= k)%nat -> 0 <= rounding_slack n /\ rounding_slack n <= rounding_slack k.
Proof.
  intros H. unfold rounding_slack.
  pose proof (pow2_pos (-53)) as Hu. set (u := 2 ^ (-53)) in *.
  split.
  - apply Qmult_le_0_compat; [apply Qnat_nonneg | lra].
  - apply Qmult_le_compat_r; [|lra]. unfold Qnat. rewrite <- Zle_Qle. lia.
Qed.

(** The confidence of the record made of a group whose confidences lie
    in [[0, 1]] and are at least [lo]. *)
Lemma merge_group_confidence (lo : Q) (g : list prepared) (m : result) :
  Forall (fun p => confidence_from lo (res p)) g ->
  (Z.of_nat (len g) < 2 ^ 53)%Z ->
  merge_group g = Ok m ->
  confidence_from (lo - rounding_slack (len g)) m.
Proof.
  intros Hall Hlim Hm.
  destruct (rounding_slack_mono (len g) (len g) (Nat.le_refl _)) as [Hs _].
  destruct g as [|r [|r' rs]].
  - discriminate.
  - simpl in Hm. injection Hm as <-. inversion Hall as [|? ? [H1 H2] _]; subst.
    split; [lra | exact H2].
  - rewrite merge_group_unfold in Hm. injection Hm as <-.
    unfold confidence_from. cbn [confidence].
    set (g := r :: r' :: rs) in *.
    assert (Hlen : (1 < len g)%nat) by (unfold g; simpl; lia).
    destruct (merged_confidence_near_mean g Hlen) as [Hu Hnear];
      [eapply Forall_impl; [|exact Hall]; intros p Hp; apply Hp | exact Hlim |].
    split; [|exact Hu].
    destruct (mean_bounds lo 1 (map (fun p => confidence (res p)) g))
      as [Hlo _].
    { unfold len. rewrite length_map. fold (len g). lia. }
    { apply Forall_map. eapply Forall_impl; [|exact Hall].
      intros p [H1 [_ H2]]. split; assumption. }
    assert (G : lo - rounding_slack (len g)
                <= float_div
                     (float_sum (map (fun p => confidence (res p)) g))
                     (Qnat (len g)))
      by (revert Hnear; apply Qabs_case; intros; lra).
    exact G.
Qed.

Lemma concat_len {A : Type} (groups : list (list A)) (g : list A) :
  In g groups -> (len g <= len (List.concat groups))%nat.
Proof.
  unfold len. induction groups as [|x groups IH]; simpl; [contradiction|].
  intros [<- | Hin]; rewrite length_app; [lia|].
  specialize (IH Hin). lia.
Qed.

Lemma Forall2_In_l {A B : Type} (R : A -> B -> Prop) (l1 : list A) (l2 : list B)
    (b : B) :
  Forall2 R l1 l2 -> In b l2 -> exists a, In a l1 /\ R a b.
Proof.
  induction 1 as [|x y l1 l2 Hxy Hall IH]; simpl; intros Hin; [contradiction|].
  destruct Hin as [<- | Hin]; [eauto|].
  destruct (IH Hin) as [a [Ha HR]]. eauto.
Qed.

Lemma Forall2_In_r {A B : Type} (R : A -> B -> Prop) (l1 : list A) (l2 : list B)
    (a : A) :
  Forall2 R l1 l2 -> In a l1 -> exists b, In b l2 /\ R a b.
Proof.
  induction 1 as [|x y l1 l2 Hxy Hall IH]; simpl; intros Hin; [contradiction|].
  destruct Hin as [<- | Hin]; [eauto|].
  destruct (IH Hin) as [b [Hb HR]]. eauto.
Qed.

(** Every member of a group is the prepared form of an input record. *)
Lemma group_member_input (results : list result) (thr : Q)
    (groups : list (list prepared)) (g : list prepared) (p : prepared) :
  build_groups results thr = Ok groups -> In g groups -> In p g ->
  In p (sorted_results results) /\ In (res p) results.
Proof.
  intros Hg Hgin Hp.
  destruct (build_groups_partition results thr groups Hg) as [Hperm _].
  assert (Hs : In p (sorted_results results)).
  { apply (Permutation_in _ Hperm). apply in_concat. eauto. }
  split; [exact Hs|].
  apply (Permutation_in _ (sorted_results_res results)). apply in_map. exact Hs.
Qed.

Lemma merge_similar_boxes_confidence (lo : Q) (results : list result)
    (thr : Q) (out : list result) :
  Forall (confidence_from lo) results ->
  (Z.of_nat (len results) < 2 ^ 53)%Z ->
  _merge_similar_boxes results thr = Ok out ->
  Forall (confidence_from (lo - rounding_slack (len results))) out.
Proof.
  intros Hall Hlim Hout.
  destruct (merge_similar_boxes_groups results thr out Hout) as [groups [Hg HF]].
  apply Forall_forall. intros m Hm.
  destruct (Forall2_In_l _ _ _ m HF Hm) as [g [Hgin Hmg]].
  assert (Hlen : (len g <= len results)%nat).
  { destruct (build_groups_partition results thr groups Hg) as [Hperm _].
    rewrite <- sorted_results_len. unfold len at 2.
    rewrite <- (Permutation_length Hperm). apply concat_len. exact Hgin. }
  destruct (merge_group_confidence lo g m) as [H1 H2]; [| lia | exact Hmg |].
  - apply Forall_forall. intros p Hp.
    rewrite Forall_forall in Hall. apply Hall.
    apply (group_member_input results thr groups g p Hg Hgin Hp).
  - destruct (rounding_slack_mono _ _ Hlen) as [_ Hs].
    split; [lra | exact H2].
Qed.

Lemma remove_duplicate_cases_In (results : list result) (thr : Q) (r : result) :
  In r (_remove_duplicate_cases results thr) -> In r results.
Proof.
  unfold _remove_duplicate_cases. destruct results as [|x results]; [tauto|].
  intros H.
  apply (Permutation_in _ (sort_by_confidence_perm (x :: results))).
  eapply subseq_In; [apply dedup_loop_subseq | exact H].
Qed.

(** X3. Along a run that returns on detections whose confidences lie
    in [[0, 1]], the confidence of every record lies in [[0, 1]]; after
    normalisation it is at least the confidence threshold; after merging,
    after deduplication and in the final output it is at least the
    threshold less the rounding slack of the average, [n + 3] times
    [2 ^ -53] for [n] detections: the binary64 average of a merged
    record can fall below the threshold, but by rounding only. *)
Theorem run_confidence_range (self : ocr) (results : list detection)
    (thr : Q) (r : run) :
  Forall (fun d => unit_range (snd d)) results ->
  (Z.of_nat (len results) < 2 ^ 53)%Z ->
  run_ocr self results thr = Ok r ->
  let slack := rounding_slack (len results) in
  Forall (confidence_from thr) (processed r)
  /\ Forall (confidence_from (thr - slack)) (merged r)
  /\ Forall (confidence_from (thr - slack)) (unique r)
  /\ Forall (fun u => thr - slack <= uc_confidence u
                      /\ unit_range (uc_confidence u))
            (filtered_results r).
Proof.
  intros Hunit Hlim Hrun slack.
  destruct (run_ocr_unfold self results thr r Hrun) as (Hp & Hm & Hu & Hf & _).
  assert (H1 : Forall (confidence_from thr) (processed r)).
  { rewrite Hp, process_results_filter_map. simpl.
    apply Forall_forall. intros x Hx.
    apply in_map_iff in Hx. destruct Hx as [[[b t] c] [<- Hd]].
    apply filter_In in Hd. destruct Hd as [Hin Hs]. simpl in Hs.
    apply andb_true_iff in Hs. destruct Hs as [Hc _].
    apply negb_true_iff, Qlt_b_false in Hc.
    rewrite Forall_forall in Hunit. split; [exact Hc | apply (Hunit _ Hin)]. }
  assert (Hlen : (len (processed r) <= len results)%nat).
  { rewrite Hp. apply (process_results_len self thr results []). }
  assert (H2 : Forall (confidence_from (thr - slack)) (merged r)).
  { pose proof (merge_similar_boxes_confidence thr (processed r) (1 # 5)
                  (merged r) H1) as H.
    specialize (H ltac:(lia) Hm).
    eapply Forall_impl; [|exact H]. intros x [Hx1 Hx2].
    destruct (rounding_slack_mono _ _ Hlen) as [_ Hs].
    split; [unfold slack; lra | exact Hx2]. }
  assert (H3 : Forall (confidence_from (thr - slack)) (unique r)).
  { rewrite Hu. apply Forall_forall. intros x Hx.
    apply remove_duplicate_cases_In in Hx.
    rewrite Forall_forall in H2. apply (H2 x Hx). }
  repeat split; try assumption.
  rewrite Hf. apply Forall_forall. intros u Hu'.
  apply in_map_iff in Hu'. destruct Hu' as [x [<- Hx]].
  apply kept_not_actor in Hx. destruct Hx as [Hx _].
  rewrite Forall_forall in H3. apply (H3 x Hx).
Qed.

Lemma run_confidence_range_witness :
  exists r,
    run_ocr example_ocr example_detections (3 # 10) = Ok r
    /\ Forall (fun u => (3 # 10) - rounding_slack 3 <= uc_confidence u
                        /\ unit_range (uc_confidence u))
              (filtered_results r).
Proof.
  eexists. split; [vm_compute; reflexivity|].
  apply (run_confidence_range example_ocr example_detections (3 # 10)).
  - repeat constructor; discriminate.
  - reflexivity.
  - vm_compute. reflexivity.
Defined.

(* ================================================================= *)
(** ** What merging keeps *)

Lemma substring_refl (s : str) : substring s s.
Proof. exists [], []. simpl. rewrite app_nil_r. reflexivity. Qed.

Lemma substring_trans (a b c : str) :
  substring a b -> substring b c -> substring a c.
Proof.
  intros [p1 [q1 ->]] [p2 [q2 ->]]. exists (p2 ++ p1), (q1 ++ q2).
  rewrite <- !app_assoc. reflexivity.
Qed.

Lemma join_contains (sep s : str) (l : list str) :
  In s l -> substring s (join sep l).
Proof.
  induction l as [|x l IH]; simpl; [contradiction|].
  intros [-> | Hin].
  - destruct l as [|y l]; [apply substring_refl|].
    exists [], (sep ++ join sep (y :: l)). reflexivity.
  - destruct l as [|y l]; [destruct Hin|].
    destruct (IH Hin) as [pre [post Heq]].
    exists (x ++ sep ++ pre), post. rewrite Heq, <- !app_assoc. reflexivity.
Qed.

Lemma rect_envelope (l t r b : Q) :
  bbox_x_min (rect l t r b) <= l /\ r <= bbox_x_max (rect l t r b)
  /\ bbox_y_min (rect l t r b) <= t /\ b <= bbox_y_max (rect l t r b).
Proof.
  unfold bbox_x_min, bbox_x_max, bbox_y_min, bbox_y_max, rect.
  cbn [pt0 pt1 pt2 pt3 fst snd].
  repeat split.
  - apply min_ne_le_acc.
  - apply max_ne_upper. right. left. reflexivity.
  - apply min_ne_le_acc.
  - apply max_ne_upper. right. right. left. reflexivity.
Qed.

Lemma merge_group_keeps (g : list prepared) (m : result) (p : prepared) :
  merge_group g = Ok m -> In p g -> envelope_of_box p ->
  substring (text (res p)) (text m) /\ envelope_within (res p) m.
Proof.
  intros Hm Hp Henv. destruct g as [|r [|r' rs]].
  - discriminate.
  - simpl in Hm. injection Hm as <-. destruct Hp as [<- | []].
    split; [apply substring_refl|].
    unfold envelope_within. repeat split; apply Qle_refl.
  - rewrite merge_group_unfold in Hm. injection Hm as <-.
    cbn [text bbox]. set (g := r :: r' :: rs) in *. split.
    + apply join_contains. apply (in_map (fun q => text (res q))).
      apply (Permutation_in _ (Permutation_sym
               (py_sort_perm (fun a b => Qlt_b (x_min a) (x_min b)) g))).
      exact Hp.
    + destruct (merged_envelope r (r' :: rs)) as [Hcov _].
      rewrite Forall_forall in Hcov. specialize (Hcov p Hp).
      destruct Hcov as (H1 & H2 & H3 & H4).
      destruct Henv as (E1 & E2 & E3 & E4).
      match goal with
      | |- envelope_within _ {| bbox := rect ?l ?t ?rr ?b |} =>
          destruct (rect_envelope l t rr b) as (R1 & R2 & R3 & R4)
      end.
      unfold envelope_within. cbn [bbox].
      rewrite <- E1, <- E2, <- E3, <- E4. repeat split.
      * eapply Qle_trans; [exact R1 | exact H1].
      * eapply Qle_trans; [exact H2 | exact R2].
      * eapply Qle_trans; [exact R3 | exact H3].
      * eapply Qle_trans; [exact H4 | exact R4].
Qed.

(** X4. Merging loses no detection: when [_merge_similar_boxes] returns,
    every record of its input has a record in the output whose text
    contains its text and whose box envelope contains its box
    envelope. *)
Theorem merge_similar_boxes_keeps (results : list result) (thr : Q)
    (out : list result) :
  _merge_similar_boxes results thr = Ok out ->
  forall r, In r results ->
    exists m, In m out /\ substring (text r) (text m) /\ envelope_within r m.
Proof.
  intros Hout r Hr.
  destruct (merge_similar_boxes_groups results thr out Hout) as [groups [Hg HF]].
  destruct (build_groups_partition results thr groups Hg) as [Hperm _].
  apply (Permutation_in _ (Permutation_sym (sorted_results_res results))) in Hr.
  apply in_map_iff in Hr. destruct Hr as [p [<- Hp]].
  assert (Henv : envelope_of_box p) by (apply (sorted_results_envelope results), Hp).
  apply (Permutation_in _ (Permutation_sym Hperm)) in Hp.
  apply in_concat in Hp. destruct Hp as [g [Hgin Hpg]].
  destruct (Forall2_In_r _ _ _ g HF Hgin) as [m [Hm Hmg]].
  exists m. split; [exact Hm|].
  apply (merge_group_keeps g m p Hmg Hpg Henv).
Qed.

Lemma merge_similar_boxes_keeps_witness :
  exists m,
    In m [Result (rect 10 10 200 30) (lit "44 Eliminar tipo de fuente")
                 (float_div (float_sum [9 # 10; 8 # 10]) 2) None
                 (Some 2%nat)]
    /\ substring (text fragment_44) (text m)
    /\ envelope_within fragment_44 m.
Proof.
  apply (merge_similar_boxes_keeps [fragment_44; fragment_eliminar] (1 # 5)).
  - vm_compute. reflexivity.
  - left. reflexivity.
Defined.

(* ================================================================= *)
(** ** Shape of the groups *)

Lemma position_ge_iff (a b : prepared) :
  position_lt b a = false <-> reading_order a b.
Proof.
  unfold position_lt, reading_order.
  destruct (Qeq_bool (y_min b) (y_min a)) eqn:E; simpl.
  - apply Qeq_bool_iff in E. rewrite Qlt_b_false. split.
    + intros H. right. split; [symmetry; exact E | exact H].
    + intros [H | [_ H]]; [lra | exact H].
  - apply Qeq_bool_neq in E. rewrite Qlt_b_false. split.
    + intros H. left. apply Qle_lteq in H. destruct H as [H | H]; [exact H|].
      exfalso. apply E. symmetry. exact H.
    + intros [H | [H _]]; [lra | exfalso; apply E; symmetry; exact H].
Qed.

Lemma sorted_results_reading_order (results : list result) :
  StronglySorted reading_order (sorted_results results).
Proof.
  unfold sorted_results.
  eapply sorted_weaken; [|apply (py_sort_sorted position_lt)].
  - intros a b H. apply position_ge_iff. exact H.
  - intros a b H. unfold position_lt in *.
    destruct (Qeq_bool (y_min a) (y_min b)) eqn:E1,
             (Qeq_bool (y_min b) (y_min a)) eqn:E2; simpl in *;
      apply Qlt_b_true in H; apply Qlt_b_false.
    + lra.
    + apply Qeq_bool_iff in E1. apply Qeq_bool_neq in E2.
      exfalso. apply E2. symmetry. exact E1.
    + apply Qeq_bool_iff in E2. apply Qeq_bool_neq in E1.
      exfalso. apply E1. symmetry. exact E2.
    + lra.
  - intros a b c H1 H2. apply position_ge_iff.
    apply position_ge_iff in H1, H2. unfold reading_order in *.
    destruct H1 as [H1 | [H1 H1']], H2 as [H2 | [H2 H2']].
    + left. lra.
    + left. lra.
    + left. lra.
    + right. split; lra.
Qed.

Lemma subseq_app_l {A : Type} (before l1 l2 : list A) :
  subseq l1 l2 -> subseq l1 (before ++ l2).
Proof.
  intros H. induction before as [|x before IH]; simpl; [exact H|].
  constructor. exact IH.
Qed.

(** The records that the inner loop appends passed the test against the
    seed, and they are appended in the order of the list. *)
Lemma inner_loop_members (thr : Q) (ri : prepared) (later : list (nat * prepared)) :
  forall group used group' used',
    inner_loop thr ri later group used = Ok (group', used') ->
    exists taken,
      group' = group ++ taken
      /\ Forall (fun m => should_merge thr ri m = Ok true) taken
      /\ subseq taken (map snd later).
Proof.
  induction later as [|[j rj] later IH]; intros group used group' used' H;
    simpl in H.
  - injection H as <- <-. exists []. rewrite app_nil_r.
    repeat split; constructor.
  - destruct (set_mem Nat.eq_dec j used).
    + destruct (IH _ _ _ _ H) as (taken & Hg & Hall & Hs).
      exists taken. repeat split; try assumption. constructor. exact Hs.
    + destruct (should_merge thr ri rj) as [[|]|] eqn:Em; simpl in H;
        [| |discriminate].
      * destruct (IH _ _ _ _ H) as (taken & Hg & Hall & Hs).
        exists (rj :: taken). rewrite Hg, <- app_assoc.
        repeat split; [constructor; assumption | constructor; exact Hs].
      * destruct (IH _ _ _ _ H) as (taken & Hg & Hall & Hs).
        exists taken. repeat split; try assumption. constructor. exact Hs.
Qed.

Lemma sorted_head_topmost (seed : prepared) (members all : list prepared) :
  StronglySorted reading_order all -> subseq (seed :: members) all ->
  Forall (fun m => y_min seed <= y_min m) members.
Proof.
  intros Hs Hsub.
  pose proof (subseq_sorted _ _ _ Hsub Hs) as Hg.
  inversion Hg as [|? ? _ Hall]; subst.
  eapply Forall_impl; [|exact Hall].
  intros m [H | [H _]]; lra.
Qed.

Lemma outer_loop_seeded (thr : Q) (all : list prepared)
    (todo : list (nat * prepared)) :
  StronglySorted reading_order all ->
  forall before groups used out,
    all = before ++ map snd todo ->
    Forall (seeded_group thr all) groups ->
    outer_loop thr todo groups used = Ok out ->
    Forall (seeded_group thr all) out.
Proof.
  intros Hsorted.
  induction todo as [|[i ri] later IH]; intros before groups used out Hall Hgs H;
    simpl in H.
  - injection H as <-. exact Hgs.
  - assert (Hall' : all = (before ++ [ri]) ++ map snd later)
      by (rewrite <- app_assoc; exact Hall).
    destruct (set_mem Nat.eq_dec i used); [apply (IH _ _ _ _ Hall' Hgs H)|].
    destruct (inner_loop thr ri later [ri] (set_add Nat.eq_dec i used))
      as [[group used']|] eqn:Einner; simpl in H; [|discriminate].
    destruct (inner_loop_members _ _ _ _ _ _ _ Einner) as (taken & -> & Hm & Hs).
    simpl in H. apply (IH _ _ _ _ Hall') in H; [exact H|].
    apply Forall_app. split; [exact Hgs|]. constructor; [|constructor].
    assert (Hsub : subseq (ri :: taken) all).
    { rewrite Hall. apply subseq_app_l. simpl. apply subseq_keep. exact Hs. }
    exists ri, taken. repeat split; try assumption.
    apply (sorted_head_topmost ri taken all Hsorted Hsub).
Qed.

(** X5. The merger works on the records sorted in reading order (top to
    bottom, then left to right).  Each group it builds is a seed followed
    by records that passed the merge test against the seed itself, not
    against one another; the members keep the order of the sorted list,
    and the seed is the topmost of them. *)
Theorem build_groups_seeded (results : list result) (thr : Q)
    (groups : list (list prepared)) :
  build_groups results thr = Ok groups ->
  StronglySorted reading_order (sorted_results results)
  /\ Forall (seeded_group thr (sorted_results results)) groups.
Proof.
  intros H. split; [apply sorted_results_reading_order|].
  unfold build_groups in H.
  apply (outer_loop_seeded thr (sorted_results results) _
           (sorted_results_reading_order results) [] [] _ groups) in H.
  - exact H.
  - rewrite enumerate_snd. reflexivity.
  - constructor.
Qed.

Lemma build_groups_seeded_witness :
  Forall (seeded_group (1 # 5) (sorted_results [fragment_eliminar; fragment_44]))
         [[prepare (1%nat, fragment_44); prepare (0%nat, fragment_eliminar)]].
Proof.
  apply (build_groups_seeded [fragment_eliminar; fragment_44] (1 # 5)).
  vm_compute. reflexivity.
Defined.

(* ================================================================= *)
(** ** Symmetry of the text tests *)

Lemma bool_eq_iff (b1 b2 : bool) : (b1 = true <-> b2 = true) -> b1 = b2.
Proof. destruct b1, b2; intros [H1 H2]; auto; try (symmetry; auto). Qed.

Lemma common_word_comm (t1 t2 : str) :
  existsb (fun word => (3 <? len word)%nat)
    (set_inter str_dec (str_set (split t1)) (str_set (split t2)))
  = existsb (fun word => (3 <? len word)%nat)
      (set_inter str_dec (str_set (split t2)) (str_set (split t1))).
Proof.
  apply bool_eq_iff. rewrite !common_word_iff.
  split; intros [w (H1 & H2 & H3)]; exists w; auto.
Qed.

(** X6. [_should_merge_texts] is symmetric: with its arguments exchanged
    it returns the same truth value, or raises as well. *)
Theorem should_merge_texts_comm (text1 text2 : str) :
  _should_merge_texts text1 text2 = _should_merge_texts text2 text1.
Proof.
  unfold _should_merge_texts.
  set (t1 := strip (lower text1)). set (t2 := strip (lower text2)).
  rewrite (orb_comm (contains t2 t1)).
  destruct (contains t1 t2 || contains t2 t1); [reflexivity|].
  rewrite (common_word_comm t2 t1).
  destruct (isdigit t1), (isdigit t2); simpl; try reflexivity.
  destruct (int t1) as [n1|], (int t2) as [n2|]; simpl; try reflexivity.
  replace (Z.abs (n2 - n1)) with (Z.abs (n1 - n2)) by lia.
  reflexivity.
Qed.

Lemma str_set_NoDup (l : list str) : NoDup (str_set l).
Proof. apply NoDup_nodup. Qed.

Lemma set_inter_len_comm (x y : set str) :
  NoDup x -> NoDup y ->
  len (set_inter str_dec x y) = len (set_inter str_dec y x).
Proof.
  intros Hx Hy. unfold len. apply Permutation_length.
  apply NoDup_Permutation.
  - apply set_inter_nodup; assumption.
  - apply set_inter_nodup; assumption.
  - intros w. rewrite !set_inter_iff. tauto.
Qed.

Lemma set_union_len_comm (x y : set str) :
  NoDup x -> NoDup y ->
  len (set_union str_dec x y) = len (set_union str_dec y x).
Proof.
  intros Hx Hy. unfold len. apply Permutation_length.
  apply NoDup_Permutation.
  - apply set_union_nodup; assumption.
  - apply set_union_nodup; assumption.
  - intros w. rewrite !set_union_iff. tauto.
Qed.

Lemma text_similarity_comm (t1 t2 : str) :
  text_similarity t1 t2 = text_similarity t2 t1.
Proof.
  unfold text_similarity.
  set (a := strip (lower t1)). set (b := strip (lower t2)).
  rewrite (orb_comm (contains b a)).
  destruct (contains a b || contains b a); [reflexivity|].
  pose proof (set_inter_len_comm _ _ (str_set_NoDup (split a))
                (str_set_NoDup (split b))) as Hi.
  pose proof (set_union_len_comm _ _ (str_set_NoDup (split a))
                (str_set_NoDup (split b))) as Hu.
  destruct (str_set (split a)) as [|x xs], (str_set (split b)) as [|y ys];
    try reflexivity.
  rewrite Hi, Hu. reflexivity.
Qed.

Lemma text_similarity_range (t1 t2 : str) :
  0 <= text_similarity t1 t2 /\ text_similarity t1 t2 <= 1.
Proof.
  unfold text_similarity.
  destruct (_ || _); [split; discriminate|].
  set (w1 := str_set (split (strip (lower t1)))).
  set (w2 := str_set (split (strip (lower t2)))).
  assert (N1 : NoDup w1) by apply str_set_NoDup.
  assert (N2 : NoDup w2) by apply str_set_NoDup.
  destruct w1 as [|x xs] eqn:E1; [split; discriminate|].
  destruct w2 as [|y ys] eqn:E2; [split; discriminate|].
  rewrite <- E1, <- E2 in *.
  assert (Hpos : (0 < len (set_union str_dec w1 w2))%nat).
  { assert (Hin : In x (set_union str_dec w1 w2)).
    { apply set_union_intro1. rewrite E1. left. reflexivity. }
    unfold len. destruct (set_union str_dec w1 w2); [destruct Hin | simpl; lia]. }
  assert (Hle : (len (set_inter str_dec w1 w2) <= len (set_union str_dec w1 w2))%nat).
  { unfold len. apply NoDup_incl_length.
    - apply set_inter_nodup; assumption.
    - intros w Hw. apply set_inter_elim1 in Hw. apply set_union_intro1. exact Hw. }
  pose proof (Qnat_pos _ Hpos) as Hq.
  split.
  - apply Qle_shift_div_l; [exact Hq|]. ring_simplify.
    unfold Qnat, Qle. simpl. lia.
  - apply Qle_shift_div_r; [exact Hq|]. ring_simplify.
    unfold Qnat, Qle. simpl. lia.
Qed.

Lemma similar_comm (thr : Q) (r u : result) :
  similar thr r u = similar thr u r.
Proof.
  unfold similar. rewrite (text_similarity_comm (text r) (text u)).
  rewrite (Qlt_b_compat _ _ (Qeq_refl (1 # 2)) _ _ (iou_comm (bbox r) (bbox u))).
  reflexivity.
Qed.

Lemma text_similarity_contained (t1 t2 : str) :
  substring (norm t1) (norm t2) \/ substring (norm t2) (norm t1) ->
  text_similarity t1 t2 = 1.
Proof.
  intros H. unfold text_similarity. fold (norm t1) (norm t2).
  replace (contains (norm t1) (norm t2) || contains (norm t2) (norm t1))
    with true; [reflexivity|].
  symmetry. apply orb_true_iff.
  destruct H as [H | H]; [left | right]; apply contains_spec; exact H.
Qed.

(** X7. [text_similarity] is symmetric and its value lies between 0 and
    1; it is 1 when one text contains the other, case and outer
    whitespace apart.  The duplicate test
    ([similarity > threshold or iou > 0.5]) is symmetric. *)
Theorem text_similarity_properties :
  (forall t1 t2, text_similarity t1 t2 = text_similarity t2 t1)
  /\ (forall t1 t2, 0 <= text_similarity t1 t2 /\ text_similarity t1 t2 <= 1)
  /\ (forall t1 t2,
        substring (norm t1) (norm t2) \/ substring (norm t2) (norm t1) ->
        text_similarity t1 t2 = 1)
  /\ (forall thr r u, similar thr r u = similar thr u r).
Proof.
  split; [exact text_similarity_comm|].
  split; [exact text_similarity_range|].
  split; [exact text_similarity_contained | exact similar_comm].
Qed.

Lemma text_similarity_properties_witness :
  text_similarity (lit "Crear Pedido") (lit "  crear pedido urgente ") = 1.
Proof.
  apply (proj1 (proj2 (proj2 text_similarity_properties))).
  left. exists [], (lit " urgente"). reflexivity.
Defined.

(* ================================================================= *)
(** ** What deduplication guarantees *)

Lemma ForallOrdPairs_weaken {A : Type} (R R' : A -> A -> Prop) (l : list A) :
  (forall a b, R a b -> R' a b) -> ForallOrdPairs R l -> ForallOrdPairs R' l.
Proof.
  intros HR. induction 1 as [|x l Hx Hl IH]; constructor; [|exact IH].
  eapply Forall_impl; [|exact Hx]. intros b. apply HR.
Qed.

Lemma ForallOrdPairs_filter {A : Type} (R : A -> A -> Prop) (f : A -> bool)
    (l : list A) :
  ForallOrdPairs R l -> ForallOrdPairs R (filter f l).
Proof.
  induction 1 as [|x l Hx Hl IH]; simpl; [constructor|].
  destruct (f x); [|exact IH]. constructor; [|exact IH].
  apply Forall_forall. intros y Hy. apply filter_In in Hy.
  rewrite Forall_forall in Hx. apply Hx, Hy.
Qed.

Lemma ForallOrdPairs_map {A B : Type} (R : B -> B -> Prop) (f : A -> B)
    (l : list A) :
  ForallOrdPairs (fun a b => R (f a) (f b)) l -> ForallOrdPairs R (map f l).
Proof.
  induction 1 as [|x l Hx Hl IH]; simpl; constructor; [|exact IH].
  apply Forall_map. exact Hx.
Qed.

Lemma ForallOrdPairs_NoDup {A : Type} (R : A -> A -> Prop) (l : list A) :
  (forall a, ~ R a a) -> ForallOrdPairs R l -> NoDup l.
Proof.
  intros Hirr. induction 1 as [|x l Hx Hl IH]; constructor; [|exact IH].
  intros Hin. rewrite Forall_forall in Hx. apply (Hirr x), Hx, Hin.
Qed.

Lemma not_similar_unrelated (thr : Q) (r u : result) :
  thr < 1 -> similar thr r u = false ->
  unrelated_texts (text u) (text r)
  /\ _calculate_iou (bbox r) (bbox u) <= 1 # 2.
Proof.
  intros Hthr H. unfold similar in H. apply orb_false_iff in H.
  destruct H as [Ht Hi]. apply Qlt_b_false in Ht, Hi.
  split; [|exact Hi].
  split; intros Hsub;
    rewrite (text_similarity_contained (text r) (text u)) in Ht;
    auto; lra.
Qed.

Lemma remove_duplicate_cases_distinct (results : list result) (thr : Q) :
  pairwise_distinct thr (_remove_duplicate_cases results thr).
Proof.
  unfold _remove_duplicate_cases. destruct results as [|x results].
  - constructor.
  - apply dedup_loop_distinct. constructor.
Qed.

(** X8. For a threshold below 1, no two records that
    [_remove_duplicate_cases] returns have texts of which one contains
    the other (case and outer whitespace apart), nor boxes with an IoU
    above 0.5.  So the use cases of a run are pairwise different, none
    containing another, and the final boxes overlap by at most 0.5. *)
Theorem no_duplicates_survive :
  (forall results thr,
     thr < 1 ->
     ForallOrdPairs
       (fun u r => unrelated_texts (text u) (text r)
                   /\ _calculate_iou (bbox r) (bbox u) <= 1 # 2)
       (_remove_duplicate_cases results thr))
  /\ (forall self results thr r,
        run_ocr self results thr = Ok r ->
        NoDup (use_cases r)
        /\ ForallOrdPairs unrelated_texts (use_cases r)
        /\ ForallOrdPairs
             (fun u v => _calculate_iou (uc_bbox v) (uc_bbox u) <= 1 # 2)
             (filtered_results r)).
Proof.
  assert (H1 : forall results thr,
             thr < 1 ->
             ForallOrdPairs
               (fun u r => unrelated_texts (text u) (text r)
                           /\ _calculate_iou (bbox r) (bbox u) <= 1 # 2)
               (_remove_duplicate_cases results thr)).
  { intros results thr Hthr.
    eapply ForallOrdPairs_weaken; [|apply remove_duplicate_cases_distinct].
    intros u r H. apply (not_similar_unrelated thr r u Hthr H). }
  split; [exact H1|].
  intros self results thr r Hrun.
  destruct (run_ocr_unfold self results thr r Hrun) as (_ & _ & Hu & Hf & Hc).
  assert (Hk : ForallOrdPairs
                 (fun u v => unrelated_texts (text u) (text v)
                             /\ _calculate_iou (bbox v) (bbox u) <= 1 # 2)
                 (kept (actor_blacklist self) (unique r))).
  { unfold kept. apply ForallOrdPairs_filter. rewrite Hu. apply H1. reflexivity. }
  assert (Ht : ForallOrdPairs unrelated_texts (use_cases r)).
  { rewrite Hc. apply ForallOrdPairs_map.
    eapply ForallOrdPairs_weaken; [|exact Hk]. intros a b [H _]. exact H. }
  split; [|split; [exact Ht|]].
  - apply (ForallOrdPairs_NoDup unrelated_texts); [|exact Ht].
    intros a [H _]. apply H, substring_refl.
  - rewrite Hf. apply ForallOrdPairs_map.
    eapply ForallOrdPairs_weaken; [|exact Hk]. intros a b [_ H]. exact H.
Qed.

Lemma no_duplicates_survive_witness :
  exists r,
    run_ocr example_ocr example_detections (3 # 10) = Ok r
    /\ NoDup (use_cases r).
Proof.
  eexists. split; [vm_compute; reflexivity|].
  apply (proj2 no_duplicates_survive example_ocr example_detections (3 # 10)).
  vm_compute. reflexivity.
Defined.

Lemma py_sort_sorted_id {A : Type} (lt : A -> A -> bool) (l : list A) :
  StronglySorted (fun a b => lt b a = false) l -> py_sort lt l = l.
Proof.
  induction 1 as [|x l Hs IH Hall]; simpl; [reflexivity|].
  rewrite IH. destruct l as [|y l]; [reflexivity|]. simpl.
  inversion Hall as [|? ? Hy _]; subst. rewrite Hy. reflexivity.
Qed.

Lemma ForallOrdPairs_app_inv {A : Type} (R : A -> A -> Prop) (l1 l2 : list A) :
  ForallOrdPairs R (l1 ++ l2) ->
  forall a b, In a l1 -> In b l2 -> R a b.
Proof.
  induction l1 as [|x l1 IH]; simpl; intros H a b Ha Hb; [contradiction|].
  inversion H as [|? ? Hx Hl]; subst. destruct Ha as [<- | Ha].
  - rewrite Forall_forall in Hx. apply Hx, in_or_app. right. exact Hb.
  - apply (IH Hl a b Ha Hb).
Qed.

Lemma dedup_loop_distinct_id (thr : Q) (l : list result) :
  forall acc,
    pairwise_distinct thr (acc ++ l) -> dedup_loop thr l acc = acc ++ l.
Proof.
  induction l as [|r l IH]; intros acc H; simpl.
  - rewrite app_nil_r. reflexivity.
  - assert (E : existsb (similar thr r) acc = false).
    { destruct (existsb (similar thr r) acc) eqn:E; [|reflexivity].
      apply existsb_exists in E. destruct E as [u [Hu Hs]].
      rewrite (ForallOrdPairs_app_inv _ acc (r :: l) H u r Hu) in Hs;
        [discriminate | left; reflexivity]. }
    rewrite E. change (acc ++ r :: l) with (acc ++ [r] ++ l) in *.
    rewrite app_assoc in *. apply IH. exact H.
Qed.

(** X9. [_remove_duplicate_cases] is idempotent: applied to its own
    result, with the same threshold, it returns that result unchanged. *)
Theorem remove_duplicate_cases_idempotent (results : list result) (thr : Q) :
  _remove_duplicate_cases (_remove_duplicate_cases results thr) thr
  = _remove_duplicate_cases results thr.
Proof.
  set (out := _remove_duplicate_cases results thr).
  assert (Hd : pairwise_distinct thr out) by apply remove_duplicate_cases_distinct.
  assert (Hs : confidence_descending out).
  { unfold out, _remove_duplicate_cases. destruct results as [|x results];
      [constructor|].
    eapply subseq_sorted;
      [apply dedup_loop_subseq | apply sort_by_confidence_descending]. }
  unfold _remove_duplicate_cases at 1. destruct out as [|y out'] eqn:E;
    [reflexivity|]. rewrite <- E in *.
  unfold sort_by_confidence. rewrite py_sort_sorted_id.
  - apply (dedup_loop_distinct_id thr out []). exact Hd.
  - eapply sorted_weaken; [|exact Hs].
    intros a b H. apply Qlt_b_false. exact H.
Qed.

(* ================================================================= *)
(** ** The actor filter and the blacklist *)

Lemma is_actor_text_split (blacklist : list str) (t : str) :
  is_actor_text blacklist t
  = existsb (actor_match (norm t)) blacklist || is_actor_text [] t.
Proof.
  unfold is_actor_text, norm. simpl existsb at 3.
  destruct (existsb (actor_match (strip (lower t))) blacklist); reflexivity.
Qed.

Lemma add_actor_blacklist_app (names : list str) :
  forall blacklist,
    add_actor_blacklist blacklist names = blacklist ++ init_blacklist names.
Proof.
  unfold add_actor_blacklist, init_blacklist.
  induction names as [|t names IH]; intros bl; simpl.
  - rewrite app_nil_r. reflexivity.
  - rewrite IH. destruct t as [|c t].
    + simpl. reflexivity.
    + simpl negb at 1. simpl andb.
      destruct (negb (str_eqb (strip (c :: t)) [])); simpl.
      * rewrite <- app_assoc. reflexivity.
      * reflexivity.
Qed.

Lemma is_actor_text_incl (bl bl' : list str) (t : str) :
  incl bl bl' -> is_actor_text bl t = true -> is_actor_text bl' t = true.
Proof.
  intros Hincl. rewrite (is_actor_text_split bl), (is_actor_text_split bl').
  rewrite !orb_true_iff, !existsb_exists.
  intros [[a [Ha Hm]] | H]; [left; exists a; split; [apply Hincl; exact Ha | exact Hm]
                            | right; exact H].
Qed.

(** X10. [add_actor_blacklist] appends to the blacklist what [__init__]
    would store for the same names, and keeps every earlier entry.  A
    longer blacklist never lets through a text that a shorter one
    rejects: what [is_actor_text] holds for an actor text before names
    are added, it holds after, and the texts rejected under the empty
    blacklist are rejected under every blacklist. *)
Theorem blacklist_only_grows :
  (forall blacklist names,
     add_actor_blacklist blacklist names = blacklist ++ init_blacklist names)
  /\ (forall bl bl' t,
        incl bl bl' -> is_actor_text bl t = true -> is_actor_text bl' t = true)
  /\ (forall blacklist names t,
        is_actor_text blacklist t = true ->
        is_actor_text (add_actor_blacklist blacklist names) t = true)
  /\ (forall blacklist l names,
        incl (kept (add_actor_blacklist blacklist names) l) (kept blacklist l)).
Proof.
  split; [intros bl names; apply add_actor_blacklist_app|].
  split; [exact is_actor_text_incl|].
  assert (H : forall blacklist names t,
             is_actor_text blacklist t = true ->
             is_actor_text (add_actor_blacklist blacklist names) t = true).
  { intros bl names t. apply is_actor_text_incl.
    rewrite add_actor_blacklist_app. apply incl_appl, incl_refl. }
  split; [exact H|].
  intros bl l names r Hr. unfold kept in *. apply filter_In in Hr.
  destruct Hr as [Hin Hr]. apply filter_In. split; [exact Hin|].
  apply negb_true_iff in Hr. apply negb_true_iff.
  destruct (is_actor_text bl (text r)) eqn:E; [|reflexivity].
  rewrite (H bl names (text r) E) in Hr. discriminate.
Qed.

Lemma blacklist_only_grows_witness :
  is_actor_text (add_actor_blacklist (init_blacklist [lit "Actor1"])
                                     [lit "Cliente"])
                (lit "ACTOR1 ") = true.
Proof.
  apply (proj1 (proj2 (proj2 blacklist_only_grows))). reflexivity.
Defined.

(* ================================================================= *)
(** ** Keywords that are always filtered *)

Lemma lstrip_keeps (c : ascii) (sub s : str) :
  isspace c = false -> substring (c :: sub) s -> substring (c :: sub) (lstrip s).
Proof.
  intros Hc. induction s as [|d s IH]; simpl; intros H; [exact H|].
  destruct (isspace d) eqn:Ed; [|exact H].
  apply IH. destruct H as [pre [post Heq]]. destruct pre as [|x pre].
  - simpl in Heq. injection Heq as -> _. congruence.
  - simpl in Heq. injection Heq as _ Heq. exists pre, post. exact Heq.
Qed.

Lemma substring_rev (a b : str) : substring a b -> substring (rev a) (rev b).
Proof.
  intros [pre [post ->]]. exists (rev post), (rev pre).
  rewrite !rev_app_distr, <- app_assoc. reflexivity.
Qed.

Lemma rstrip_keeps (c : ascii) (sub s : str) :
  isspace c = false -> substring (sub ++ [c]) s ->
  substring (sub ++ [c]) (rstrip s).
Proof.
  intros Hc H. apply substring_rev in H. rewrite rev_app_distr in H. simpl in H.
  apply (lstrip_keeps c _ _ Hc) in H. apply substring_rev in H.
  simpl in H. rewrite rev_involutive in H. exact H.
Qed.

Lemma strip_keeps (kw s : str) :
  kw <> [] -> Forall (fun c => isspace c = false) kw ->
  substring kw s -> substring kw (strip s).
Proof.
  intros Hne Hall H. unfold strip.
  destruct kw as [|c kw]; [congruence|].
  assert (H1 : substring (c :: kw) (lstrip s)).
  { apply lstrip_keeps; [|exact H]. inversion Hall; assumption. }
  destruct (exists_last Hne) as [front [z Heq]]. rewrite Heq in *.
  apply rstrip_keeps; [|exact H1].
  rewrite Forall_forall in Hall. apply Hall, in_or_app. right. left. reflexivity.
Qed.

Lemma remove_pair_cons (c1 c2 a b : ascii) (r : str) :
  remove_pair c1 c2 (a :: b :: r)
  = if Ascii.eqb a c1 && Ascii.eqb b c2
    then remove_pair c1 c2 r
    else a :: remove_pair c1 c2 (b :: r).
Proof. reflexivity. Qed.

Lemma remove_pair_prefix (c1 c2 : ascii) (sub : str) :
  Forall (fun x => x <> c1) sub ->
  forall post, exists post', remove_pair c1 c2 (sub ++ post) = sub ++ post'.
Proof.
  induction 1 as [|x sub Hx Hall IH]; intros post.
  - exists (remove_pair c1 c2 post). reflexivity.
  - simpl app. destruct (IH post) as [post' Hp].
    destruct (sub ++ post) as [|b r] eqn:E.
    + destruct sub; [|discriminate]. exists []. reflexivity.
    + rewrite remove_pair_cons.
      replace (Ascii.eqb x c1) with false
        by (symmetry; apply Ascii.eqb_neq; exact Hx).
      simpl andb. cbv iota. rewrite Hp. exists post'. reflexivity.
Qed.

Lemma remove_pair_inside (c1 c2 : ascii) (sub post : str) :
  Forall (fun x => x <> c1 /\ x <> c2) sub ->
  forall n pre, (len pre <= n)%nat ->
    exists pre' post', remove_pair c1 c2 (pre ++ sub ++ post) = pre' ++ sub ++ post'.
Proof.
  intros Hall.
  assert (Hall1 : Forall (fun x => x <> c1) sub)
    by (eapply Forall_impl; [|exact Hall]; intros x [H _]; exact H).
  destruct sub as [|b0 sub0].
  { intros n pre _. exists (remove_pair c1 c2 (pre ++ post)), []. simpl.
    rewrite app_nil_r. reflexivity. }
  assert (Hb0 : b0 <> c2) by (inversion Hall as [|? ? [_ H] _]; exact H).
  induction n as [n IH] using lt_wf_ind. intros pre Hlen.
  destruct pre as [|a [|b pre]].
  - destruct (remove_pair_prefix c1 c2 (b0 :: sub0) Hall1 post) as [post' Hp].
    exists [], post'. exact Hp.
  - destruct (remove_pair_prefix c1 c2 (b0 :: sub0) Hall1 post) as [post' Hp].
    exists [a], post'. simpl app in *. rewrite remove_pair_cons.
    replace (Ascii.eqb b0 c2) with false
      by (symmetry; apply Ascii.eqb_neq; exact Hb0).
    rewrite andb_false_r. rewrite Hp. reflexivity.
  - simpl app. rewrite remove_pair_cons.
    unfold len in Hlen. simpl in Hlen.
    destruct (Ascii.eqb a c1 && Ascii.eqb b c2).
    + apply (IH (List.length pre)); [lia | unfold len; lia].
    + destruct (IH (S (List.length pre)) ltac:(lia) (b :: pre))
        as [pre' [post' Hp]]; [unfold len; simpl; lia|].
      exists (a :: pre'), post'. simpl app in Hp. rewrite Hp. reflexivity.
Qed.

Lemma remove_pair_keeps (c1 c2 : ascii) (sub s : str) :
  Forall (fun x => x <> c1 /\ x <> c2) sub ->
  substring sub s -> substring sub (remove_pair c1 c2 s).
Proof.
  intros Hall [pre [post ->]].
  destruct (remove_pair_inside c1 c2 sub post Hall (len pre) pre (Nat.le_refl _))
    as [pre' [post' ->]].
  exists pre', post'. reflexivity.
Qed.

Lemma plain_keyword_clean (kw t : str) :
  plain_keyword kw -> substring kw (lower t) ->
  substring kw
    (strip (remove_pair ">" ">" (remove_pair "<" "<" (strip (lower t))))).
Proof.
  intros [Hne Hall] H.
  assert (Hsp : Forall (fun c => isspace c = false) kw)
    by (eapply Forall_impl; [|exact Hall]; intros c (H1 & _); exact H1).
  apply strip_keeps; [exact Hne | exact Hsp|].
  apply remove_pair_keeps.
  { eapply Forall_impl; [|exact Hall]. intros c (_ & _ & H3). auto. }
  apply remove_pair_keeps.
  { eapply Forall_impl; [|exact Hall]. intros c (_ & H2 & _). auto. }
  apply strip_keeps; assumption.
Qed.

Lemma uml_relations_plain : Forall plain_keyword uml_relations.
Proof.
  repeat constructor; try discriminate.
Qed.

Lemma is_actor_text_relation (blacklist : list str) (t kw : str) :
  In kw uml_relations -> substring kw (lower t) ->
  is_actor_text blacklist t = true.
Proof.
  intros Hin H.
  assert (Hp : plain_keyword kw).
  { pose proof uml_relations_plain as Hall. rewrite Forall_forall in Hall.
    apply Hall, Hin. }
  pose proof (plain_keyword_clean kw t Hp H) as Hc.
  unfold is_actor_text.
  destruct (existsb (actor_match (strip (lower t))) blacklist); [reflexivity|].
  replace (existsb _ uml_relations) with true; [reflexivity|].
  symmetry. apply existsb_exists. exists kw. split; [exact Hin|].
  apply contains_spec. exact Hc.
Qed.

Lemma char_matches_refl (c : ascii) : char_matches c c = true.
Proof. unfold char_matches. apply Ascii.eqb_refl. Qed.

Lemma match_here_literal (p s : str) :
  startswith p s = true -> match_here (map Chr p) s = true.
Proof.
  revert s. induction p as [|c p IH]; intros s; simpl; [reflexivity|].
  destruct s as [|x s]; [discriminate|].
  rewrite andb_true_iff, Ascii.eqb_eq. intros [-> H].
  rewrite char_matches_refl. simpl. apply IH, H.
Qed.

Lemma re_search_literal (p s : str) :
  contains p s = true -> re_search (map Chr p) s = true.
Proof.
  induction s as [|x s IH]; simpl.
  - rewrite !orb_false_r. apply match_here_literal.
  - rewrite !orb_true_iff. intros [H | H];
      [left; apply match_here_literal, H | right; apply IH, H].
Qed.

Lemma is_actor_text_tend (blacklist : list str) (t : str) :
  substring (lit "tend") (lower t) -> is_actor_text blacklist t = true.
Proof.
  intros H.
  assert (Hs : substring (lit "tend") (strip (lower t))).
  { apply strip_keeps; [discriminate | repeat constructor | exact H]. }
  unfold is_actor_text.
  destruct (existsb (actor_match (strip (lower t))) blacklist); [reflexivity|].
  destruct (existsb _ uml_relations); [reflexivity|].
  replace (existsb _ uml_patterns) with true; [reflexivity|].
  symmetry. apply existsb_exists. exists (chars "tend"). split.
  - unfold uml_patterns. simpl. tauto.
  - apply re_search_literal, contains_spec. exact Hs.
Qed.

(** X11. Whatever the blacklist, [is_actor_text] holds for every text
    that contains, in any letter case, one of the relation keywords
    ("include", "extend", "includes", "extends", "includ") or the letters
    "tend".  So a run never outputs a use case whose text contains one
    of them: labels like "Atender cliente" are dropped with the UML
    relations. *)
Theorem keyword_texts_filtered :
  (forall blacklist t kw,
     In kw (lit "tend" :: uml_relations) ->
     substring kw (lower t) ->
     is_actor_text blacklist t = true)
  /\ (forall self results thr r kw,
        In kw (lit "tend" :: uml_relations) ->
        run_ocr self results thr = Ok r ->
        Forall (fun u => ~ substring kw (lower u)) (use_cases r)).
Proof.
  assert (H : forall blacklist t kw,
             In kw (lit "tend" :: uml_relations) ->
             substring kw (lower t) ->
             is_actor_text blacklist t = true).
  { intros bl t kw [<- | Hin] Hsub;
      [apply is_actor_text_tend | eapply is_actor_text_relation]; eassumption. }
  split; [exact H|].
  intros self results thr r kw Hkw Hrun.
  apply Forall_forall. intros u Hu Hsub.
  destruct (run_ocr_not_actor self results thr r u Hrun) as [_ Hnot];
    [apply (H _ _ kw Hkw Hsub) | contradiction].
Qed.

Lemma keyword_texts_filtered_witness :
  is_actor_text [] (lit "Atender cliente") = true.
Proof.
  apply (proj1 keyword_texts_filtered [] (lit "Atender cliente") (lit "tend")).
  - left. reflexivity.
  - exists (lit "a"), (lit "er cliente"). reflexivity.
Defined.

(* ================================================================= *)
(** ** Letter case and outer whitespace *)

Lemma existsb_ext_in {A : Type} (f g : A -> bool) (l : list A) :
  (forall x, In x l -> f x = g x) -> existsb f l = existsb g l.
Proof.
  induction l as [|x l IH]; simpl; intros H; [reflexivity|].
  rewrite (H x (or_introl eq_refl)), IH; [reflexivity|].
  intros y Hy. apply H. right. exact Hy.
Qed.

Lemma is_actor_text_ext (blacklist : list str) (t t' : str) :
  norm t = norm t' ->
  (forall arrow, In arrow arrow_patterns -> contains arrow t = contains arrow t') ->
  is_actor_text blacklist t = is_actor_text blacklist t'.
Proof.
  unfold norm. intros Hn Ha. unfold is_actor_text. rewrite Hn.
  destruct (existsb (actor_match (strip (lower t'))) blacklist); [reflexivity|].
  destruct (existsb _ uml_relations); [reflexivity|].
  destruct (existsb _ uml_patterns); [reflexivity|].
  apply existsb_ext_in. intros arrow Hin. rewrite (Ha arrow Hin). reflexivity.
Qed.

Lemma arrow_chars_caseless :
  Forall (fun arrow => Forall caseless arrow) arrow_patterns.
Proof.
  assert (H1 : caseless "-"%char) by (intros d; each_char d).
  assert (H2 : caseless ">"%char) by (intros d; each_char d).
  assert (H3 : caseless "<"%char) by (intros d; each_char d).
  repeat constructor; assumption.
Qed.

Lemma startswith_lower (a s : str) :
  Forall caseless a -> startswith a (lower s) = startswith a s.
Proof.
  intros Ha. revert s. induction Ha as [|x a Hx Ha IH]; intros s; [reflexivity|].
  destruct s as [|d s]; [reflexivity|]. simpl. rewrite Hx, IH. reflexivity.
Qed.

Lemma contains_lower (a s : str) :
  Forall caseless a -> contains a (lower s) = contains a s.
Proof.
  intros Ha. induction s as [|d s IH].
  - reflexivity.
  - change (lower (d :: s)) with (lower_char d :: lower s).
    cbn [contains]. rewrite IH.
    change (lower_char d :: lower s) with (lower (d :: s)).
    rewrite (startswith_lower a (d :: s) Ha). reflexivity.
Qed.

Lemma arrow_chars_nonspace :
  Forall (fun arrow => arrow <> [] /\ Forall (fun c => isspace c = false) arrow)
         arrow_patterns.
Proof. repeat constructor; discriminate. Qed.

Lemma contains_strip (a s : str) :
  a <> [] -> Forall (fun c => isspace c = false) a ->
  contains a (strip s) = contains a s.
Proof.
  intros Hne Ha. apply bool_eq_iff. rewrite !contains_spec. split.
  - intros H. apply (substring_trans _ _ _ H), strip_substring.
  - apply strip_keeps; assumption.
Qed.

Lemma norm_lower (t : str) : norm (lower t) = norm t.
Proof. unfold norm. rewrite lower_idem. reflexivity. Qed.

Lemma norm_strip (t : str) : norm (strip t) = norm t.
Proof. unfold norm. rewrite <- strip_lower, strip_idem. reflexivity. Qed.

Lemma is_actor_text_trim_invariant (blacklist : list str) (t : str) :
  is_actor_text blacklist (lower t) = is_actor_text blacklist t
  /\ is_actor_text blacklist (strip t) = is_actor_text blacklist t.
Proof.
  split; apply is_actor_text_ext.
  - apply norm_lower.
  - intros arrow Hin. apply contains_lower.
    pose proof arrow_chars_caseless as H. rewrite Forall_forall in H.
    apply H, Hin.
  - apply norm_strip.
  - intros arrow Hin.
    pose proof arrow_chars_nonspace as H. rewrite Forall_forall in H.
    destruct (H arrow Hin) as [Hne Hall]. apply contains_strip; assumption.
Qed.

(** X12. The actor filter does not depend on letter case or on outer
    whitespace: [is_actor_text] gives the same answer for a text, for
    the text in lowercase and for the trimmed text, under every
    blacklist. *)
Theorem is_actor_text_case_insensitive (blacklist : list str) (t : str) :
  is_actor_text blacklist (lower t) = is_actor_text blacklist t
  /\ is_actor_text blacklist (strip t) = is_actor_text blacklist t.
Proof. apply is_actor_text_trim_invariant. Qed.

(* ================================================================= *)
(** ** Results handed out after a run *)

Lemma enumerate_map_fst {A B : Type} (f : nat -> B) (l : list A) :
  map (fun ix : nat * A => f (fst ix)) (enumerate l) = map f (seq 0 (len l)).
Proof. rewrite <- (enumerate_fst l), map_map. reflexivity. Qed.

Lemma enumerate_map_snd {A B : Type} (f : A -> B) (l : list A) :
  map (fun ix : nat * A => f (snd ix)) (enumerate l) = map f l.
Proof. rewrite <- (enumerate_snd l) at 2. rewrite map_map. reflexivity. Qed.

Lemma seq_from_1 (n : nat) : map (fun i => (i + 1)%nat) (seq 0 n) = seq 1 n.
Proof.
  rewrite <- seq_shift. apply map_ext. intros i. lia.
Qed.

Lemma get_formatted_results_ids (l : list use_case) :
  map fr_id (get_formatted_results l) = seq 1 (len l).
Proof.
  unfold get_formatted_results. rewrite map_map.
  rewrite <- seq_from_1, <- (enumerate_map_fst (fun i => (i + 1)%nat) l).
  apply map_ext. intros [i u]. reflexivity.
Qed.

Lemma get_formatted_results_texts (l : list use_case) :
  map fr_text (get_formatted_results l) = map uc_text l
  /\ map fr_confidence (get_formatted_results l) = map uc_confidence l.
Proof.
  unfold get_formatted_results. rewrite !map_map.
  rewrite <- (enumerate_map_snd uc_text l), <- (enumerate_map_snd uc_confidence l).
  split; apply map_ext; intros [i u]; reflexivity.
Qed.

(** X13. After a run, the dict that [save_results] writes is consistent:
    its records are numbered 1, 2, ... in the order of the output, they
    carry the texts of [get_use_cases] and the confidences of the
    records that [run_ocr] returned, each box has four points, and
    [total_count] is the number of records. *)
Theorem saved_results_consistent (self : ocr) (results : list detection)
    (thr : Q) (r : run) :
  run_ocr self results thr = Ok r ->
  let saved := save_results self r in
  map fr_id (saved_use_cases saved) = seq 1 (total_count saved)
  /\ total_count saved = len (saved_use_cases saved)
  /\ map fr_text (saved_use_cases saved) = get_use_cases r
  /\ map fr_confidence (saved_use_cases saved)
     = map uc_confidence (filtered_results r)
  /\ Forall (fun f => len (fr_bbox f) = 4%nat) (saved_use_cases saved)
  /\ saved_actor_blacklist saved = actor_blacklist self.
Proof.
  intros Hrun saved.
  destruct (run_ocr_unfold self results thr r Hrun) as (_ & _ & _ & Hf & Hc).
  assert (Hlen : len (use_cases r) = len (filtered_results r)).
  { rewrite Hf, Hc. unfold len. rewrite !length_map. reflexivity. }
  unfold saved, save_results, get_use_cases. cbn [saved_use_cases total_count
    saved_actor_blacklist].
  destruct (get_formatted_results_texts (filtered_results r)) as [Ht Hconf].
  split; [rewrite get_formatted_results_ids, Hlen; reflexivity|].
  split.
  { rewrite Hlen. unfold get_formatted_results, enumerate, len.
    rewrite length_map, length_combine, length_seq. lia. }
  split.
  { rewrite Ht, Hf, Hc, map_map. reflexivity. }
  split; [exact Hconf|].
  split; [|reflexivity].
  unfold get_formatted_results. apply Forall_map.
  apply Forall_forall. intros [i u] _. reflexivity.
Qed.

Lemma saved_results_consistent_witness :
  exists r,
    run_ocr example_ocr example_detections (3 # 10) = Ok r
    /\ map fr_text (saved_use_cases (save_results example_ocr r))
       = get_use_cases r.
Proof.
  eexists. split; [vm_compute; reflexivity|].
  apply (saved_results_consistent example_ocr example_detections (3 # 10)).
  vm_compute. reflexivity.
Defined.

(* ================================================================= *)
(** ** Actors of the report *)

Lemma renumber_acc (filtered : list (Z * str)) :
  forall new_id acc,
    renumber new_id filtered acc = acc ++ renumber new_id filtered [].
Proof.
  induction filtered as [|[old name] rest IH]; intros n acc; simpl.
  - rewrite app_nil_r. reflexivity.
  - rewrite (IH _ (acc ++ _)), (IH _ [_]), <- app_assoc. reflexivity.
Qed.

Lemma renumber_names (filtered : list (Z * str)) (new_id : Z) :
  map snd (renumber new_id filtered []) = map snd filtered.
Proof.
  revert new_id. induction filtered as [|[old name] rest IH]; intros n; simpl;
    [reflexivity|].
  rewrite renumber_acc. simpl. rewrite IH. reflexivity.
Qed.

Lemma renumber_ids (filtered : list (Z * str)) (new_id : Z) :
  map fst (renumber new_id filtered []) = numbers_from new_id filtered.
Proof.
  unfold numbers_from, len.
  revert new_id. induction filtered as [|[old name] rest IH]; intros n; simpl;
    [reflexivity|].
  rewrite renumber_acc. simpl. rewrite IH. f_equal; [lia|].
  rewrite <- seq_shift, map_map. apply map_ext. intros i. lia.
Qed.

Lemma renumber_len (filtered : list (Z * str)) (new_id : Z) :
  len (renumber new_id filtered []) = len filtered.
Proof.
  unfold len. rewrite <- (length_map snd), renumber_names, length_map.
  reflexivity.
Qed.

Lemma has_name_strip (raw : str) :
  has_name (Some raw) = true ->
  strip raw <> [] /\ has_name (Some (strip raw)) = true.
Proof.
  unfold has_name. rewrite andb_true_iff, !negb_true_iff. intros [_ H].
  split.
  - intros E. rewrite E in H. discriminate.
  - rewrite strip_idem, H. reflexivity.
Qed.

Lemma named_actors_In (actors_list : list actor) (actor_id : Z) (n : str) :
  In (actor_id, n) (named_actors actors_list) <->
  exists raw, In (actor_id, Some raw) actors_list
              /\ has_name (Some raw) = true /\ n = strip raw.
Proof.
  induction actors_list as [|[i [raw|]] rest IH]; cbn [named_actors In].
  - split; [contradiction | intros [raw [[] _]]].
  - destruct (has_name (Some raw)) eqn:E; cbn [In].
    + rewrite IH. split.
      * intros [H | [raw' (H1 & H2 & H3)]].
        -- injection H as <- <-. exists raw. auto.
        -- exists raw'. auto.
      * intros [raw' ([H1 | H1] & H2 & H3)].
        -- injection H1 as <- <-. left. rewrite H3. reflexivity.
        -- right. exists raw'. auto.
    + rewrite IH. split.
      * intros [raw' (H1 & H2 & H3)]. exists raw'. auto.
      * intros [raw' ([H1 | H1] & H2 & H3)].
        -- injection H1 as <- <-. congruence.
        -- exists raw'. auto.
  - rewrite IH. split.
    + intros [raw' (H1 & H2 & H3)]. exists raw'. auto.
    + intros [raw' ([H1 | H1] & H2 & H3)]; [discriminate|].
      exists raw'. auto.
Qed.

Lemma named_actors_count (actors_list : list actor) :
  len (named_actors actors_list)
  = len (filter (fun a : actor => has_name (snd a)) actors_list).
Proof.
  unfold len.
  induction actors_list as [|[i [raw|]] rest IH]; cbn [named_actors filter snd];
    [reflexivity | | exact IH].
  destruct (has_name (Some raw)); simpl; lia.
Qed.

Lemma filter_and_renumber_actors_ids_names (actors_list : list actor) :
  let renumbered := fst (filter_and_renumber_actors actors_list) in
  map fst renumbered = numbers_from 1 renumbered
  /\ Forall (fun a => has_name (Some (snd a)) = true /\ strip (snd a) = snd a)
            renumbered.
Proof.
  intros renumbered. unfold renumbered, filter_and_renumber_actors. cbn [fst].
  split.
  { rewrite renumber_ids. unfold numbers_from. rewrite renumber_len. reflexivity. }
  apply Forall_forall. intros [i n] Hin. simpl.
  assert (Hin' : In n (map snd (renumber 1 (named_actors actors_list) [])))
    by (apply in_map_iff; exists (i, n); auto).
  rewrite renumber_names in Hin'. apply in_map_iff in Hin'.
  destruct Hin' as [[j m] [Heq Hm]]. simpl in Heq. subst m.
  apply named_actors_In in Hm. destruct Hm as (raw & _ & Hraw & ->).
  split; [apply has_name_strip, Hraw | apply strip_idem].
Qed.

Lemma filter_and_renumber_actors_names (actors_list : list actor) (n : str) :
  (exists actor_id raw,
     In (actor_id, Some raw) actors_list
     /\ has_name (Some raw) = true /\ n = strip raw) ->
  In n (map snd (fst (filter_and_renumber_actors actors_list))).
Proof.
  intros [i [raw H]]. unfold filter_and_renumber_actors. cbn [fst].
  rewrite renumber_names. apply in_map_iff. exists (i, n).
  split; [reflexivity|]. apply named_actors_In. exists raw. exact H.
Qed.

Lemma filter_and_renumber_actors_with_names (actors_list : list actor) :
  with_names (snd (filter_and_renumber_actors actors_list))
  = Zlen (fst (filter_and_renumber_actors actors_list)).
Proof.
  unfold filter_and_renumber_actors. cbn [fst snd with_names].
  unfold Zlen. rewrite renumber_len. reflexivity.
Qed.

Lemma has_name_nonblank (n : str) :
  has_name (Some n) = negb (forallb isspace n).
Proof.
  unfold has_name. destruct (forallb isspace n) eqn:E.
  - apply strip_nil_iff in E. rewrite E. simpl. apply andb_false_r.
  - assert (Hs : str_eqb (strip n) [] = false).
    { destruct (str_eqb (strip n) []) eqn:S; [|reflexivity].
      apply str_eqb_eq, strip_nil_iff in S. congruence. }
    rewrite Hs. destruct n; [discriminate E | reflexivity].
Qed.

Lemma named_actors_names (actors_list : list actor) :
  map snd (named_actors actors_list) = map strip (names_given actors_list).
Proof.
  induction actors_list as [|[i [n|]] rest IH];
    cbn [named_actors names_given]; [reflexivity | | exact IH].
  rewrite has_name_nonblank.
  destruct (forallb isspace n); cbn [negb map snd]; [exact IH|].
  rewrite IH. reflexivity.
Qed.

(** X14. [filter_and_renumber_actors] returns the actors that have a
    name, in their order: the new ids are 1, 2, 3, ... without gap, and
    the names are, one for one and in the order of the input, the
    trimmed names of the detected actors whose name is neither missing
    nor blank, none of them empty; so a name is in the result exactly
    when it is such a trimmed name.  The key [filtered_list] of the
    statistics holds the same list. *)
Theorem filter_and_renumber_actors_spec (actors_list : list actor) :
  let renumbered := fst (filter_and_renumber_actors actors_list) in
  let stats := snd (filter_and_renumber_actors actors_list) in
  map fst renumbered = numbers_from 1 renumbered
  /\ map snd renumbered = map strip (names_given actors_list)
  /\ (forall n,
        In n (map snd renumbered) <->
        exists actor_id raw,
          In (actor_id, Some raw) actors_list
          /\ has_name (Some raw) = true /\ n = strip raw)
  /\ Forall (fun a => snd a <> [] /\ strip (snd a) = snd a) renumbered
  /\ filtered_list stats = renumbered.
Proof.
  intros renumbered stats.
  unfold renumbered, stats, filter_and_renumber_actors.
  cbn [fst snd filtered_list].
  assert (Hn : forall n,
             In n (map snd (named_actors actors_list)) <->
             exists actor_id raw,
               In (actor_id, Some raw) actors_list
               /\ has_name (Some raw) = true /\ n = strip raw).
  { intros n. rewrite in_map_iff. split.
    - intros [[i m] [<- Hin]]. apply named_actors_In in Hin.
      destruct Hin as [raw H]. exists i, raw. exact H.
    - intros [i [raw H]]. exists (i, n). split; [reflexivity|].
      apply named_actors_In. exists raw. exact H. }
  split.
  { rewrite renumber_ids. unfold numbers_from. rewrite renumber_len. reflexivity. }
  split; [rewrite renumber_names; apply named_actors_names|].
  split; [intros n; rewrite renumber_names; apply Hn|].
  split; [|reflexivity].
  apply Forall_forall. intros [i n] Hin. simpl.
  assert (Hin' : In n (map snd (renumber 1 (named_actors actors_list) [])))
    by (apply in_map_iff; exists (i, n); auto).
  rewrite renumber_names in Hin'. apply Hn in Hin'.
  destruct Hin' as (j & raw & _ & Hraw & ->).
  split; [apply has_name_strip, Hraw | apply strip_idem].
Qed.

Lemma has_name_partition (actors_list : list actor) :
  (len (filter (fun a : actor => has_name (snd a)) actors_list)
   + len (filter (fun a : actor => negb (has_name (snd a))) actors_list)
   = len actors_list)%nat.
Proof.
  unfold len. induction actors_list as [|a rest IH]; [reflexivity|].
  cbn [filter]. destruct (has_name (snd a)); cbn [negb List.length]; lia.
Qed.

Lemma filter_and_renumber_actors_counts (actors_list : list actor) :
  let renumbered := fst (filter_and_renumber_actors actors_list) in
  let stats := snd (filter_and_renumber_actors actors_list) in
  total_detected stats = Zlen actors_list
  /\ with_names stats = Zlen renumbered
  /\ without_names stats
     = Zlen (filter (fun a : actor => negb (has_name (snd a))) actors_list)
  /\ (with_names stats + without_names stats = total_detected stats)%Z.
Proof.
  intros renumbered stats.
  unfold renumbered, stats, filter_and_renumber_actors.
  cbn [fst snd total_detected with_names without_names].
  pose proof (has_name_partition actors_list) as Hsplit.
  unfold Zlen. rewrite renumber_len, named_actors_count.
  repeat split; lia.
Qed.

(** X15. The statistics of [filter_and_renumber_actors] add up: the
    actors with a name are those of the returned list, the actors
    without a name are the detected actors whose name is missing or
    blank, and the two counts sum to the number of detected actors;
    neither count is negative. *)
Theorem filter_and_renumber_actors_stats (actors_list : list actor) :
  let renumbered := fst (filter_and_renumber_actors actors_list) in
  let stats := snd (filter_and_renumber_actors actors_list) in
  total_detected stats = Zlen actors_list
  /\ with_names stats = Zlen renumbered
  /\ without_names stats
     = Zlen (filter (fun a : actor => negb (has_name (snd a))) actors_list)
  /\ (with_names stats + without_names stats = total_detected stats)%Z
  /\ (0 <= with_names stats)%Z /\ (0 <= without_names stats)%Z.
Proof.
  intros renumbered stats.
  unfold renumbered, stats, filter_and_renumber_actors.
  cbn [fst snd total_detected with_names without_names].
  pose proof (has_name_partition actors_list) as Hsplit.
  unfold Zlen. rewrite renumber_len, named_actors_count.
  repeat split; lia.
Qed.

Lemma as_detected_named (actors : list (Z * str)) :
  Forall (fun a => has_name (Some (snd a)) = true /\ strip (snd a) = snd a) actors ->
  named_actors (as_detected actors) = actors.
Proof.
  induction 1 as [|[i n] rest [Hn Hs] Hall IH]; [reflexivity|].
  cbn [snd] in Hn, Hs. cbn [as_detected map named_actors fst snd].
  rewrite Hn, Hs. fold (as_detected rest). rewrite IH. reflexivity.
Qed.

(** X16. [filter_and_renumber_actors] is idempotent: given its own
    result again, it returns it unchanged and counts no actor without a
    name. *)
Theorem filter_and_renumber_actors_idempotent (actors_list : list actor) :
  let renumbered := fst (filter_and_renumber_actors actors_list) in
  fst (filter_and_renumber_actors (as_detected renumbered)) = renumbered
  /\ without_names (snd (filter_and_renumber_actors (as_detected renumbered)))
     = 0%Z.
Proof.
  intros renumbered.
  assert (Hnamed : named_actors (as_detected renumbered) = renumbered).
  { apply as_detected_named. apply Forall_forall. intros a Ha.
    destruct (filter_and_renumber_actors_ids_names actors_list) as [_ Hall].
    rewrite Forall_forall in Hall. apply (Hall a Ha). }
  assert (Hren : renumber 1 renumbered [] = renumbered).
  { destruct (filter_and_renumber_actors_ids_names actors_list) as [Hids _].
    fold renumbered in Hids. clear Hnamed.
    revert Hids. generalize 1%Z as n.
    induction renumbered as [|[i m] rest IH]; intros n Hids; [reflexivity|].
    simpl. rewrite renumber_acc. simpl.
    unfold numbers_from, len in Hids. simpl in Hids.
    injection Hids as Hi Hrest. rewrite Z.add_0_r in Hi. subst i. f_equal.
    apply IH. rewrite Hrest. unfold numbers_from, len.
    rewrite <- seq_shift, map_map. apply map_ext. intros k. lia. }
  unfold filter_and_renumber_actors. cbn [fst snd without_names].
  rewrite Hnamed. split; [exact Hren|].
  unfold as_detected, Zlen, len. rewrite length_map. lia.
Qed.

(* ================================================================= *)
(** ** The blacklist that the endpoints build *)

Lemma actor_names_all (actors : list (Z * str)) :
  Forall (fun a => has_name (Some (snd a)) = true /\ strip (snd a) = snd a) actors ->
  actor_names actors = map snd actors.
Proof.
  unfold actor_names. induction 1 as [|a rest [Hn _] Hall IH]; [reflexivity|].
  cbn [filter]. rewrite Hn. cbn [map]. rewrite IH. reflexivity.
Qed.

Lemma init_blacklist_trimmed (names : list str) :
  Forall (fun n => has_name (Some n) = true /\ strip n = n) names ->
  init_blacklist names = map lower names.
Proof.
  unfold init_blacklist. induction 1 as [|n rest [Hn Hs] Hall IH]; [reflexivity|].
  cbn [filter]. unfold has_name in Hn. apply andb_true_iff in Hn.
  destruct Hn as [_ Hn]. rewrite Hn. cbn [map].
  rewrite IH, strip_lower, Hs. reflexivity.
Qed.

Lemma endpoint_blacklist_lower (actors_list : list actor) :
  endpoint_blacklist actors_list
  = map lower (map snd (fst (filter_and_renumber_actors actors_list))).
Proof.
  unfold endpoint_blacklist.
  destruct (filter_and_renumber_actors_ids_names actors_list) as [_ Hall].
  rewrite (actor_names_all _ Hall). apply init_blacklist_trimmed.
  apply Forall_map. exact Hall.
Qed.

Lemma endpoint_blacklist_entry (actors_list : list actor) (actor_id : Z) (raw : str) :
  In (actor_id, Some raw) actors_list -> has_name (Some raw) = true ->
  In (norm raw) (endpoint_blacklist actors_list).
Proof.
  intros Hin Hn. rewrite endpoint_blacklist_lower.
  unfold norm. rewrite strip_lower. apply in_map.
  apply (filter_and_renumber_actors_names actors_list).
  exists actor_id, raw. auto.
Qed.

Lemma kept_unrelated (blacklist : list str) (a u : str) :
  In a blacklist -> lower a = a ->
  is_actor_text blacklist u = false ->
  ~ substring a (norm u) /\ ~ substring (norm u) a.
Proof.
  intros Hin Hlow H. rewrite is_actor_text_split in H.
  apply orb_false_iff in H. destruct H as [H _].
  assert (Hm : actor_match (norm u) a = false).
  { destruct (actor_match (norm u) a) eqn:E; [|reflexivity].
    assert (existsb (actor_match (norm u)) blacklist = true)
      by (apply existsb_exists; eauto).
    congruence. }
  split; intros Hsub;
    assert (actor_match (norm u) a = true)
      by (apply actor_match_iff; rewrite Hlow; auto);
    congruence.
Qed.

(** X17. The blacklist that the endpoints of main.py give to
    [UseCaseOCR] is the list of the names of the report in lowercase, one
    entry for each actor with a name.  Under it the name of every
    detected actor that has one, as detected, is an actor text, and no
    use case that a run outputs contains such a name or is contained in
    it, letter case and outer whitespace apart. *)
Theorem endpoint_blacklist_covers_actors (actors_list : list actor) :
  endpoint_blacklist actors_list
  = map lower (map snd (fst (filter_and_renumber_actors actors_list)))
  /\ Zlen (endpoint_blacklist actors_list)
     = with_names (snd (filter_and_renumber_actors actors_list))
  /\ (forall actor_id raw,
        In (actor_id, Some raw) actors_list -> has_name (Some raw) = true ->
        is_actor_text (endpoint_blacklist actors_list) raw = true)
  /\ (forall w h results thr r actor_id raw,
        In (actor_id, Some raw) actors_list -> has_name (Some raw) = true ->
        run_ocr (Ocr w h (endpoint_blacklist actors_list)) results thr = Ok r ->
        Forall (fun u => unrelated_texts raw u) (use_cases r)).
Proof.
  split; [apply endpoint_blacklist_lower|].
  split.
  { rewrite endpoint_blacklist_lower.
    rewrite (filter_and_renumber_actors_with_names actors_list).
    unfold Zlen, len. rewrite !length_map. reflexivity. }
  split.
  { intros i raw Hin Hn.
    apply (is_actor_text_match _ raw (norm raw)).
    - apply (endpoint_blacklist_entry actors_list i raw Hin Hn).
    - apply actor_match_iff. left. unfold norm.
      rewrite <- strip_lower, lower_idem. reflexivity. }
  intros w h results thr r i raw Hin Hn Hrun.
  pose proof (endpoint_blacklist_entry actors_list i raw Hin Hn) as Hentry.
  destruct (run_ocr_unfold _ results thr r Hrun) as (_ & _ & _ & _ & Hc).
  apply Forall_forall. intros u Hu. rewrite Hc in Hu.
  apply in_map_iff in Hu. destruct Hu as [d [<- Hd]].
  apply kept_not_actor in Hd. destruct Hd as [_ Hd]. cbn [actor_blacklist] in Hd.
  unfold unrelated_texts.
  apply (kept_unrelated _ (norm raw) (text d) Hentry); [|exact Hd].
  unfold norm. rewrite <- strip_lower, lower_idem. reflexivity.
Qed.

Lemma endpoint_blacklist_covers_actors_witness :
  is_actor_text
    (endpoint_blacklist [(7%Z, Some (lit " Cliente ")); (9%Z, None)])
    (lit " Cliente ") = true.
Proof.
  apply (proj1 (proj2 (proj2 (endpoint_blacklist_covers_actors
                                [(7%Z, Some (lit " Cliente ")); (9%Z, None)])))
           7%Z (lit " Cliente ")).
  - left. reflexivity.
  - reflexivity.
Defined.

(* ================================================================= *)
(** ** The JSON response *)

(** X18. The JSON response of [detect_actors] is consistent with itself:
    the statistics count the detected actors, those with and without a
    name (which sum to the total), the actors of the report and the use
    cases; [actors] is the renumbered list; the use cases are numbered
    1, 2, ... in the order of the run.  With [include_empty] the response
    lists every detected actor once under its original id, and
    [omitted_actors] holds as many ids as the statistics count actors
    without a name; without it the two keys are absent. *)
Theorem json_response_consistent (actors_list : list actor)
    (usecase_list : list str) (actor_positions : option (list (Q * Q)))
    (include_empty : bool) (time : str) :
  let resp :=
    json_response actors_list usecase_list actor_positions include_empty time in
  let st := response_statistics resp in
  total_actors_detected st = Zlen actors_list
  /\ (actors_with_names st + actors_without_names st
      = total_actors_detected st)%Z
  /\ actors_in_final_report st = actors_with_names st
  /\ actors_with_names st = Zlen (response_actors resp)
  /\ response_actors resp = fst (filter_and_renumber_actors actors_list)
  /\ use_cases_detected st = Zlen (response_use_cases resp)
  /\ map fst (response_use_cases resp) = seq 1 (len usecase_list)
  /\ map snd (response_use_cases resp) = usecase_list
  /\ (include_empty = true ->
      exists all omitted,
        all_detected_actors resp = Some all
        /\ omitted_actors resp = Some omitted
        /\ map fst all = map fst actors_list
        /\ Zlen omitted = actors_without_names st
        /\ forall actor_id,
             In actor_id omitted <->
             exists name, In (actor_id, name) actors_list
                          /\ has_name name = false)
  /\ (include_empty = false ->
      all_detected_actors resp = None /\ omitted_actors resp = None).
Proof.
  intros resp st. unfold st, resp, json_response.
  destruct (filter_and_renumber_actors actors_list) as [filtered stats] eqn:E.
  cbn [response_statistics response_actors response_use_cases
       all_detected_actors omitted_actors total_actors_detected
       actors_with_names actors_without_names use_cases_detected
       actors_in_final_report].
  pose proof (filter_and_renumber_actors_counts actors_list) as Hst.
  rewrite E in Hst. cbn [fst snd] in Hst.
  destruct Hst as (Ht & Hw & Hwo & Hsum).
  split; [exact Ht|]. split; [exact Hsum|].
  split; [symmetry; exact Hw|]. split; [exact Hw|].
  split; [reflexivity|].
  split.
  { unfold Zlen, len, enumerate. rewrite length_map, length_combine, length_seq.
    f_equal. unfold len. lia. }
  split.
  { rewrite map_map. rewrite <- seq_from_1,
      <- (enumerate_map_fst (fun i => (i + 1)%nat) usecase_list).
    apply map_ext. intros [i u]. reflexivity. }
  split.
  { rewrite map_map. rewrite <- (enumerate_snd usecase_list) at 2.
    apply map_ext. intros [i u]. reflexivity. }
  split.
  - intros ->. do 2 eexists. split; [reflexivity|]. split; [reflexivity|].
    split; [rewrite map_map; reflexivity|].
    split.
    { rewrite Hwo. unfold Zlen, len. rewrite length_map. reflexivity. }
    intros i. rewrite in_map_iff. split.
    + intros [[j name] [<- Hin]]. apply filter_In in Hin.
      destruct Hin as [Hin Hn]. apply negb_true_iff in Hn.
      exists name. auto.
    + intros [name [Hin Hn]]. exists (i, name). split; [reflexivity|].
      apply filter_In. split; [exact Hin|]. apply negb_true_iff. exact Hn.
  - intros ->. split; reflexivity.
Qed.

Lemma json_response_consistent_witness :
  exists omitted,
    omitted_actors
      (json_response [(7%Z, Some (lit "Cliente")); (9%Z, None)]
                     [lit "Crear pedido"] None true (lit "now"))
    = Some omitted
    /\ (forall actor_id,
          In actor_id omitted <->
          exists name,
            In (actor_id, name) [(7%Z, Some (lit "Cliente")); (9%Z, None)]
            /\ has_name name = false).
Proof.
  destruct (proj1 (proj2 (proj2 (proj2 (proj2 (proj2 (proj2 (proj2 (proj2
              (json_response_consistent
                 [(7%Z, Some (lit "Cliente")); (9%Z, None)]
                 [lit "Crear pedido"] None true (lit "now"))))))))))
              eq_refl)
    as (all & omitted & _ & Ho & _ & _ & Hin).
  exists omitted. split; [exact Ho | exact Hin].
Defined.

(* ================================================================= *)
(** ** The table of use cases of the report *)

Lemma display_text_short (u : str) :
  (len u <= 120)%nat -> display_text u = u.
Proof.
  intros H. unfold display_text.
  replace (120 <? len u)%nat with false; [reflexivity|].
  symmetry. apply Nat.ltb_ge. exact H.
Qed.

Lemma display_text_long (u : str) :
  (120 < len u)%nat ->
  display_text u = firstn 117 u ++ lit "..." /\ len (display_text u) = 120%nat.
Proof.
  intros H. unfold display_text.
  replace (120 <? len u)%nat with true by (symmetry; apply Nat.ltb_lt; exact H).
  split; [reflexivity|].
  unfold len in *. rewrite length_app, length_firstn.
  change (List.length (lit "...")) with 3%nat. lia.
Qed.

Lemma uc_table_rows_acc (use_cases_list : list str) :
  forall idx table,
    uc_table_rows idx use_cases_list table
    = table ++ uc_table_rows idx use_cases_list [].
Proof.
  induction use_cases_list as [|u rest IH]; intros idx table; simpl.
  - rewrite app_nil_r. reflexivity.
  - rewrite (IH _ (table ++ _)), (IH _ [_]), <- app_assoc. reflexivity.
Qed.

Lemma uc_table_rows_spec (use_cases_list : list str) (idx : Z) :
  uc_table_rows idx use_cases_list []
  = map (fun iu : Z * str => [str_of_Z (fst iu); display_text (snd iu)])
        (combine (numbers_from idx use_cases_list) use_cases_list).
Proof.
  unfold numbers_from, len.
  revert idx. induction use_cases_list as [|u rest IH]; intros idx;
    [reflexivity|].
  cbn [uc_table_rows]. rewrite uc_table_rows_acc, IH.
  cbn [List.length seq map combine app fst snd].
  rewrite Z.add_0_r. f_equal. f_equal. f_equal.
  rewrite <- seq_shift, map_map. apply map_ext. intros i. lia.
Qed.

(** X19. The table of use cases in the PDF report has a header row and
    one row for each use case, numbered 1, 2, ... in order.  The text of
    a row is never longer than 120 characters: a use case of at most 120
    characters is shown as it is, a longer one as its first 117
    characters followed by three dots, 120 characters in all. *)
Theorem uc_table_data_spec (use_cases_list : list str) :
  let table := uc_table_data use_cases_list in
  len table = S (len use_cases_list)
  /\ tl table
     = map (fun iu : Z * str => [str_of_Z (fst iu); display_text (snd iu)])
           (combine (numbers_from 1 use_cases_list) use_cases_list)
  /\ (forall u, (len (display_text u) <= 120)%nat)
  /\ (forall u, (len u <= 120)%nat -> display_text u = u)
  /\ (forall u, (120 < len u)%nat ->
        display_text u = firstn 117 u ++ lit "..."
        /\ len (display_text u) = 120%nat).
Proof.
  intros table. unfold table, uc_table_data.
  rewrite uc_table_rows_acc, uc_table_rows_spec. cbn [app tl].
  split.
  { unfold len, numbers_from, len. cbn [List.length].
    rewrite length_map, length_combine, length_map, length_seq. lia. }
  split; [reflexivity|].
  split.
  { intros u. destruct (Nat.le_gt_cases (len u) 120) as [H | H].
    - rewrite display_text_short; assumption.
    - destruct (display_text_long u H) as [_ ->]. lia. }
  split; [exact display_text_short | exact display_text_long].
Qed.

Lemma uc_table_data_spec_witness :
  display_text (lit "Crear pedido") = lit "Crear pedido".
Proof.
  apply (proj1 (proj2 (proj2 (proj2 (uc_table_data_spec [lit "Crear pedido"]))))
           (lit "Crear pedido")).
  simpl. lia.
Defined.

(* ================================================================= *)
(** ** Boxes along a run *)

Lemma rect_in_image_points (w h : Q) (b : bbox_t) :
  rect_in_image w h b -> in_image w h b.
Proof.
  intros (l & t & r & bt & -> & H). unfold in_image, rect. simpl.
  repeat constructor; simpl; lra.
Qed.

Lemma bbox_min_le_max (b : bbox_t) :
  bbox_x_min b <= bbox_x_max b /\ bbox_y_min b <= bbox_y_max b.
Proof.
  destruct (bbox_envelope b (pt0 b) (or_introl eq_refl)) as [[H1 H2] [H3 H4]].
  split; lra.
Qed.

Lemma expand_bbox_rect_in_image (w h : Q) (b : bbox_t) (ex ey : Q) :
  in_image w h b -> 0 <= ex -> 0 <= ey ->
  rect_in_image w h (_expand_bbox w h b ex ey).
Proof.
  intros Himg Hex Hey.
  destruct (bbox_envelope_in_image w h b Himg) as [[Hx0 Hx1] [Hy0 Hy1]].
  destruct (bbox_min_le_max b) as [Hx Hy].
  exists (Qmax 0 (bbox_x_min b - ex)), (Qmax 0 (bbox_y_min b - ey)),
         (Qmin w (bbox_x_max b + ex)), (Qmin h (bbox_y_max b + ey)).
  split; [reflexivity|].
  assert (Hl : Qmax 0 (bbox_x_min b - ex) <= bbox_x_min b) by (apply Q.max_lub; lra).
  assert (Ht : Qmax 0 (bbox_y_min b - ey) <= bbox_y_min b) by (apply Q.max_lub; lra).
  assert (Hr : bbox_x_max b <= Qmin w (bbox_x_max b + ex)) by (apply Q.min_glb; lra).
  assert (Hb : bbox_y_max b <= Qmin h (bbox_y_max b + ey)) by (apply Q.min_glb; lra).
  pose proof (Q.le_max_l 0 (bbox_x_min b - ex)).
  pose proof (Q.le_max_l 0 (bbox_y_min b - ey)).
  pose proof (Q.le_min_l w (bbox_x_max b + ex)).
  pose proof (Q.le_min_l h (bbox_y_max b + ey)).
  repeat split; lra.
Qed.

Lemma merge_group_rect_in_image (w h : Q) (g : list prepared) (m : result) :
  Forall (fun p => envelope_of_box p /\ rect_in_image w h (bbox (res p))) g ->
  merge_group g = Ok m -> rect_in_image w h (bbox m).
Proof.
  intros Hall Hm. destruct g as [|r [|r' rs]].
  - discriminate.
  - simpl in Hm. injection Hm as <-. inversion Hall as [|? ? [_ H] _]. exact H.
  - rewrite merge_group_unfold in Hm. injection Hm as <-. cbn [bbox].
    assert (Hb : forall p, In p (r :: r' :: rs) ->
                 (0 <= x_min p /\ x_min p <= x_max p /\ x_max p <= w)
                 /\ (0 <= y_min p /\ y_min p <= y_max p /\ y_max p <= h)).
    { intros p Hp. rewrite Forall_forall in Hall.
      destruct (Hall p Hp) as [(E1 & E2 & E3 & E4) Hrect].
      apply rect_in_image_points, bbox_envelope_in_image in Hrect.
      destruct (bbox_min_le_max (bbox (res p))) as [Hx Hy].
      rewrite E1, E2, E3, E4. lra. }
    exists (min_ne (x_min r) (map x_min (r' :: rs))),
           (min_ne (y_min r) (map y_min (r' :: rs))),
           (max_ne (x_max r) (map x_max (r' :: rs))),
           (max_ne (y_max r) (map y_max (r' :: rs))).
    split; [reflexivity|].
    pose proof (Hb r (or_introl eq_refl)) as [Hrx Hry].
    pose proof (min_ne_le_acc (x_min r) (map x_min (r' :: rs))).
    pose proof (min_ne_le_acc (y_min r) (map y_min (r' :: rs))).
    pose proof (max_ne_ge_acc (x_max r) (map x_max (r' :: rs))).
    pose proof (max_ne_ge_acc (y_max r) (map y_max (r' :: rs))).
    assert (0 <= min_ne (x_min r) (map x_min (r' :: rs))).
    { apply min_ne_greatest. intros v Hv.
      change (In v (map x_min (r :: r' :: rs))) in Hv. apply in_map_iff in Hv.
      destruct Hv as [p [<- Hp]]. apply (Hb p Hp). }
    assert (0 <= min_ne (y_min r) (map y_min (r' :: rs))).
    { apply min_ne_greatest. intros v Hv.
      change (In v (map y_min (r :: r' :: rs))) in Hv. apply in_map_iff in Hv.
      destruct Hv as [p [<- Hp]]. apply (Hb p Hp). }
    assert (max_ne (x_max r) (map x_max (r' :: rs)) <= w).
    { apply max_ne_least. intros v Hv.
      change (In v (map x_max (r :: r' :: rs))) in Hv. apply in_map_iff in Hv.
      destruct Hv as [p [<- Hp]]. apply (Hb p Hp). }
    assert (max_ne (y_max r) (map y_max (r' :: rs)) <= h).
    { apply max_ne_least. intros v Hv.
      change (In v (map y_max (r :: r' :: rs))) in Hv. apply in_map_iff in Hv.
      destruct Hv as [p [<- Hp]]. apply (Hb p Hp). }
    repeat split; lra.
Qed.

Lemma merge_similar_boxes_invariant (P : result -> Prop) (results : list result)
    (thr : Q) (out : list result) :
  (forall g m,
     Forall (fun p => envelope_of_box p /\ P (res p)) g ->
     merge_group g = Ok m -> P m) ->
  Forall P results ->
  _merge_similar_boxes results thr = Ok out ->
  Forall P out.
Proof.
  intros Hstep Hall Hout.
  destruct (merge_similar_boxes_groups results thr out Hout) as [groups [Hg HF]].
  apply Forall_forall. intros m Hm.
  destruct (Forall2_In_l _ _ _ m HF Hm) as [g [Hgin Hmg]].
  apply (Hstep g m); [|exact Hmg].
  apply Forall_forall. intros p Hp.
  destruct (group_member_input results thr groups g p Hg Hgin Hp) as [Hs Hr].
  split; [apply (sorted_results_envelope results p Hs)|].
  rewrite Forall_forall in Hall. apply Hall, Hr.
Qed.

(** X20. When the boxes of the raw detections lie inside the image, the
    box of every record of a run, after normalisation, after merging,
    after deduplication and in the final output, is an axis-aligned
    rectangle inside the image with its corners in the order top-left,
    top-right, bottom-right, bottom-left; so the first and third corners,
    which alone [_calculate_iou] reads, do span the box. *)
Theorem run_boxes_in_image (self : ocr) (results : list detection)
    (thr : Q) (r : run) :
  Forall (fun d => in_image (width self) (height self) (fst (fst d))) results ->
  run_ocr self results thr = Ok r ->
  Forall (fun x => rect_in_image (width self) (height self) (bbox x)) (processed r)
  /\ Forall (fun x => rect_in_image (width self) (height self) (bbox x)) (merged r)
  /\ Forall (fun x => rect_in_image (width self) (height self) (bbox x)) (unique r)
  /\ Forall (fun u => rect_in_image (width self) (height self) (uc_bbox u))
            (filtered_results r).
Proof.
  intros Himg Hrun.
  destruct (run_ocr_unfold self results thr r Hrun) as (Hp & Hm & Hu & Hf & _).
  set (P := fun x => rect_in_image (width self) (height self) (bbox x)).
  assert (H1 : Forall P (processed r)).
  { rewrite Hp, process_results_filter_map. simpl.
    apply Forall_forall. intros x Hx.
    apply in_map_iff in Hx. destruct Hx as [[[b t] c] [<- Hd]].
    apply filter_In in Hd. destruct Hd as [Hin _].
    rewrite Forall_forall in Himg. specialize (Himg _ Hin). simpl in Himg.
    unfold P. simpl. apply expand_bbox_rect_in_image; [exact Himg | |]; discriminate. }
  assert (H2 : Forall P (merged r)).
  { apply (merge_similar_boxes_invariant P _ _ _ (fun g m Hg Hmg =>
             merge_group_rect_in_image _ _ g m Hg Hmg) H1 Hm). }
  assert (H3 : Forall P (unique r)).
  { rewrite Hu. apply Forall_forall. intros x Hx.
    apply remove_duplicate_cases_In in Hx.
    rewrite Forall_forall in H2. apply (H2 x Hx). }
  repeat split; try assumption.
  rewrite Hf. apply Forall_forall. intros u Hu'.
  apply in_map_iff in Hu'. destruct Hu' as [x [<- Hx]].
  apply kept_not_actor in Hx. destruct Hx as [Hx _].
  rewrite Forall_forall in H3. apply (H3 x Hx).
Qed.

Lemma run_boxes_in_image_witness :
  exists r,
    run_ocr example_ocr example_detections (3 # 10) = Ok r
    /\ Forall (fun u => rect_in_image 640 480 (uc_bbox u)) (filtered_results r).
Proof.
  eexists. split; [vm_compute; reflexivity|].
  apply (run_boxes_in_image example_ocr example_detections (3 # 10)).
  - repeat constructor; simpl; discriminate.
  - vm_compute. reflexivity.
Defined.

(* ================================================================= *)
(** ** Texts along a run *)

Lemma strip_fix (s : str) : no_lead s -> no_lead (rev s) -> strip s = s.
Proof.
  intros H1 H2. unfold strip, rstrip.
  rewrite (lstrip_fix s H1), (lstrip_fix (rev s) H2). apply rev_involutive.
Qed.

Lemma strip_no_trail (s : str) : no_lead (rev (strip s)).
Proof.
  unfold strip, rstrip. rewrite rev_involutive. apply lstrip_no_lead.
Qed.

Lemma no_lead_app (a b : str) : a <> [] -> no_lead a -> no_lead (a ++ b).
Proof. destruct a; [congruence | simpl; auto]. Qed.

Lemma join_not_nil (sep x : str) (l : list str) :
  x <> [] -> join sep (x :: l) <> [].
Proof.
  intros Hx. destruct l as [|y l]; simpl; [exact Hx|].
  destruct x; [congruence | discriminate].
Qed.

Lemma join_trimmed (sep : str) (l : list str) :
  l <> [] ->
  Forall (fun t => t <> [] /\ no_lead t /\ no_lead (rev t)) l ->
  no_lead (join sep l) /\ no_lead (rev (join sep l)).
Proof.
  intros Hne Hall. revert Hne.
  induction Hall as [|x l (Hx & H1 & H2) Hall IH]; intros Hne;
    [exfalso; apply Hne; reflexivity|].
  destruct l as [|y l]; [simpl; auto|].
  change (join sep (x :: y :: l)) with (x ++ sep ++ join sep (y :: l)).
  split.
  - apply no_lead_app; assumption.
  - rewrite !rev_app_distr, <- app_assoc.
    inversion Hall as [|? ? (Hy & _) _]; subst.
    apply no_lead_app.
    + intros E. apply (f_equal (@rev ascii)) in E.
      rewrite rev_involutive in E. simpl in E.
      apply (join_not_nil sep y l Hy E).
    + apply IH. discriminate.
Qed.

Lemma join_len (sep x : str) (l : list str) :
  (len x <= len (join sep (x :: l)))%nat.
Proof.
  unfold len. destruct l as [|y l]; simpl; [lia|].
  rewrite length_app. lia.
Qed.

Lemma label_text_parts (t : str) :
  label_text t -> t <> [] /\ no_lead t /\ no_lead (rev t).
Proof.
  intros [Hs Hl]. split.
  - intros E. rewrite E in Hl. unfold len in Hl. simpl in Hl. lia.
  - rewrite <- Hs. split; [apply strip_no_lead | apply strip_no_trail].
Qed.

Lemma merge_group_text (r r' : prepared) (rs : list prepared) (m : result) :
  merge_group (r :: r' :: rs) = Ok m ->
  text m
  = join (lit " ")
         (map (fun p => text (res p))
              (py_sort (fun a b => Qlt_b (x_min a) (x_min b)) (r :: r' :: rs))).
Proof.
  intros Hm. rewrite merge_group_unfold in Hm. injection Hm as <-. reflexivity.
Qed.

Lemma merge_group_label_text (g : list prepared) (m : result) :
  Forall (fun p => envelope_of_box p /\ label_text (text (res p))) g ->
  merge_group g = Ok m -> label_text (text m).
Proof.
  intros Hall Hm. destruct g as [|r [|r' rs]].
  - discriminate.
  - simpl in Hm. injection Hm as <-. inversion Hall as [|? ? [_ H] _]. exact H.
  - rewrite (merge_group_text r r' rs m Hm).
    set (g := r :: r' :: rs) in *.
    set (sorted_group := py_sort (fun a b => Qlt_b (x_min a) (x_min b)) g).
    assert (Hperm : Permutation sorted_group g) by apply py_sort_perm.
    assert (Hs : Forall label_text (map (fun p => text (res p)) sorted_group)).
    { apply Forall_map. apply Forall_forall. intros p Hp.
      rewrite Forall_forall in Hall.
      apply (Hall p (Permutation_in _ Hperm Hp)). }
    assert (Hne : map (fun p => text (res p)) sorted_group <> []).
    { intros E. apply map_eq_nil in E.
      apply Permutation_length in Hperm. rewrite E in Hperm. discriminate. }
    destruct (map (fun p => text (res p)) sorted_group) as [|x l] eqn:E;
      [congruence|].
    destruct (join_trimmed (lit " ") (x :: l) Hne) as [H1 H2].
    { eapply Forall_impl; [|exact Hs]. intros t. apply label_text_parts. }
    split; [apply strip_fix; assumption|].
    inversion Hs as [|? ? [_ Hx] _]; subst.
    pose proof (join_len (lit " ") x l). lia.
Qed.

(** X21. Every text of a run, after normalisation, after merging, after
    deduplication and in the list of use cases, is trimmed (it has no
    outer whitespace) and has at least two characters: merging joins
    trimmed texts with single spaces and adds no outer whitespace. *)
Theorem run_texts_trimmed (self : ocr) (results : list detection)
    (thr : Q) (r : run) :
  run_ocr self results thr = Ok r ->
  Forall (fun x => label_text (text x)) (processed r)
  /\ Forall (fun x => label_text (text x)) (merged r)
  /\ Forall (fun x => label_text (text x)) (unique r)
  /\ Forall label_text (use_cases r).
Proof.
  intros Hrun.
  destruct (run_ocr_unfold self results thr r Hrun) as (Hp & Hm & Hu & _ & Hc).
  set (P := fun x => label_text (text x)).
  assert (H1 : Forall P (processed r)).
  { rewrite Hp, process_results_filter_map. simpl.
    apply Forall_forall. intros x Hx.
    apply in_map_iff in Hx. destruct Hx as [[[b t] c] [<- Hd]].
    apply filter_In in Hd. destruct Hd as [_ Hs]. simpl in Hs.
    apply andb_true_iff in Hs. destruct Hs as [_ Hlen].
    apply negb_true_iff, Nat.ltb_ge in Hlen.
    unfold P, label_text. simpl. split; [apply strip_idem | exact Hlen]. }
  assert (H2 : Forall P (merged r)).
  { apply (merge_similar_boxes_invariant P _ _ _ merge_group_label_text H1 Hm). }
  assert (H3 : Forall P (unique r)).
  { rewrite Hu. apply Forall_forall. intros x Hx.
    apply remove_duplicate_cases_In in Hx.
    rewrite Forall_forall in H2. apply (H2 x Hx). }
  repeat split; try assumption.
  rewrite Hc. apply Forall_map. apply Forall_forall. intros x Hx.
  apply kept_not_actor in Hx. destruct Hx as [Hx _].
  rewrite Forall_forall in H3. apply (H3 x Hx).
Qed.

Lemma run_texts_trimmed_witness :
  exists r,
    run_ocr example_ocr example_detections (3 # 10) = Ok r
    /\ Forall label_text (use_cases r).
Proof.
  eexists. split; [vm_compute; reflexivity|].
  apply (run_texts_trimmed example_ocr example_detections (3 # 10)).
  vm_compute. reflexivity.
Defined.

(* ================================================================= *)
(** ** Blank texts and the filter *)

(** X22. On a blank text (empty, or whitespace only) [is_actor_text]
    answers by the blacklist alone: it is true when the blacklist has an
    entry, since the empty string is contained in every entry, and false
    when the blacklist is empty. *)
Theorem is_actor_text_blank (blacklist : list str) (t : str) :
  blank t ->
  is_actor_text blacklist t = negb (is_empty blacklist).
Proof.
  intros Hb. apply blank_iff in Hb.
  rewrite is_actor_text_split. unfold norm. rewrite Hb.
  assert (Hrest : is_actor_text [] t = false).
  { rewrite <- (proj2 (is_actor_text_trim_invariant [] t)).
    assert (Hs : strip t = []).
    { rewrite strip_lower in Hb. destruct (strip t); [reflexivity | discriminate]. }
    rewrite Hs. reflexivity. }
  rewrite Hrest, orb_false_r.
  destruct blacklist as [|a bl]; [reflexivity|]. simpl.
  unfold actor_match. rewrite (contains_nil (lower a)), orb_true_r. reflexivity.
Qed.

Lemma is_actor_text_blank_witness :
  is_actor_text [lit "actor1"] (lit "   ") = true.
Proof.
  apply (is_actor_text_blank [lit "actor1"] (lit "   ")). reflexivity.
Defined.
